(** * GUI test recorder CLI: session store, binary resolver, record and replay flows

    A shallow embedding of [main.ts].  The program is a thin orchestration
    layer over the JavaScript runtime (JSON, strings, numbers), the Deno
    file system, a prompt library and external processes.  Those parts are
    modelled first, as small executable definitions; the functions of
    [main.ts] follow, in the order of the source, written in an error/state
    monad over an explicit world.

    Conventions of the model:
    - text is UTF-8: a string holds the bytes of the text it stands for,
      as a file holds them (see [Utf8]); ill-formed text is taken as it
      is, where the runtime would put replacement characters;
    - a JSON number is kept as the literal that denotes it, and the number
      a typed text denotes is an exact decimal (rounding to binary64 is
      not modelled);
    - console output is presentation only and is not recorded, but the
      conversions to text that printing a history entry performs are
      modelled, since they can fail; the environment handed to a child
      process is not part of an event. *)

From Stdlib Require Import ZArith Ascii String List DecimalString DecimalNat Lia.
From stdpp Require Import base option list strings gmap.

Local Open Scope string_scope.

(* String concatenation computes on literals in this file. *)
#[local] Arguments String.append !_ _ : simpl nomatch.

(** ** Characters *)

Module Char.

Definition code (c : ascii) : N := N_of_ascii c.

Definition dquote : ascii := "034".
Definition backslash : ascii := "092".
Definition lf : ascii := "010".

Definition is_digit (c : ascii) : bool :=
  ((48 <=? code c) && (code c <=? 57))%N.

Definition digit_val (c : ascii) : N := (code c - 48)%N.

(** Value of a hexadecimal digit, either case. *)
Definition hex_val (c : ascii) : option N :=
  let n := code c in
  if ((48 <=? n) && (n <=? 57))%N then Some (n - 48)%N
  else if ((97 <=? n) && (n <=? 102))%N then Some (n - 87)%N
  else if ((65 <=? n) && (n <=? 70))%N then Some (n - 55)%N
  else None.

(** Lower-case hexadecimal digit of a value below 16. *)
Definition hex_digit (n : N) : ascii :=
  if (n <? 10)%N then ascii_of_N (48 + n) else ascii_of_N (87 + n).

End Char.

Definition nl : string := String Char.lf "".

(** ** Text

    A string of the model is the UTF-8 text of the JavaScript string it
    stands for: that is what a file holds, what [Deno.readTextFile] and
    [Deno.writeTextFile] convert from and to, and what a terminal
    delivers.  A code unit of the JavaScript string is one to three
    bytes here, a surrogate pair four.  A surrogate without its partner
    is no character and has no UTF-8; it is kept as the three bytes its
    value would take. *)
Module Utf8.

Definition is_high (u : N) : bool := ((55296 <=? u) && (u <? 56320))%N.
Definition is_low (u : N) : bool := ((56320 <=? u) && (u <? 57344))%N.

(** The code point of a surrogate pair. *)
Definition pair (h l : N) : N := (65536 + (h - 55296) * 1024 + (l - 56320))%N.

Definition encode (cp : N) : string :=
  if (cp <? 128)%N then String (ascii_of_N cp) ""
  else if (cp <? 2048)%N then
    String (ascii_of_N (192 + cp / 64)) (String (ascii_of_N (128 + cp mod 64)) "")
  else if (cp <? 65536)%N then
    String (ascii_of_N (224 + cp / 4096))
      (String (ascii_of_N (128 + (cp / 64) mod 64))
         (String (ascii_of_N (128 + cp mod 64)) ""))
  else
    String (ascii_of_N (240 + cp / 262144))
      (String (ascii_of_N (128 + (cp / 4096) mod 64))
         (String (ascii_of_N (128 + (cp / 64) mod 64))
            (String (ascii_of_N (128 + cp mod 64)) ""))).

(** The bytes [c b1 b2] are those of a surrogate. *)
Definition surrogate (c b1 b2 : ascii) : bool :=
  ((Char.code c =? 237) && (160 <=? Char.code b1) && (Char.code b1 <=? 191)
   && (128 <=? Char.code b2) && (Char.code b2 <=? 191))%N.

(** The surrogate that the bytes [237 b1 b2] hold. *)
Definition unit (b1 b2 : ascii) : N :=
  (53248 + (Char.code b1 - 128) * 64 + (Char.code b2 - 128))%N.

Definition starts_low (s : string) : bool :=
  match s with
  | String d (String d1 (String d2 _)) => surrogate d d1 d2 && is_low (unit d1 d2)
  | _ => false
  end.

End Utf8.

(** ** JSON values

    The values [JSON.parse] can produce.  An object is its list of own
    properties in enumeration order. *)

#[warnings="-register-all"]
Inductive json : Type :=
| JNull
| JBool (b : bool)
| JNum (literal : string)
| JStr (s : string)
| JArr (items : list json)
| JObj (members : list (string * json)).

(** Induction that reaches the values nested in arrays and objects. *)
Definition json_nested_ind (P : json -> Prop)
    (Hnull : P JNull) (Hbool : forall b, P (JBool b))
    (Hnum : forall literal, P (JNum literal)) (Hstr : forall s, P (JStr s))
    (Harr : forall items, Forall P items -> P (JArr items))
    (Hobj : forall members, Forall (fun kv => P (snd kv)) members -> P (JObj members))
  : forall v, P v :=
  fix go (v : json) : P v :=
    match v with
    | JNull => Hnull
    | JBool b => Hbool b
    | JNum literal => Hnum literal
    | JStr s => Hstr s
    | JArr items =>
        Harr items
          ((fix all (l : list json) : Forall P l :=
              match l with
              | [] => List.Forall_nil _
              | x :: l' => List.Forall_cons _ x l' (go x) (all l')
              end) items)
    | JObj members =>
        Hobj members
          ((fix all (l : list (string * json)) : Forall (fun kv => P (snd kv)) l :=
              match l with
              | [] => List.Forall_nil _
              | kv :: l' => List.Forall_cons _ kv l' (go (snd kv)) (all l')
              end) members)
    end.

Definition is_array (v : json) : bool :=
  match v with JArr _ => true | _ => false end.

(** Property read [v.key] on a JSON value; [None] is [undefined]. *)
Fixpoint assoc_get {A} (key : string) (ms : list (string * A)) : option A :=
  match ms with
  | [] => None
  | (k, v) :: ms' => if String.eqb k key then Some v else assoc_get key ms'
  end.

(** *** Property order of an object

    Own properties enumerate array-index keys first, in ascending order,
    then the other keys in creation order.  Defining a key again replaces
    its value in place. *)

Fixpoint all_digits (s : string) : bool :=
  match s with
  | "" => true
  | String c r => Char.is_digit c && all_digits r
  end.

Fixpoint digits_value (acc : N) (s : string) : N :=
  match s with
  | "" => acc
  | String c r => digits_value (10 * acc + Char.digit_val c)%N r
  end.

(** A key is an array index when it is the canonical decimal form of an
    integer in [0, 2^32 - 2]. *)
Definition array_index (key : string) : option N :=
  match key with
  | "" => None
  | String c r =>
      if all_digits key && (negb (Ascii.eqb c "0") || String.eqb r "")
      then let n := digits_value 0 key in
           if (n <? 4294967295)%N then Some n else None
      else None
  end.

Fixpoint obj_replace (key : string) (v : json) (ms : list (string * json))
  : option (list (string * json)) :=
  match ms with
  | [] => None
  | (k, v') :: ms' =>
      if String.eqb k key then Some ((k, v) :: ms')
      else match obj_replace key v ms' with
           | Some ms'' => Some ((k, v') :: ms'')
           | None => None
           end
  end.

(** Insert a fresh index key before the first member that is not a smaller
    index. *)
Fixpoint obj_insert_index (n : N) (key : string) (v : json)
         (ms : list (string * json)) : list (string * json) :=
  match ms with
  | [] => [(key, v)]
  | (k, v') :: ms' =>
      match array_index k with
      | Some n' => if (n' <? n)%N then (k, v') :: obj_insert_index n key v ms'
                   else (key, v) :: ms
      | None => (key, v) :: ms
      end
  end.

Definition obj_set (ms : list (string * json)) (key : string) (v : json)
  : list (string * json) :=
  match obj_replace key v ms with
  | Some ms' => ms'
  | None =>
      match array_index key with
      | Some n => obj_insert_index n key v ms
      | None => (ms ++ [(key, v)])%list
      end
  end.

Definition obj_of_members (ms : list (string * json)) : list (string * json) :=
  fold_left (fun o kv => obj_set o kv.1 kv.2) ms [].

(** ** JSON.stringify *)

Module Stringify.

Definition escape_char (c : ascii) : string :=
  let n := Char.code c in
  if (n =? 8)%N then "\b"
  else if (n =? 9)%N then "\t"
  else if (n =? 10)%N then "\n"
  else if (n =? 12)%N then "\f"
  else if (n =? 13)%N then "\r"
  else if (n =? 34)%N then String Char.backslash (String Char.dquote "")
  else if (n =? 92)%N then "\\"
  else if (n <? 32)%N then
    "\u00" +:+ String (Char.hex_digit (n / 16)) (String (Char.hex_digit (n mod 16)) "")
  else String c "".

(** UnicodeEscape *)
Definition unicode_escape (u : N) : string :=
  "\u" +:+ String (Char.hex_digit (u / 4096))
             (String (Char.hex_digit ((u / 256) mod 16))
                (String (Char.hex_digit ((u / 16) mod 16))
                   (String (Char.hex_digit (u mod 16)) ""))).

(** A surrogate that is not half of a pair is escaped; a high surrogate
    directly followed by a low one is a character and goes out as it
    is. *)
Fixpoint escape (s : string) : string :=
  match s with
  | "" => ""
  | String c r =>
      match r with
      | String b1 (String b2 r3) =>
          if Utf8.surrogate c b1 b2 then
            match r3 with
            | String d (String d1 (String d2 r6)) =>
                if Utf8.is_high (Utf8.unit b1 b2) && Utf8.starts_low r3
                then String c (String b1 (String b2
                       (String d (String d1 (String d2 (escape r6))))))
                else unicode_escape (Utf8.unit b1 b2) +:+ escape r3
            | _ => unicode_escape (Utf8.unit b1 b2) +:+ escape r3
            end
          else escape_char c +:+ escape r
      | _ => escape_char c +:+ escape r
      end
  end.

(** QuoteJSONString *)
Definition quote (s : string) : string :=
  String Char.dquote (escape s +:+ String Char.dquote "").

Fixpoint join (sep : string) (parts : list string) : string :=
  match parts with
  | [] => ""
  | [p] => p
  | p :: ps => p +:+ sep +:+ join sep ps
  end.

Definition is_empty (s : string) : bool :=
  match s with "" => true | _ => false end.

(** Brackets around the serialized parts of an array or object. *)
Definition wrap (gap stepback indent : string) (open close : string)
           (parts : list string) : string :=
  match parts with
  | [] => open +:+ close
  | _ =>
      if is_empty gap then open +:+ join "," parts +:+ close
      else open +:+ nl +:+ indent +:+ join ("," +:+ nl +:+ indent) parts
                +:+ nl +:+ stepback +:+ close
  end.

(** SerializeJSONProperty, with SerializeJSONArray and SerializeJSONObject
    inlined; [indent] is the indentation of the enclosing level. *)
Fixpoint serialize (gap indent : string) (v : json) {struct v} : string :=
  match v with
  | JNull => "null"
  | JBool true => "true"
  | JBool false => "false"
  | JNum literal => literal
  | JStr s => quote s
  | JArr items =>
      wrap gap indent (indent +:+ gap) "[" "]"
           (map (serialize gap (indent +:+ gap)) items)
  | JObj members =>
      wrap gap indent (indent +:+ gap) "{" "}"
           (map (fun kv => quote kv.1 +:+ (if is_empty gap then ":" else ": ")
                                 +:+ serialize gap (indent +:+ gap) kv.2)
                members)
  end.

End Stringify.

(** [JSON.stringify(v, null, 2)] *)
Definition JSON_stringify2 (v : json) : string := Stringify.serialize "  " "" v.

(** ** JSON.parse *)

Module Parse.

Definition is_ws (c : ascii) : bool :=
  let n := Char.code c in
  ((n =? 32) || (n =? 9) || (n =? 10) || (n =? 13))%N.

Fixpoint skip_ws (s : string) : string :=
  match s with
  | "" => ""
  | String c r => if is_ws c then skip_ws r else s
  end.

Fixpoint strip_prefix (p s : string) : option string :=
  match p, s with
  | "", _ => Some s
  | String a p', String b s' => if Ascii.eqb a b then strip_prefix p' s' else None
  | _, _ => None
  end.

Definition cons_char (c : ascii) (r : option (string * string))
  : option (string * string) :=
  match r with
  | Some (s, rest) => Some (String c s, rest)
  | None => None
  end.

Definition cons_str (p : string) (r : option (string * string))
  : option (string * string) :=
  match r with
  | Some (s, rest) => Some (p +:+ s, rest)
  | None => None
  end.

Definition hex4 (a b c d : ascii) : option N :=
  match Char.hex_val a, Char.hex_val b, Char.hex_val c, Char.hex_val d with
  | Some x, Some y, Some z, Some w => Some (((x * 16 + y) * 16 + z) * 16 + w)%N
  | _, _, _, _ => None
  end.

Definition simple_escape (e : ascii) : option ascii :=
  let n := Char.code e in
  if (n =? 34)%N then Some Char.dquote
  else if (n =? 92)%N then Some Char.backslash
  else if (n =? 47)%N then Some "/"%char
  else if (n =? 98)%N then Some "008"%char
  else if (n =? 102)%N then Some "012"%char
  else if (n =? 110)%N then Some "010"%char
  else if (n =? 114)%N then Some "013"%char
  else if (n =? 116)%N then Some "009"%char
  else None.

(** The characters of a string literal after its opening quote, up to and
    including the closing quote.  A [\u] escape gives the UTF-8 of its
    code unit; the escape of a high surrogate directly followed by the
    escape of a low one gives the character of the pair. *)
Fixpoint chars (s : string) : option (string * string) :=
  match s with
  | "" => None
  | String c r =>
      if Ascii.eqb c Char.dquote then Some ("", r)
      else if Ascii.eqb c Char.backslash then
        match r with
        | "" => None
        | String e r1 =>
            match simple_escape e with
            | Some x => cons_char x (chars r1)
            | None =>
                if Ascii.eqb e "u" then
                  match r1 with
                  | String h1 (String h2 (String h3 (String h4 r2))) =>
                      match hex4 h1 h2 h3 h4 with
                      | Some n =>
                          if Utf8.is_high n then
                            match r2 with
                            | String b t1 =>
                                if Ascii.eqb b Char.backslash then
                                  match t1 with
                                  | String u t2 =>
                                      if Ascii.eqb u "u" then
                                        match t2 with
                                        | String l1 (String l2 (String l3 (String l4 r3))) =>
                                            match hex4 l1 l2 l3 l4 with
                                            | Some m =>
                                                if Utf8.is_low m
                                                then cons_str (Utf8.encode (Utf8.pair n m))
                                                              (chars r3)
                                                else cons_str (Utf8.encode n) (chars r2)
                                            | None => cons_str (Utf8.encode n) (chars r2)
                                            end
                                        | _ => cons_str (Utf8.encode n) (chars r2)
                                        end
                                      else cons_str (Utf8.encode n) (chars r2)
                                  | "" => cons_str (Utf8.encode n) (chars r2)
                                  end
                                else cons_str (Utf8.encode n) (chars r2)
                            | "" => cons_str (Utf8.encode n) (chars r2)
                            end
                          else cons_str (Utf8.encode n) (chars r2)
                      | None => None
                      end
                  | _ => None
                  end
                else None
            end
        end
      else if (Char.code c <? 32)%N then None
      else cons_char c (chars r)
  end.
(** The low surrogate that an escape at the head of a text denotes, and
    the text after the escape. *)
Definition low_escape (s : string) : option (N * string) :=
  match s with
  | String b t1 =>
      if Ascii.eqb b Char.backslash then
        match t1 with
        | String u t2 =>
            if Ascii.eqb u "u" then
              match t2 with
              | String l1 (String l2 (String l3 (String l4 r3))) =>
                  match hex4 l1 l2 l3 l4 with
                  | Some m => if Utf8.is_low m then Some (m, r3) else None
                  | None => None
                  end
              | _ => None
              end
            else None
        | "" => None
        end
      else None
  | "" => None
  end.

(** Longest prefix of decimal digits. *)
Fixpoint span_digits (s : string) : string * string :=
  match s with
  | "" => ("", "")
  | String c r =>
      if Char.is_digit c
      then let '(ds, rest) := span_digits r in (String c ds, rest)
      else ("", s)
  end.

Definition digits1 (s : string) : option (string * string) :=
  let '(ds, rest) := span_digits s in
  if Stringify.is_empty ds then None else Some (ds, rest).

Definition int_part (s : string) : option (string * string) :=
  match s with
  | "" => None
  | String c r =>
      if Ascii.eqb c "0" then Some ("0", r)
      else digits1 s
  end.

Definition frac_part (s : string) : option (string * string) :=
  match s with
  | String c r =>
      if Ascii.eqb c "." then
        match digits1 r with
        | Some (ds, rest) => Some (String c ds, rest)
        | None => None
        end
      else Some ("", s)
  | "" => Some ("", s)
  end.

Definition exp_part (s : string) : option (string * string) :=
  match s with
  | String c r =>
      if Ascii.eqb c "e" || Ascii.eqb c "E" then
        let '(sign, r1) :=
          match r with
          | String g r' =>
              if Ascii.eqb g "+" || Ascii.eqb g "-" then (String g "", r')
              else ("", r)
          | "" => ("", r)
          end in
        match digits1 r1 with
        | Some (ds, rest) => Some (String c (sign +:+ ds), rest)
        | None => None
        end
      else Some ("", s)
  | "" => Some ("", s)
  end.

(** A number token: [-? int frac? exp?]. *)
Definition number (s : string) : option (string * string) :=
  let '(sign, s1) :=
    match s with
    | String c r => if Ascii.eqb c "-" then ("-", r) else ("", s)
    | "" => ("", s)
    end in
  '(i, s2) ← int_part s1;
  '(f, s3) ← frac_part s2;
  '(e, s4) ← exp_part s3;
  Some (sign +:+ i +:+ f +:+ e, s4).

(** Recursive descent over the JSON grammar.  Every call spends one unit
    of fuel; [JSON_parse] supplies fuel from the length of the text. *)
Fixpoint value (fuel : nat) (s : string) : option (json * string) :=
  match fuel with
  | O => None
  | S fuel =>
      match skip_ws s with
      | "" => None
      | String c r =>
          if Ascii.eqb c Char.dquote then
            '(str, r') ← chars r; Some (JStr str, r')
          else if Ascii.eqb c "[" then
            match strip_prefix "]" (skip_ws r) with
            | Some r' => Some (JArr [], r')
            | None => '(vs, r') ← elements fuel r; Some (JArr vs, r')
            end
          else if Ascii.eqb c "{" then
            match strip_prefix "}" (skip_ws r) with
            | Some r' => Some (JObj [], r')
            | None => '(ms, r') ← members fuel r; Some (JObj (obj_of_members ms), r')
            end
          else if Ascii.eqb c "n" then
            r' ← strip_prefix "ull" r; Some (JNull, r')
          else if Ascii.eqb c "t" then
            r' ← strip_prefix "rue" r; Some (JBool true, r')
          else if Ascii.eqb c "f" then
            r' ← strip_prefix "alse" r; Some (JBool false, r')
          else
            '(lit, r') ← number (String c r); Some (JNum lit, r')
      end
  end
with elements (fuel : nat) (s : string) : option (list json * string) :=
  match fuel with
  | O => None
  | S fuel =>
      '(v, r) ← value fuel s;
      match skip_ws r with
      | "" => None
      | String c r' =>
          if Ascii.eqb c "," then
            '(vs, r'') ← elements fuel r'; Some (v :: vs, r'')
          else if Ascii.eqb c "]" then Some ([v], r')
          else None
      end
  end
with members (fuel : nat) (s : string) : option (list (string * json) * string) :=
  match fuel with
  | O => None
  | S fuel =>
      r ← strip_prefix (String Char.dquote "") (skip_ws s);
      '(k, r1) ← chars r;
      r2 ← strip_prefix ":" (skip_ws r1);
      '(v, r3) ← value fuel r2;
      match skip_ws r3 with
      | "" => None
      | String c r' =>
          if Ascii.eqb c "," then
            '(ms, r'') ← members fuel r'; Some ((k, v) :: ms, r'')
          else if Ascii.eqb c "}" then Some ([(k, v)], r')
          else None
      end
  end.

End Parse.

(** [JSON.parse(txt)]; [None] is the thrown SyntaxError. *)
Definition JSON_parse (txt : string) : option json :=
  match Parse.value (2 * String.length txt + 2) txt with
  | Some (v, rest) =>
      if Stringify.is_empty (Parse.skip_ws rest) then Some v else None
  | None => None
  end.

(** ** Values that [JSON.stringify] writes and [JSON.parse] reads back *)

Module Printable.

Import Stringify Parse.

(** Strings of white space only: the indentation the serializer emits. *)
Fixpoint blank (s : string) : bool :=
  match s with
  | "" => true
  | String c r => is_ws c && blank r
  end.

(** *** Values the round trip covers

    Numbers are left out (their literal is not what the runtime would
    print), and object keys must be distinct and not array indices, so
    that creation order is enumeration order. *)

Fixpoint plain_keys (ks : list string) : bool :=
  match ks with
  | [] => true
  | k :: ks' =>
      match array_index k with
      | Some _ => false
      | None => negb (existsb (String.eqb k) ks') && plain_keys ks'
      end
  end.

Fixpoint printable (v : json) : bool :=
  match v with
  | JNum _ => false
  | JArr items => forallb printable items
  | JObj ms => plain_keys (map fst ms) && forallb (fun kv => printable kv.2) ms
  | _ => true
  end.

(** Fuel that [Parse.value] needs on the text of [v]. *)
Fixpoint size (v : json) : nat :=
  match v with
  | JArr items => S (fold_right (fun x n => S (size x + n)) 0 items)
  | JObj ms => S (fold_right (fun kv n => S (size kv.2 + n)) 0 ms)
  | _ => 1
  end.

Definition items_size (items : list json) : nat :=
  fold_right (fun x n => S (size x + n)) 0 items.

Definition members_size (ms : list (string * json)) : nat :=
  fold_right (fun kv n => S (size kv.2 + n)) 0 ms.

Definition member_text (indent : string) (kv : string * json) : string :=
  quote kv.1 +:+ ": " +:+ serialize "  " indent kv.2.

Definition sep (indent : string) : string := "," +:+ nl +:+ indent.

(** *** The parser on serialized text

    [reads f] says that with fuel [f] the three mutually recursive parsers
    read back a value, the items of an array and the members of an object
    from their indented text, leaving what follows untouched. *)

Definition reads_value (f : nat) : Prop :=
  forall v pre indent rest,
    blank pre = true -> blank indent = true ->
    printable v = true -> size v <= f ->
    value f (pre +:+ serialize "  " indent v +:+ rest) = Some (v, rest).

Definition reads_elements (f : nat) : Prop :=
  forall x items indent stepback rest,
    blank indent = true -> blank stepback = true ->
    forallb printable (x :: items) = true -> items_size (x :: items) <= f ->
    elements f (nl +:+ indent +:+
                join (sep indent) (map (serialize "  " indent) (x :: items))
                +:+ nl +:+ stepback +:+ "]" +:+ rest)
    = Some (x :: items, rest).

Definition reads_members (f : nat) : Prop :=
  forall m ms indent stepback rest,
    blank indent = true -> blank stepback = true ->
    forallb (fun kv => printable kv.2) (m :: ms) = true ->
    members_size (m :: ms) <= f ->
    members f (nl +:+ indent +:+
               join (sep indent) (map (member_text indent) (m :: ms))
               +:+ nl +:+ stepback +:+ "}" +:+ rest)
    = Some (m :: ms, rest).

(** Each of the three parsers leaves strictly less than it was given. *)
Definition consumes (f : nat) : Prop :=
  (forall s v r, value f s = Some (v, r) -> String.length r < String.length s) /\
  (forall s vs r, elements f s = Some (vs, r) -> String.length r < String.length s) /\
  (forall s ms r, members f s = Some (ms, r) -> String.length r < String.length s).

(** Case analysis on the first step of an option bind in [H]. *)
Ltac bind_case H name :=
  match type of H with
  | context [mbind _ ?m] =>
      let o := fresh name in
      destruct m as [o|] eqn:?; cbn [mbind option_bind] in H; [|discriminate H]
  end.

(** With fuel [f] or more the parsers answer as with one unit more. *)
Definition fuel_enough (f : nat) : Prop :=
  (forall s, 2 * String.length s + 2 <= f -> value f s = value (S f) s) /\
  (forall s, 2 * String.length s + 3 <= f -> elements f s = elements (S f) s) /\
  (forall s, 2 * String.length s + 3 <= f -> members f s = members (S f) s).

End Printable.

(** ** JavaScript numbers, as far as the replay selection needs them

    [Number(s)], [Math.min], [Math.max], subtraction and array indexing.
    A finite number is kept as an exact decimal [m * 10^e]; rounding to
    binary64 is not modelled. *)

Module Num.

Inductive number : Type :=
| NaN
| Inf (negative : bool)
| Fin (m e : Z).

Definition of_Z (z : Z) : number := Fin z 0.
Definition of_nat (n : nat) : number := Fin (Z.of_nat n) 0.

(** Both mantissas at the smaller of the two exponents. *)
Definition align (m1 e1 m2 e2 : Z) : Z * Z * Z :=
  let e := Z.min e1 e2 in
  ((m1 * 10 ^ (e1 - e))%Z, (m2 * 10 ^ (e2 - e))%Z, e).

Definition lt (a b : number) : bool :=
  match a, b with
  | NaN, _ | _, NaN => false
  | Inf true, Inf true => false
  | Inf true, _ => true
  | _, Inf true => false
  | Inf false, _ => false
  | _, Inf false => true
  | Fin m1 e1, Fin m2 e2 =>
      let '(x, y, _) := align m1 e1 m2 e2 in (x <? y)%Z
  end.

Definition Math_min (a b : number) : number :=
  match a, b with
  | NaN, _ | _, NaN => NaN
  | _, _ => if lt b a then b else a
  end.

Definition Math_max (a b : number) : number :=
  match a, b with
  | NaN, _ | _, NaN => NaN
  | _, _ => if lt a b then b else a
  end.

Definition sub (a b : number) : number :=
  match a, b with
  | NaN, _ | _, NaN => NaN
  | Inf s, Inf s' => if Bool.eqb s s' then NaN else Inf s
  | Inf s, Fin _ _ => Inf s
  | Fin _ _, Inf s => Inf (negb s)
  | Fin m1 e1, Fin m2 e2 =>
      let '(x, y, e) := align m1 e1 m2 e2 in Fin (x - y) e
  end.

(** The array index a number denotes as a property key, if any. *)
Definition to_index (a : number) : option nat :=
  match a with
  | Fin m e =>
      if (0 <=? e)%Z then
        let v := (m * 10 ^ e)%Z in
        if (0 <=? v)%Z then Some (Z.to_nat v) else None
      else
        let d := (10 ^ (- e))%Z in
        if ((m mod d =? 0) && (0 <=? m))%Z then Some (Z.to_nat (m / d)) else None
  | _ => None
  end.

(** *** StringToNumber *)

(** StrWhiteSpaceChar, in UTF-8: the white space and line terminators of
    one byte, the no-break space of two, and those of three (U+1680,
    U+2000 to U+200A, U+2028, U+2029, U+202F, U+205F, U+3000, U+FEFF). *)
Definition is_ws1 (c : ascii) : bool :=
  let n := Char.code c in
  (((9 <=? n) && (n <=? 13)) || (n =? 32))%N.

Definition is_ws2 (a b : ascii) : bool :=
  ((Char.code a =? 194) && (Char.code b =? 160))%N.

Definition is_ws3 (a b c : ascii) : bool :=
  let x := Char.code a in
  let y := Char.code b in
  let z := Char.code c in
  (((x =? 225) && (y =? 154) && (z =? 128))
   || ((x =? 226) && (y =? 128)
       && (((128 <=? z) && (z <=? 138)) || (z =? 168) || (z =? 169) || (z =? 175)))
   || ((x =? 226) && (y =? 129) && (z =? 159))
   || ((x =? 227) && (y =? 128) && (z =? 128))
   || ((x =? 239) && (y =? 187) && (z =? 191)))%N.

(** Drop the leading white space; [two] and [three] say which characters
    of two and of three bytes are white space. *)
Fixpoint trim_with (two : ascii -> ascii -> bool)
         (three : ascii -> ascii -> ascii -> bool) (s : string) : string :=
  match s with
  | "" => ""
  | String a r =>
      if is_ws1 a then trim_with two three r
      else
        match r with
        | String b r2 =>
            if two a b then trim_with two three r2
            else
              match r2 with
              | String c r3 => if three a b c then trim_with two three r3 else s
              | "" => s
              end
        | "" => s
        end
  end.

Definition trim_start (s : string) : string := trim_with is_ws2 is_ws3 s.

(** The end is trimmed on the reversed string, where the bytes of a
    character come last byte first. *)
Definition trim (s : string) : string :=
  String.rev (trim_with (fun a b => is_ws2 b a) (fun a b c => is_ws3 c b a)
                        (String.rev (trim_start s))).

(** Value of a digit string in a radix, when every character is a digit
    of that radix. *)
Fixpoint radix_value (radix acc : N) (s : string) : option N :=
  match s with
  | "" => Some acc
  | String c r =>
      match Char.hex_val c with
      | Some d => if (d <? radix)%N then radix_value radix (radix * acc + d)%N r
                  else None
      | None => None
      end
  end.

Definition radix_literal (radix : N) (digits : string) : number :=
  match digits with
  | "" => NaN
  | _ => match radix_value radix 0 digits with
         | Some n => Fin (Z.of_N n) 0
         | None => NaN
         end
  end.

Definition exponent (s : string) : option Z :=
  match s with
  | "" => Some 0%Z
  | String c r =>
      if Ascii.eqb c "e" || Ascii.eqb c "E" then
        let '(neg, r1) :=
          match r with
          | String g r' =>
              if Ascii.eqb g "-" then (true, r')
              else if Ascii.eqb g "+" then (false, r')
              else (false, r)
          | "" => (false, r)
          end in
        match Parse.span_digits r1 with
        | ("", _) => None
        | (ds, "") =>
            let v := Z.of_N (digits_value 0 ds) in
            Some (if neg then (- v)%Z else v)
        | _ => None
        end
      else None
  end.

(** StrUnsignedDecimalLiteral *)
Definition unsigned_decimal (s : string) : option number :=
  if String.eqb s "Infinity" then Some (Inf false)
  else
    let '(int, r1) := Parse.span_digits s in
    let '(dot, (frac, r2)) :=
      match r1 with
      | String c r => if Ascii.eqb c "." then (true, Parse.span_digits r)
                      else (false, ("", r1))
      | "" => (false, ("", r1))
      end in
    if Stringify.is_empty int && Stringify.is_empty frac then None
    else
      match exponent r2 with
      | Some x =>
          Some (Fin (Z.of_N (digits_value 0 (int +:+ frac)))
                    (x - Z.of_nat (String.length frac)))
      | None => None
      end.

Definition negate (a : number) : number :=
  match a with
  | NaN => NaN
  | Inf s => Inf (negb s)
  | Fin m e => Fin (- m) e
  end.

Definition StringToNumber (s : string) : number :=
  match trim s with
  | "" => Fin 0 0
  | String c r as t =>
      match r with
      | String x digits =>
          if Ascii.eqb c "0" && (Ascii.eqb x "x" || Ascii.eqb x "X")
          then radix_literal 16 digits
          else if Ascii.eqb c "0" && (Ascii.eqb x "o" || Ascii.eqb x "O")
          then radix_literal 8 digits
          else if Ascii.eqb c "0" && (Ascii.eqb x "b" || Ascii.eqb x "B")
          then radix_literal 2 digits
          else if Ascii.eqb c "-" then from_option negate NaN (unsigned_decimal r)
          else if Ascii.eqb c "+" then default NaN (unsigned_decimal r)
          else default NaN (unsigned_decimal t)
      | "" => default NaN (unsigned_decimal t)
      end
  end.

End Num.

(** [entries[idx]]; [None] is [undefined]. *)
Definition array_get (items : list json) (idx : Num.number) : option json :=
  i ← Num.to_index idx; items !! i.

Definition show_nat (n : nat) : string := NilZero.string_of_uint (Nat.to_uint n).
Definition show_N (n : N) : string := NilZero.string_of_uint (N.to_uint n).

(** ** The world the program runs in *)

(** A file-system node.  A file may be unreadable to the process. *)
Inductive node : Type :=
| File (readable : bool) (content : string)
| Dir.

Inductive prompt_kind : Type := PInput | PSelect | PConfirm | PNumber.

(** What an observer of the terminal and the process table sees. *)
Inductive event : Type :=
| EPrompt (kind : prompt_kind) (message : string)
| ESpawn (cmd : string) (args : list string)
| ESpawnFailed (cmd : string) (args : list string)
| EExit (cmd : string) (args : list string) (code : Z).

Inductive exn : Type :=
| Error (message : string)
| TypeError (message : string)
| SyntaxError
| IoError (path : string)
| NotFound (cmd : string).

Record World : Type := {
  (** [Deno.env] and [Deno.build.os] *)
  w_env : gmap string string;
  w_windows : bool;
  w_fs : gmap string node;
  (** which commands can be started, and what a started command does to
      the file system and exits with *)
  w_installed : string -> bool;
  w_run : string -> list string -> gmap string node -> Z * gmap string node;
  (** what the user will answer, per kind of prompt; an empty text or
      [None] is the Enter key on the default *)
  w_inputs : list string;
  w_selects : list string;
  w_confirms : list bool;
  w_numbers : list (option Z);
  (** successive readings of the clock, and the runtime's ISO rendering *)
  w_clock : nat -> N;
  w_ticks : nat;
  w_iso : N -> string;
  w_trace : list event
}.

Definition set_fs (fs : gmap string node) (w : World) : World :=
  {| w_env := w_env w; w_windows := w_windows w; w_fs := fs;
     w_installed := w_installed w; w_run := w_run w;
     w_inputs := w_inputs w; w_selects := w_selects w;
     w_confirms := w_confirms w; w_numbers := w_numbers w;
     w_clock := w_clock w; w_ticks := w_ticks w; w_iso := w_iso w;
     w_trace := w_trace w |}.

Definition set_trace (t : list event) (w : World) : World :=
  {| w_env := w_env w; w_windows := w_windows w; w_fs := w_fs w;
     w_installed := w_installed w; w_run := w_run w;
     w_inputs := w_inputs w; w_selects := w_selects w;
     w_confirms := w_confirms w; w_numbers := w_numbers w;
     w_clock := w_clock w; w_ticks := w_ticks w; w_iso := w_iso w;
     w_trace := t |}.

Definition set_inputs (l : list string) (w : World) : World :=
  {| w_env := w_env w; w_windows := w_windows w; w_fs := w_fs w;
     w_installed := w_installed w; w_run := w_run w;
     w_inputs := l; w_selects := w_selects w;
     w_confirms := w_confirms w; w_numbers := w_numbers w;
     w_clock := w_clock w; w_ticks := w_ticks w; w_iso := w_iso w;
     w_trace := w_trace w |}.

Definition set_selects (l : list string) (w : World) : World :=
  {| w_env := w_env w; w_windows := w_windows w; w_fs := w_fs w;
     w_installed := w_installed w; w_run := w_run w;
     w_inputs := w_inputs w; w_selects := l;
     w_confirms := w_confirms w; w_numbers := w_numbers w;
     w_clock := w_clock w; w_ticks := w_ticks w; w_iso := w_iso w;
     w_trace := w_trace w |}.

Definition set_confirms (l : list bool) (w : World) : World :=
  {| w_env := w_env w; w_windows := w_windows w; w_fs := w_fs w;
     w_installed := w_installed w; w_run := w_run w;
     w_inputs := w_inputs w; w_selects := w_selects w;
     w_confirms := l; w_numbers := w_numbers w;
     w_clock := w_clock w; w_ticks := w_ticks w; w_iso := w_iso w;
     w_trace := w_trace w |}.

Definition set_numbers (l : list (option Z)) (w : World) : World :=
  {| w_env := w_env w; w_windows := w_windows w; w_fs := w_fs w;
     w_installed := w_installed w; w_run := w_run w;
     w_inputs := w_inputs w; w_selects := w_selects w;
     w_confirms := w_confirms w; w_numbers := l;
     w_clock := w_clock w; w_ticks := w_ticks w; w_iso := w_iso w;
     w_trace := w_trace w |}.

Definition set_ticks (n : nat) (w : World) : World :=
  {| w_env := w_env w; w_windows := w_windows w; w_fs := w_fs w;
     w_installed := w_installed w; w_run := w_run w;
     w_inputs := w_inputs w; w_selects := w_selects w;
     w_confirms := w_confirms w; w_numbers := w_numbers w;
     w_clock := w_clock w; w_ticks := n; w_iso := w_iso w;
     w_trace := w_trace w |}.

(** ** The monad: state over the world, exceptions, and waiting for input *)

Inductive outcome (A : Type) : Type :=
| Ok (a : A)
| Throw (e : exn)
| Blocked.
Arguments Ok {A} a.
Arguments Throw {A} e.
Arguments Blocked {A}.

Definition M (A : Type) : Type := World -> outcome A * World.

Definition ret {A} (a : A) : M A := fun w => (Ok a, w).
Definition throw {A} (e : exn) : M A := fun w => (Throw e, w).

Definition bind {A B} (m : M A) (k : A -> M B) : M B :=
  fun w =>
    match m w with
    | (Ok a, w') => k a w'
    | (Throw e, w') => (Throw e, w')
    | (Blocked, w') => (Blocked, w')
    end.

(** [try { m } catch (e) { h e }] *)
Definition try_catch {A} (m : M A) (h : exn -> M A) : M A :=
  fun w =>
    match m w with
    | (Throw e, w') => h e w'
    | r => r
    end.

Declare Scope io_scope.
Delimit Scope io_scope with io.
Notation "x ← y ; z" := (bind y (fun x => z))
  (at level 20, y at level 100, z at level 200, only parsing) : io_scope.
Notation "x ;; z" := (bind x (fun _ => z))
  (at level 100, z at level 200, only parsing, right associativity) : io_scope.
Local Open Scope io_scope.

Definition emit (e : event) : M unit :=
  fun w => (Ok tt, set_trace (w_trace w ++ [e])%list w).

(** *** File system ([Deno], std/fs) *)

(** The proper ancestors of a path: its prefixes that end before a slash. *)
Fixpoint ancestors_from (seen rest : string) : list string :=
  match rest with
  | "" => []
  | String c r =>
      if Ascii.eqb c "/"
      then (if Stringify.is_empty seen then [] else [seen])
             ++ ancestors_from (seen +:+ "/") r
      else ancestors_from (seen +:+ String c "") r
  end%list.

Definition ancestors (path : string) : list string := ancestors_from "" path.

Definition is_dir (fs : gmap string node) (path : string) : bool :=
  match fs !! path with Some Dir => true | _ => false end.

Definition is_file (fs : gmap string node) (path : string) : bool :=
  match fs !! path with Some (File _ _) => true | _ => false end.

(** Modelled from the spec: std/fs [exists] is not part of the sources.  It
    asks the file system for the node at the path: a node that is there
    gives true, a missing one false, and every other failure of the
    look-up is raised to the caller; in this file system that is a path
    that leads through a file.  The map holds the nodes that can be
    reached, so a node that is in it is found. *)
Definition exists_ (path : string) : M bool :=
  fun w =>
    match w_fs w !! path with
    | Some _ => (Ok true, w)
    | None =>
        if existsb (is_file (w_fs w)) (ancestors path)
        then (Throw (IoError path), w)
        else (Ok false, w)
    end.

Definition readTextFile (path : string) : M string :=
  fun w =>
    match w_fs w !! path with
    | Some (File true txt) => (Ok txt, w)
    | _ => (Throw (IoError path), w)
    end.

(** Creates or truncates the file; the directory that holds it must exist.
    An existing file keeps its permissions. *)
Definition writeTextFile (path txt : string) : M unit :=
  fun w =>
    if forallb (is_dir (w_fs w)) (ancestors path) then
      match w_fs w !! path with
      | Some Dir => (Throw (IoError path), w)
      | Some (File r _) => (Ok tt, set_fs (<[path := File r txt]> (w_fs w)) w)
      | None => (Ok tt, set_fs (<[path := File true txt]> (w_fs w)) w)
      end
    else (Throw (IoError path), w).

(** Modelled from the spec: std/fs [ensureDir] is not part of the sources;
    it leaves an existing directory alone, fails on a file, and otherwise
    creates the directory with its missing ancestors. *)
Definition ensureDir (path : string) : M unit :=
  fun w =>
    let chain := (ancestors path ++ [path])%list in
    if existsb (is_file (w_fs w)) chain then (Throw (IoError path), w)
    else (Ok tt, set_fs (foldr (fun d fs => <[d := Dir]> fs) (w_fs w) chain) w).

(** *** Processes ([Deno.Command]) *)

(** Start a child process. *)
Definition Command_spawn (cmd : string) (args : list string) : M unit :=
  fun w =>
    if w_installed w cmd then emit (ESpawn cmd args) w
    else (emit (ESpawnFailed cmd args) ;; throw (NotFound cmd)) w.

(** Wait for a started child and take its exit code; whatever the child
    did to the file system has happened by then. *)
Definition Command_status (cmd : string) (args : list string) : M Z :=
  fun w =>
    let '(code, fs) := w_run w cmd args (w_fs w) in
    (emit (EExit cmd args code) ;; ret code) (set_fs fs w).

(** *** Prompts (cliffy) and the clock *)

(** The next line the user types; the flow waits when there is none. *)
Definition next_input : M string :=
  fun w =>
    match w_inputs w with
    | [] => (Blocked, w)
    | a :: rest => (Ok a, set_inputs rest w)
    end.

(** Modelled from the spec: the prompt library is not part of the sources.
    A free-text prompt returns what was typed, or the default on an empty
    line. *)
Definition Input_prompt (message default : string) : M string :=
  emit (EPrompt PInput message) ;;
  a ← next_input;
  ret (if Stringify.is_empty a then default else a).

Definition next_select : M string :=
  fun w =>
    match w_selects w with
    | [] => (Blocked, w)
    | a :: rest => (Ok a, set_selects rest w)
    end.

(** Modelled from the spec: a single-choice prompt hands back the value of
    the chosen option; the model lets the answer be any string, as the
    caller's own check does. *)
Definition Select_prompt (message : string) (options : list (string * string))
  : M string :=
  emit (EPrompt PSelect message) ;; next_select.

Definition next_confirm : M bool :=
  fun w =>
    match w_confirms w with
    | [] => (Blocked, w)
    | a :: rest => (Ok a, set_confirms rest w)
    end.

(** Modelled from the spec: a yes/no prompt. *)
Definition Confirm_prompt (message : string) : M bool :=
  emit (EPrompt PConfirm message) ;; next_confirm.

(** Answers outside the bounds are refused and the user is asked again. *)
Fixpoint first_in_range (default min max : Z) (answers : list (option Z))
  : option (Z * list (option Z)) :=
  match answers with
  | [] => None
  | None :: rest => Some (default, rest)
  | Some n :: rest =>
      if ((min <=? n) && (n <=? max))%Z then Some (n, rest)
      else first_in_range default min max rest
  end.

Definition next_number (default min max : Z) : M Z :=
  fun w =>
    match first_in_range default min max (w_numbers w) with
    | None => (Blocked, set_numbers [] w)
    | Some (n, rest) => (Ok n, set_numbers rest w)
    end.

(** Modelled from the spec: a bounded integer prompt; it returns the
    first answer within its bounds. *)
Definition NumberPrompt_prompt (message : string) (default min max : Z) : M Z :=
  emit (EPrompt PNumber message) ;; next_number default min max.

Definition Date_now : M N :=
  fun w => (Ok (w_clock w (w_ticks w)), set_ticks (S (w_ticks w)) w).

(** [new Date().toISOString()] *)
Definition Date_toISOString : M string :=
  fun w => (t ← Date_now; ret (w_iso w t)) w.

Definition gets {A} (f : World -> A) : M A := fun w => (Ok (f w), w).

(** * main.ts *)

Inductive DeviceType : Type := pc | mobile.

Record HistoryEntry : Type := {
  id : string;
  url : string;
  device : DeviceType;
  createdAt : string;
  feedback : string;
  scriptPath : string;
  tracePath : string
}.

Definition device_name (d : DeviceType) : string :=
  match d with pc => "pc" | mobile => "mobile" end.

(** The object literal of a [HistoryEntry], properties in the order the
    source writes them. *)
Definition entry_members (e : HistoryEntry) : list (string * json) :=
  [("id", JStr (id e));
   ("url", JStr (url e));
   ("device", JStr (device_name (device e)));
   ("createdAt", JStr (createdAt e));
   ("feedback", JStr (feedback e));
   ("scriptPath", JStr (scriptPath e));
   ("tracePath", JStr (tracePath e))].

Definition entry_json (e : HistoryEntry) : json := JObj (entry_members e).

Definition TESTS_DIR : string := "tests".
Definition SESSIONS_DIR : string := TESTS_DIR +:+ "/sessions".
Definition HISTORY_PATH : string := TESTS_DIR +:+ "/history.json".

Definition isWindows (w : World) : bool := w_windows w.

Definition defaultNPX (w : World) : string :=
  default (if isWindows w then "npx.cmd" else "npx") (w_env w !! "NPX_BIN").

Definition defaultPlaywright (w : World) : string :=
  default (if isWindows w then "playwright.cmd" else "playwright")
          (w_env w !! "PLAYWRIGHT_BIN").

Definition defaultNode (w : World) : string :=
  default (if isWindows w then "node.exe" else "node") (w_env w !! "NODE_BIN").

(** ** Small utilities *)

(** A call of the async function [run] executes up to its first [await]:
    the child is started, then the caller holds a promise.  A failure to
    start rejects the promise. *)
Inductive promise : Type :=
| Pending (cmd : string) (args : list string)
| Rejected (e : exn).

Definition run_start (cmd : string) (args : list string) : M promise :=
  try_catch (Command_spawn cmd args ;; ret (Pending cmd args))
            (fun e => ret (Rejected e)).

Definition run_await (p : promise) : M unit :=
  match p with
  | Rejected e => throw e
  | Pending cmd args =>
      code ← Command_status cmd args;
      if (code =? 0)%Z then ret tt
      else throw (Error ("Command failed: " +:+ cmd +:+ " " +:+ String.concat " " args))
  end.

(** [await run(cmd, args)] *)
Definition run (cmd : string) (args : list string) : M unit :=
  p ← run_start cmd args; run_await p.

Definition whichOk (cmd : string) : M bool :=
  try_catch (Command_spawn cmd ["--version"] ;;
             code ← Command_status cmd ["--version"];
             ret (code =? 0)%Z)
            (fun _ => ret false).

(** ** Binary resolver *)

Inductive pw_mode : Type := mode_global | mode_npx.

Record PwInvoker : Type := {
  mode : pw_mode;
  cmd : string;
  wrap : list string -> list string
}.

Definition tryGlobal : M (option PwInvoker) :=
  bin ← gets defaultPlaywright;
  ok ← whichOk bin;
  if ok then ret (Some {| mode := mode_global; cmd := bin; wrap := fun a => a |})
  else ret None.

Definition tryNpx : M (option PwInvoker) :=
  bin ← gets defaultNPX;
  ok ← whichOk bin;
  if ok then ret (Some {| mode := mode_npx; cmd := bin;
                          wrap := fun a => "playwright" :: a |})
  else ret None.

Definition err_global_missing : string :=
  "PLAYWRIGHT_MODE=global but `playwright` not found. Install it or set PLAYWRIGHT_BIN.".
Definition err_npx_missing : string :=
  "PLAYWRIGHT_MODE=npx but `npx` not found on PATH.".
Definition err_none_found : string :=
  "Could not find Playwright (global) or npx. Install Node+npx or set env vars.".

Definition is_mode (name : string) (m : option string) : bool :=
  match m with Some v => String.eqb v name | None => false end.

Definition resolvePlaywright : M PwInvoker :=
  m ← gets (fun w => w_env w !! "PLAYWRIGHT_MODE");
  if is_mode "global" m then
    g ← tryGlobal;
    match g with
    | None => throw (Error err_global_missing)
    | Some g => ret g
    end
  else if is_mode "npx" m then
    n ← tryNpx;
    match n with
    | None => throw (Error err_npx_missing)
    | Some n => ret n
    end
  else
    (* auto-detect: prefer global, fall back to npx *)
    g ← tryGlobal;
    match g with
    | Some g => ret g
    | None =>
        n ← tryNpx;
        match n with
        | Some n => ret n
        | None => throw (Error err_none_found)
        end
    end.

(** ** Session store *)

Definition JSON_parse_m (txt : string) : M json :=
  match JSON_parse txt with
  | Some v => ret v
  | None => throw SyntaxError
  end.

Definition loadHistory : M (list json) :=
  present ← exists_ HISTORY_PATH;
  if negb present then ret (@nil json)
  else
    try_catch
      (txt ← readTextFile HISTORY_PATH;
       data ← JSON_parse_m txt;
       ret (match data with JArr items => items | _ => [] end))
      (fun _ => ret []).

Definition saveHistory (entries : list json) : M unit :=
  ensureDir TESTS_DIR ;;
  writeTextFile HISTORY_PATH (JSON_stringify2 (JArr entries)).

Definition newId : M string :=
  t ← Date_now; ret (show_N t).

Definition isDeviceType (x : string) : bool :=
  String.eqb x "pc" || String.eqb x "mobile".

(** The value of a string that passed [isDeviceType], at its narrowed type. *)
Definition as_device (x : string) : DeviceType :=
  if String.eqb x "mobile" then mobile else pc.

Definition devicePreset (d : DeviceType) : string :=
  match d with mobile => "iPhone 13" | pc => "Desktop Chrome" end.

(** ** Record *)

(** The helper program written next to the session, after [trimStart]. *)
Definition tracegen_js (preset url tracePath : string) : string :=
  "const { chromium, devices } = require('playwright');" +:+ nl +:+
  "      (async () => {" +:+ nl +:+
  "        const preset = " +:+ Stringify.quote preset +:+ ";" +:+ nl +:+
  "        const url = " +:+ Stringify.quote url +:+ ";" +:+ nl +:+
  "        const dev = devices[preset];" +:+ nl +:+
  "        const browser = await chromium.launch({ headless: false });" +:+ nl +:+
  "        const context = await browser.newContext(dev ? { ...dev } : {});" +:+ nl +:+
  "        await context.tracing.start({ screenshots: true, snapshots: true, sources: true });" +:+ nl +:+
  "        const page = await context.newPage();" +:+ nl +:+
  "        await page.goto(url, { waitUntil: 'domcontentloaded' });" +:+ nl +:+
  "        await page.waitForTimeout(12000);" +:+ nl +:+
  "        await context.tracing.stop({ path: " +:+ Stringify.quote tracePath +:+ " });" +:+ nl +:+
  "        await browser.close();" +:+ nl +:+
  "      })().catch(e => { console.error(e); process.exit(1); });" +:+ nl +:+
  "      ".

(** Load the full history, push, save the full history. *)
Definition appendEntry (entry : HistoryEntry) : M unit :=
  history ← loadHistory;
  saveHistory (history ++ [entry_json entry])%list.

Definition recordNewTest : M unit :=
  pw ← resolvePlaywright;
  url ← Input_prompt "Enter target URL" "https://example.com";
  rawDevice ← Select_prompt "Select device type" [("pc", "pc"); ("mobile", "mobile")];
  if negb (isDeviceType rawDevice)
  then throw (Error ("Invalid device selection: " +:+ rawDevice))
  else
    let device := as_device rawDevice in
    id ← newId;
    let sessionDir := SESSIONS_DIR +:+ "/" +:+ id in
    ensureDir sessionDir ;;
    let scriptPath := sessionDir +:+ "/script.spec.ts" in
    let tracePath := sessionDir +:+ "/trace.zip" in
    let preset := devicePreset device in
    run (cmd pw) (wrap pw ["codegen"; url; "--output"; scriptPath; "--device"; preset]) ;;
    gen ← Confirm_prompt "Generate a short GUI trace for replay now?";
    (if gen then
       let traceGenJs := sessionDir +:+ "/tracegen.js" in
       writeTextFile traceGenJs (tracegen_js preset url tracePath) ;;
       node ← gets defaultNode;
       run node [traceGenJs]
     else ret tt) ;;
    feedback ← Input_prompt "Feedback/notes (optional)" "";
    createdAt ← Date_toISOString;
    let entry := {| id := id; url := url; device := device; createdAt := createdAt;
                    feedback := feedback; scriptPath := scriptPath;
                    tracePath := tracePath |} in
    appendEntry entry ;;
    _ ← exists_ tracePath;
    ret tt.

(** ** Replay *)

(** [v.key] for the property names the program reads ([id], [url],
    [device], [createdAt], [tracePath]): reading from [undefined] or
    [null] throws, a primitive or an array has no such property. *)
Definition get_property (v : option json) (key : string) : M (option json) :=
  match v with
  | None => throw (TypeError "Cannot read properties of undefined")
  | Some JNull => throw (TypeError "Cannot read properties of null")
  | Some (JObj ms) => ret (assoc_get key ms)
  | Some _ => ret None
  end.

(** [exists(p)] on a JavaScript value: only a string is a path. *)
Definition exists_value (p : option json) : M bool :=
  match p with
  | Some (JStr path) => exists_ path
  | _ => throw (TypeError "path must be a string")
  end.

Definition path_text (p : option json) : string :=
  match p with Some (JStr path) => path | _ => "" end.

(** [for (let i = 0; i < n; i++) jobs.push(run(cmd, args))] *)
Fixpoint start_jobs (n : nat) (cmd : string) (args : list string)
         (jobs : list promise) : M (list promise) :=
  match n with
  | O => ret jobs
  | S n' => p ← run_start cmd args; start_jobs n' cmd args (jobs ++ [p])%list
  end.

(** [await Promise.all(jobs)]; completion order is taken to be start order. *)
Fixpoint Promise_all (jobs : list promise) : M unit :=
  match jobs with
  | [] => ret tt
  | p :: ps => run_await p ;; Promise_all ps
  end.

Definition pick_index (count : nat) (pickStr : string) : Num.number :=
  Num.sub (Num.Math_max (Num.of_Z 1)
             (Num.Math_min (Num.of_nat count) (Num.StringToNumber pickStr)))
          (Num.of_Z 1).

(** [`${v}`] for a value read from the history.  Only whether the
    conversion succeeds is modelled; the text goes to the console.  A
    parsed object owns no function, so one that owns a [toString] property
    hides [Object.prototype.toString] behind a value that cannot be called
    and has no primitive value: the conversion throws.  An array joins
    the conversions of its elements. *)
Fixpoint displayable (v : json) : bool :=
  match v with
  | JObj ms => negb (bool_decide (is_Some (assoc_get "toString" ms)))
  | JArr items => forallb displayable items
  | _ => true
  end.

Definition display (v : option json) : M unit :=
  match v with
  | Some v =>
      if displayable v then ret tt
      else throw (TypeError "Cannot convert object to primitive value")
  | None => ret tt
  end.

(** The line of one entry in the listing:
    [`${i + 1}. [${e.id}] ${e.url} | device=${e.device} | createdAt=${e.createdAt}`] *)
Definition list_entry (e : json) : M unit :=
  v ← get_property (Some e) "id"; display v ;;
  v ← get_property (Some e) "url"; display v ;;
  v ← get_property (Some e) "device"; display v ;;
  v ← get_property (Some e) "createdAt"; display v.

(** [entries.forEach((e, i) => console.log(...))] *)
Fixpoint list_entries (entries : list json) : M unit :=
  match entries with
  | [] => ret tt
  | e :: es => list_entry e ;; list_entries es
  end.

Definition replayTest : M unit :=
  pw ← resolvePlaywright;
  entries ← loadHistory;
  match entries with
  | [] => ret tt
  | _ =>
      list_entries entries ;;
      let count := show_nat (length entries) in
      pickStr ← Input_prompt ("Pick a session (1-" +:+ count +:+ ")") count;
      let idx := pick_index (length entries) pickStr in
      let chosen := array_get entries idx in
      tracePath ← get_property chosen "tracePath";
      present ← exists_value tracePath;
      if negb present then ret tt
      else
        n ← NumberPrompt_prompt "How many trace viewers to open?" 1 1 10;
        jobs ← start_jobs (Z.to_nat n) (cmd pw)
                 (wrap pw ["show-trace"; path_text tracePath]) [];
        Promise_all jobs
  end.

(** ** Menu *)

Definition menu_options : list (string * string) :=
  [("1. Record new test", "record"); ("2. Replay a test", "replay"); ("3. Exit", "exit")].

(** [try { await flow() } catch (e) { console.error(...) }]: whatever the
    flow throws is reported on the console and dropped. *)
Definition contained (flow : M unit) : M unit :=
  try_catch flow (fun _ => ret tt).

(** [while (true) { ... }].  Every turn takes one answer of the user at the
    menu prompt, so a loop with more turns than there are answers left
    ends at a prompt, waiting: [fuel] counts turns, and [mainMenu] gives
    one more than the answers it starts with. *)
Fixpoint menu_loop (fuel : nat) : M unit :=
  match fuel with
  | O => fun w => (Blocked, w)
  | S fuel' =>
      choice ← Select_prompt "GUI Test Recorder CLI (PoC)" menu_options;
      if String.eqb choice "record" then contained recordNewTest ;; menu_loop fuel'
      else if String.eqb choice "replay" then contained replayTest ;; menu_loop fuel'
      else ret tt
  end.

(** What [mainMenu] does before it enters the loop. *)
Definition menu_startup : M unit :=
  ensureDir SESSIONS_DIR ;;
  present ← exists_ HISTORY_PATH;
  if negb present then saveHistory [] else ret tt.

Definition mainMenu : M unit :=
  menu_startup ;;
  fun w => menu_loop (S (length (w_selects w))) w.

(** * Sample worlds *)

Module Sample.

Definition quiet_run (cmd : string) (args : list string) (fs : gmap string node)
  : Z * gmap string node := (0%Z, fs).

Definition world (env : gmap string string) (installed : string -> bool)
           (fs : gmap string node)
           (inputs selects : list string) (confirms : list bool)
           (numbers : list (option Z)) : World :=
  {| w_env := env; w_windows := false; w_fs := fs;
     w_installed := installed; w_run := quiet_run;
     w_inputs := inputs; w_selects := selects;
     w_confirms := confirms; w_numbers := numbers;
     w_clock := fun k => (N.of_nat k + 1753927438951)%N; w_ticks := 0;
     w_iso := fun _ => "2025-07-31T02:03:58.951Z";
     w_trace := [] |}.

Definition has_playwright (cmd : string) : bool :=
  String.eqb cmd "playwright" || String.eqb cmd "node".

Definition has_npx (cmd : string) : bool := String.eqb cmd "npx".

Definition nothing (cmd : string) : bool := false.

Definition entry1 : HistoryEntry :=
  {| id := "1753927438951"; url := "https://example.com"; device := pc;
     createdAt := "2025-07-31T02:03:58.952Z"; feedback := "";
     scriptPath := "tests/sessions/1753927438951/script.spec.ts";
     tracePath := "tests/sessions/1753927438951/trace.zip" |}.

Definition entry2 : HistoryEntry :=
  {| id := "1753927500000"; url := "http://localhost:8080/a?b=c"; device := mobile;
     createdAt := "2025-07-31T02:05:00.000Z"; feedback := "second \ run";
     scriptPath := "tests/sessions/1753927500000/script.spec.ts";
     tracePath := "tests/sessions/1753927500000/trace.zip" |}.

(** A store holding [entry1] and its trace artifact. *)
Definition recorded_fs : gmap string node :=
  {[ TESTS_DIR := Dir;
     HISTORY_PATH := File true (JSON_stringify2 (JArr [entry_json entry1]));
     tracePath entry1 := File true "PK" ]}.

(** Child processes of which the recorder's turns the first session
    directory into a file. *)
Definition meddling_run (cmd : string) (args : list string) (fs : gmap string node)
  : Z * gmap string node :=
  if existsb (String.eqb "codegen") args
  then (0%Z, <["tests/sessions/1753927438951" := File true ""]> fs)
  else (0%Z, fs).

Definition meddled (inputs selects : list string) (confirms : list bool) : World :=
  {| w_env := ∅; w_windows := false; w_fs := ∅;
     w_installed := has_playwright; w_run := meddling_run;
     w_inputs := inputs; w_selects := selects;
     w_confirms := confirms; w_numbers := [];
     w_clock := fun k => (N.of_nat k + 1753927438951)%N; w_ticks := 0;
     w_iso := fun _ => "2025-07-31T02:03:58.951Z";
     w_trace := [] |}.

Definition global_invoker : PwInvoker :=
  {| mode := mode_global; cmd := "playwright"; wrap := fun a => a |}.

End Sample.

(** * Vocabulary of the properties *)

(** The store can be written and read back: [tests] is not a file, and the
    history file is absent or a readable file. *)
Definition store_usable (fs : gmap string node) : Prop :=
  is_file fs TESTS_DIR = false /\
  match fs !! HISTORY_PATH with
  | None => True
  | Some (File r _) => r = true
  | Some Dir => False
  end.

(** A node whose text cannot be read. *)
Definition unreadable (n : node) : Prop :=
  match n with File r _ => r = false | Dir => True end.

Definition version_args : list string := ["--version"].

(** The probe of [cmd] succeeds in [w]. *)
Definition probe_ok (w : World) (cmd : string) : bool :=
  w_installed w cmd && (fst (w_run w cmd version_args (w_fs w)) =? 0)%Z.

(** What the probe of [cmd] adds to the trace. *)
Definition probe_events (w : World) (cmd : string) : list event :=
  if w_installed w cmd
  then [ESpawn cmd version_args;
        EExit cmd version_args (fst (w_run w cmd version_args (w_fs w)))]
  else [ESpawnFailed cmd version_args].

(** The world after the probe of [cmd]. *)
Definition after_probe (w : World) (cmd : string) : World :=
  set_trace (w_trace w ++ probe_events w cmd)%list
    (if w_installed w cmd
     then set_fs (snd (w_run w cmd version_args (w_fs w))) w
     else w).

Definition is_prompt (e : event) : bool :=
  match e with EPrompt _ _ => true | _ => false end.

Definition is_spawn (e : event) : bool :=
  match e with ESpawn _ _ => true | _ => false end.

(** The prompts shown, and the processes started, in a trace. *)
Definition prompts (t : list event) : list event := List.filter is_prompt t.
Definition spawned (t : list event) : list event := List.filter is_spawn t.

Definition is_exit_of (cmd : string) (args : list string) (e : event) : Prop :=
  exists code, e = EExit cmd args code.

(** The entry can be shown in the listing of the replay flow: it is not
    [null], and the four properties the listing prints convert to text. *)
Definition listable (e : json) : bool :=
  match e with
  | JNull => false
  | JObj ms =>
      forallb (fun key => from_option displayable true (assoc_get key ms))
              ["id"; "url"; "device"; "createdAt"]
  | _ => true
  end.

(** The computation [m] relates every world it starts in to the world it
    leaves, by [R]. *)
Definition keeps {A} (R : World -> World -> Prop) (m : M A) : Prop :=
  forall w, R w (snd (m w)).

(** From [w] to [w'] nothing changed but the file system and the trace:
    configuration, clock and the answers still to come are the same. *)
Definition only_fs_and_trace (w w' : World) : Prop :=
  w' = set_trace (w_trace w') (set_fs (w_fs w') w).

(** From [w] to [w'] no prompt was shown and no answer was taken; the trace
    only grew. *)
Definition unattended (w w' : World) : Prop :=
  only_fs_and_trace w w' /\
  w_trace w `prefix_of` w_trace w' /\
  prompts (w_trace w') = prompts (w_trace w).

(** How a world may evolve at all: configuration and clock function stay,
    answers are only consumed, the clock is only read on, and the trace
    only grows. *)
Record evolves (w w' : World) : Prop := {
  ev_env : w_env w' = w_env w;
  ev_windows : w_windows w' = w_windows w;
  ev_installed : w_installed w' = w_installed w;
  ev_run : w_run w' = w_run w;
  ev_clock : w_clock w' = w_clock w;
  ev_iso : w_iso w' = w_iso w;
  ev_inputs : w_inputs w' `suffix_of` w_inputs w;
  ev_selects : w_selects w' `suffix_of` w_selects w;
  ev_confirms : w_confirms w' `suffix_of` w_confirms w;
  ev_numbers : w_numbers w' `suffix_of` w_numbers w;
  ev_ticks : w_ticks w <= w_ticks w';
  ev_trace : w_trace w `prefix_of` w_trace w'
}.

(** The child processes of [w] leave the node at the path [p] alone. *)
Definition spares (p : string) (w : World) : Prop :=
  forall cmd args fs, snd (w_run w cmd args fs) !! p = fs !! p.

(** From [w] to [w'] the node at [p] stayed as it was, as long as the child
    processes leave it alone. *)
Definition kept_at (p : string) (w w' : World) : Prop :=
  spares p w -> w_run w' = w_run w /\ w_fs w' !! p = w_fs w !! p.

(** Around every run of [m], either [R] relates the worlds, or the run ends
    as [E] says. *)
Definition keeps_or {A} (R : World -> World -> Prop)
           (E : outcome A -> World -> Prop) (m : M A) : Prop :=
  forall w, R w (snd (m w)) \/ E (fst (m w)) (snd (m w)).

(** The outcome [o] is the failure of the closing look-up of a trace file,
    in a world whose history file holds a freshly appended entry. *)
Definition saved_unreported (o : outcome unit) (w' : World) : Prop :=
  (exists session, o = Throw (IoError (session +:+ "/trace.zip"))) /\
  exists prior e r,
    w_fs w' !! HISTORY_PATH =
      Some (File r (JSON_stringify2 (JArr (prior ++ [entry_json e])%list))).

(** From [w] to [w'] the answers to the free-text and choice prompts and
    the clock are as they were. *)
Definition steady (w w' : World) : Prop :=
  w_inputs w' = w_inputs w /\ w_selects w' = w_selects w /\
  w_ticks w' = w_ticks w /\ w_clock w' = w_clock w /\ w_iso w' = w_iso w.

(** From [w] to [w'] no process was started, no yes/no answer was taken,
    and the configuration is as it was. *)
Definition calm (w w' : World) : Prop :=
  spawned (w_trace w') = spawned (w_trace w) /\ w_confirms w' = w_confirms w /\
  w_env w' = w_env w /\ w_windows w' = w_windows w.

(** * Properties *)

(** ** Facts about strings *)

Section StringFacts.

Lemma sapp_assoc (a b c : string) : (a +:+ b) +:+ c = a +:+ (b +:+ c).
Proof. induction a as [|x a IH]; simpl; [reflexivity | now rewrite IH]. Qed.

Lemma sapp_nil_r (a : string) : a +:+ "" = a.
Proof. induction a as [|x a IH]; simpl; [reflexivity | now rewrite IH]. Qed.

Lemma length_sapp (a b : string) :
  String.length (a +:+ b) = String.length a + String.length b.
Proof. induction a as [|x a IH]; simpl; [reflexivity | now rewrite IH]. Qed.

End StringFacts.

(** ** Reading back what [JSON.stringify] wrote *)

Module RoundTrip.

Import Stringify Parse Printable.

Local Close Scope io_scope.

Lemma blank_app a b : blank a = true -> blank b = true -> blank (a +:+ b) = true.
Proof.
  induction a as [|x a IH]; simpl; [auto|].
  intros [-> Ha]%andb_true_iff Hb. simpl. auto.
Qed.

Lemma skip_ws_blank pre s : blank pre = true -> skip_ws (pre +:+ s) = skip_ws s.
Proof.
  induction pre as [|x pre IH]; simpl; [reflexivity|].
  intros [-> Hp]%andb_true_iff. auto.
Qed.

Lemma value_blank f pre s : blank pre = true -> value f (pre +:+ s) = value f s.
Proof. intros Hp. destruct f; simpl; [reflexivity|]. now rewrite skip_ws_blank. Qed.

Ltac divmod := zify; Z.to_euclidean_division_equations; lia.

(** The escape of one character reads back as that character. *)
Lemma chars_escape_char c rest :
  chars (escape_char c +:+ rest) = cons_char c (chars rest).
Proof. destruct c as [[] [] [] [] [] [] [] []]; reflexivity. Qed.

Lemma hex_val_digit d : (d < 16)%N -> Char.hex_val (Char.hex_digit d) = Some d.
Proof.
  intros H. destruct d as [|p]; [reflexivity|].
  do 5 (try destruct p as [p|p|]); try reflexivity; lia.
Qed.

Lemma hex4_digits u :
  (u < 65536)%N ->
  hex4 (Char.hex_digit (u / 4096)) (Char.hex_digit ((u / 256) mod 16))
       (Char.hex_digit ((u / 16) mod 16)) (Char.hex_digit (u mod 16)) = Some u.
Proof.
  intros H. unfold hex4.
  rewrite !hex_val_digit by divmod. f_equal. divmod.
Qed.

Lemma code_range c : (Char.code c < 256)%N.
Proof. apply N_ascii_bounded. Qed.

Lemma surrogate_inv c b1 b2 :
  Utf8.surrogate c b1 b2 = true ->
  c = "237"%char /\ (160 <= Char.code b1 <= 191)%N /\ (128 <= Char.code b2 <= 191)%N.
Proof.
  unfold Utf8.surrogate. rewrite !andb_true_iff, N.eqb_eq, !N.leb_le.
  intros ((((Hc & ?) & ?) & ?) & ?). split; [|lia].
  rewrite <- (ascii_N_embedding c). unfold Char.code in Hc. now rewrite Hc.
Qed.

Lemma unit_range c b1 b2 :
  Utf8.surrogate c b1 b2 = true -> (55296 <= Utf8.unit b1 b2 < 57344)%N.
Proof. intros (_ & H1 & H2)%surrogate_inv. unfold Utf8.unit. lia. Qed.

Lemma encode_unit c b1 b2 :
  Utf8.surrogate c b1 b2 = true ->
  Utf8.encode (Utf8.unit b1 b2) = String c (String b1 (String b2 "")).
Proof.
  intros H. pose proof (unit_range _ _ _ H) as Hu.
  apply surrogate_inv in H as (-> & H1 & H2).
  unfold Utf8.encode.
  destruct (N.ltb_spec (Utf8.unit b1 b2) 128); [lia|].
  destruct (N.ltb_spec (Utf8.unit b1 b2) 2048); [lia|].
  destruct (N.ltb_spec (Utf8.unit b1 b2) 65536); [|lia].
  unfold Utf8.unit in *.
  replace (224 + (53248 + (Char.code b1 - 128) * 64 + (Char.code b2 - 128)) / 4096)%N
    with 237%N by divmod.
  replace (128 + ((53248 + (Char.code b1 - 128) * 64 + (Char.code b2 - 128)) / 64) mod 64)%N
    with (Char.code b1) by divmod.
  replace (128 + (53248 + (Char.code b1 - 128) * 64 + (Char.code b2 - 128)) mod 64)%N
    with (Char.code b2) by divmod.
  unfold Char.code. now rewrite !ascii_N_embedding.
Qed.

Lemma chars_u h1 h2 h3 h4 n r2 :
  hex4 h1 h2 h3 h4 = Some n ->
  chars (String Char.backslash (String "u" (String h1 (String h2 (String h3 (String h4 r2))))))
  = if Utf8.is_high n then
      match low_escape r2 with
      | Some (m, r3) => cons_str (Utf8.encode (Utf8.pair n m)) (chars r3)
      | None => cons_str (Utf8.encode n) (chars r2)
      end
    else cons_str (Utf8.encode n) (chars r2).
Proof.
  intros H. cbn [chars].
  change (Ascii.eqb Char.backslash Char.dquote) with false.
  change (Ascii.eqb Char.backslash Char.backslash) with true.
  change (simple_escape "u") with (@None ascii).
  change (Ascii.eqb "u" "u") with true. cbv iota. rewrite H.
  destruct (Utf8.is_high n); [|reflexivity].
  destruct r2 as [|b t1]; [reflexivity|]. cbn [low_escape].
  destruct (Ascii.eqb b Char.backslash); [|reflexivity].
  destruct t1 as [|u t2]; [reflexivity|].
  destruct (Ascii.eqb u "u"); [|reflexivity].
  destruct t2 as [|l1 [|l2 [|l3 [|l4 r3]]]]; try reflexivity.
  destruct (hex4 l1 l2 l3 l4) as [m|]; [|reflexivity].
  destruct (Utf8.is_low m); reflexivity.
Qed.

Lemma unicode_escape_text u t :
  unicode_escape u +:+ t =
  String Char.backslash
    (String "u" (String (Char.hex_digit (u / 4096))
       (String (Char.hex_digit ((u / 256) mod 16))
          (String (Char.hex_digit ((u / 16) mod 16))
             (String (Char.hex_digit (u mod 16)) t))))).
Proof. reflexivity. Qed.

Lemma low_escape_escape_char d t : low_escape (escape_char d +:+ t) = None.
Proof. destruct d as [[] [] [] [] [] [] [] []]; reflexivity. Qed.

Lemma low_escape_unicode u t :
  (u < 65536)%N -> Utf8.is_low u = false -> low_escape (unicode_escape u +:+ t) = None.
Proof.
  intros Hu Hl. rewrite unicode_escape_text. cbn [low_escape].
  change (Ascii.eqb Char.backslash Char.backslash) with true.
  change (Ascii.eqb "u" "u") with true. cbv iota.
  now rewrite (hex4_digits u Hu), Hl.
Qed.

Lemma high_or_low c b1 b2 :
  Utf8.surrogate c b1 b2 = true ->
  Utf8.is_high (Utf8.unit b1 b2) = negb (Utf8.is_low (Utf8.unit b1 b2)).
Proof.
  intros H%unit_range. unfold Utf8.is_high, Utf8.is_low.
  destruct (N.leb_spec 55296 (Utf8.unit b1 b2)), (N.ltb_spec (Utf8.unit b1 b2) 56320),
    (N.leb_spec 56320 (Utf8.unit b1 b2)), (N.ltb_spec (Utf8.unit b1 b2) 57344);
    try reflexivity; lia.
Qed.

(** What follows a surrogate that had to be escaped does not read as the
    escape of a low surrogate. *)
Lemma escape_head r3 rest :
  Utf8.starts_low r3 = false ->
  low_escape (escape r3 +:+ String Char.dquote rest) = None.
Proof.
  intros Hlow. destruct r3 as [|d r']; [reflexivity|].
  assert (Hplain : low_escape ((escape_char d +:+ escape r') +:+ String Char.dquote rest)
                   = None).
  { rewrite sapp_assoc. apply low_escape_escape_char. }
  destruct r' as [|b1 [|b2 r3']]; try exact Hplain.
  cbn [escape].
  destruct (Utf8.surrogate d b1 b2) eqn:Hs; [|exact Hplain].
  cbn [Utf8.starts_low] in Hlow. rewrite Hs in Hlow. cbn [andb] in Hlow.
  assert (Hesc : low_escape ((unicode_escape (Utf8.unit b1 b2) +:+ escape r3')
                             +:+ String Char.dquote rest) = None).
  { rewrite sapp_assoc. apply low_escape_unicode; [|exact Hlow].
    pose proof (unit_range _ _ _ Hs). lia. }
  destruct r3' as [|e [|e1 [|e2 r6]]]; try exact Hesc.
  destruct (Utf8.is_high (Utf8.unit b1 b2) && Utf8.starts_low _); [|exact Hesc].
  apply surrogate_inv in Hs as (-> & _). reflexivity.
Qed.

Lemma chars_raw c t :
  (128 <= Char.code c)%N -> chars (String c t) = cons_char c (chars t).
Proof.
  intros H.
  destruct c as [[] [] [] [] [] [] [] []]; try reflexivity; cbv in H; contradiction.
Qed.

Lemma starts_low_inv d d1 d2 r6 :
  Utf8.starts_low (String d (String d1 (String d2 r6))) = true ->
  Utf8.surrogate d d1 d2 = true.
Proof. cbn [Utf8.starts_low]. now intros [? _]%andb_true_iff. Qed.

Lemma chars_escape_bounded n : forall s rest,
  String.length s <= n ->
  chars (escape s +:+ String Char.dquote rest) = Some (s, rest).
Proof.
  induction n as [|n IH]; intros [|c r] rest Hn; try reflexivity;
    cbn [String.length] in Hn; [lia|].
  assert (Hplain : chars ((escape_char c +:+ escape r) +:+ String Char.dquote rest)
                   = Some (String c r, rest)).
  { rewrite sapp_assoc, chars_escape_char, IH by lia. reflexivity. }
  destruct r as [|b1 [|b2 r3]]; try exact Hplain.
  cbn [escape]. destruct (Utf8.surrogate c b1 b2) eqn:Hs; [|exact Hplain].
  cbn [String.length] in Hn.
  assert (Hesc : Utf8.is_high (Utf8.unit b1 b2) && Utf8.starts_low r3 = false ->
                 chars ((unicode_escape (Utf8.unit b1 b2) +:+ escape r3)
                        +:+ String Char.dquote rest)
                 = Some (String c (String b1 (String b2 r3)), rest)).
  { intros Hlone. rewrite sapp_assoc, unicode_escape_text.
    pose proof (unit_range _ _ _ Hs) as Hu.
    assert (Hh := hex4_digits (Utf8.unit b1 b2) ltac:(lia)).
    rewrite (chars_u _ _ _ _ _ _ Hh).
    assert (Hread : cons_str (Utf8.encode (Utf8.unit b1 b2))
                      (chars (escape r3 +:+ String Char.dquote rest))
                    = Some (String c (String b1 (String b2 r3)), rest)).
    { rewrite IH by lia. cbn [cons_str]. now rewrite (encode_unit _ _ _ Hs). }
    destruct (Utf8.is_high (Utf8.unit b1 b2)); [|exact Hread].
    cbn [andb] in Hlone. now rewrite (escape_head _ _ Hlone). }
  destruct r3 as [|d [|d1 [|d2 r6]]];
    try (apply Hesc; now rewrite andb_false_r).
  destruct (Utf8.is_high (Utf8.unit b1 b2) && Utf8.starts_low _) eqn:Hpair;
    [|now apply Hesc].
  apply andb_true_iff in Hpair as [_ Hl]. apply starts_low_inv in Hl.
  apply surrogate_inv in Hs as (-> & H1 & H2).
  apply surrogate_inv in Hl as (-> & H3 & H4).
  cbn [String.append String.length] in *.
  rewrite (chars_raw "237"), (chars_raw b1), (chars_raw b2),
    (chars_raw "237"), (chars_raw d1), (chars_raw d2)
    by first [lia | cbv; discriminate].
  rewrite IH by lia. reflexivity.
Qed.

Lemma chars_escape s rest :
  chars (escape s +:+ String Char.dquote rest) = Some (s, rest).
Proof. apply (chars_escape_bounded (String.length s)). lia. Qed.

Lemma chars_quote s rest :
  chars (escape s +:+ String Char.dquote "" +:+ rest) = Some (s, rest).
Proof. apply chars_escape. Qed.

(** First character of the text of a value. *)
Lemma serialize_head indent v :
  printable v = true ->
  exists c r, serialize "  " indent v = String c r
              /\ is_ws c = false
              /\ Ascii.eqb "]" c = false /\ Ascii.eqb "}" c = false.
Proof.
  destruct v as [|[]|lit|s|[|x l]|[|m ms]]; simpl; try discriminate; intros _;
    eexists _, _; (split; [reflexivity|]); repeat split; reflexivity.
Qed.

Lemma join_cons2 s p q ps : join s (p :: q :: ps) = p +:+ s +:+ join s (q :: ps).
Proof. reflexivity. Qed.

Lemma join_head s p ps : exists r, join s (p :: ps) = p +:+ r.
Proof.
  destruct ps; [exists ""; simpl; now rewrite sapp_nil_r | eexists; apply join_cons2].
Qed.

Lemma serialize_arr indent x l :
  serialize "  " indent (JArr (x :: l)) =
  "[" +:+ nl +:+ (indent +:+ "  ")
      +:+ join (sep (indent +:+ "  ")) (map (serialize "  " (indent +:+ "  ")) (x :: l))
      +:+ nl +:+ indent +:+ "]".
Proof. reflexivity. Qed.

Lemma serialize_obj indent m ms :
  serialize "  " indent (JObj (m :: ms)) =
  "{" +:+ nl +:+ (indent +:+ "  ")
      +:+ join (sep (indent +:+ "  ")) (map (member_text (indent +:+ "  ")) (m :: ms))
      +:+ nl +:+ indent +:+ "}".
Proof. reflexivity. Qed.

(** *** Keys in creation order *)

Lemma obj_replace_fresh k v ms :
  existsb (String.eqb k) (map fst ms) = false -> obj_replace k v ms = None.
Proof.
  induction ms as [|[k' v'] ms IH]; simpl; [reflexivity|].
  intros [Hk Hms]%orb_false_iff. rewrite String.eqb_sym, Hk, (IH Hms). reflexivity.
Qed.

Lemma existsb_app_false {A} (p : A -> bool) l1 l2 :
  existsb p l1 = false -> existsb p l2 = false -> existsb p (l1 ++ l2)%list = false.
Proof. intros H1 H2. rewrite existsb_app, H1, H2. reflexivity. Qed.

Lemma fold_obj_set ms : forall acc,
  plain_keys (map fst ms) = true ->
  forallb (fun k => negb (existsb (String.eqb k) (map fst acc))) (map fst ms) = true ->
  fold_left (fun o kv => obj_set o kv.1 kv.2) ms acc = (acc ++ ms)%list.
Proof.
  induction ms as [|[k v] ms IH]; intros acc; simpl.
  - intros _ _. now rewrite app_nil_r.
  - destruct (array_index k) eqn:Hidx; [discriminate|].
    intros [Hfresh Hplain]%andb_true_iff [Hacc Hrest]%andb_true_iff.
    apply negb_true_iff in Hfresh, Hacc.
    unfold obj_set at 2. simpl. rewrite (obj_replace_fresh _ _ _ Hacc), Hidx.
    rewrite IH; [now rewrite <- app_assoc | assumption |].
    clear IH Hplain. induction ms as [|[k' v'] ms IH']; simpl in *; [reflexivity|].
    apply orb_false_iff in Hfresh as [Hkk' Hfresh].
    apply andb_true_iff in Hrest as [Hk' Hrest].
    apply andb_true_iff; split; [|auto].
    apply negb_true_iff in Hk'. apply negb_true_iff.
    rewrite map_app. apply existsb_app_false; [assumption|].
    simpl. rewrite String.eqb_sym, Hkk'. reflexivity.
Qed.

Lemma obj_of_members_plain ms :
  plain_keys (map fst ms) = true -> obj_of_members ms = ms.
Proof.
  intros H. unfold obj_of_members. rewrite fold_obj_set; [reflexivity | assumption |].
  clear H. induction (map fst ms); simpl; auto.
Qed.

(** *** The parser on serialized text *)

Lemma blank_nl_indent indent : blank indent = true -> blank (nl +:+ indent) = true.
Proof. intros H. simpl. exact H. Qed.

Lemma blank_deeper indent : blank indent = true -> blank (indent +:+ "  ") = true.
Proof. intros H. apply blank_app; [exact H | reflexivity]. Qed.

Lemma skip_to_close stepback (c : ascii) rest :
  blank stepback = true -> is_ws c = false ->
  skip_ws (nl +:+ stepback +:+ String c "" +:+ rest) = String c rest.
Proof.
  intros Hs Hc. rewrite <- sapp_assoc, skip_ws_blank by now apply blank_nl_indent.
  simpl. now rewrite Hc.
Qed.

Lemma skip_sep indent s :
  skip_ws (sep indent +:+ s) = String "," (nl +:+ indent +:+ s).
Proof. unfold sep. rewrite !sapp_assoc. reflexivity. Qed.

Lemma not_closing pre (c cl : ascii) r :
  blank pre = true -> is_ws c = false -> Ascii.eqb cl c = false ->
  strip_prefix (String cl "") (skip_ws (pre +:+ String c r)) = None.
Proof.
  intros Hp Hc Hcl. rewrite skip_ws_blank by assumption.
  simpl. rewrite Hc. simpl. now rewrite Hcl.
Qed.

Lemma value_open_arr f body rest :
  value (S f) (("[" +:+ body) +:+ rest) =
  match strip_prefix "]" (skip_ws (body +:+ rest)) with
  | Some r' => Some (JArr [], r')
  | None => '(vs, r') ← elements f (body +:+ rest); Some (JArr vs, r')
  end.
Proof. reflexivity. Qed.

Lemma value_open_obj f body rest :
  value (S f) (("{" +:+ body) +:+ rest) =
  match strip_prefix "}" (skip_ws (body +:+ rest)) with
  | Some r' => Some (JObj [], r')
  | None => '(ms, r') ← members f (body +:+ rest); Some (JObj (obj_of_members ms), r')
  end.
Proof. reflexivity. Qed.

Lemma elements_step f s :
  elements (S f) s =
  '(v, r) ← value f s;
  match skip_ws r with
  | "" => None
  | String c r' =>
      if Ascii.eqb c "," then '(vs, r'') ← elements f r'; Some (v :: vs, r'')
      else if Ascii.eqb c "]" then Some ([v], r')
      else None
  end.
Proof. reflexivity. Qed.

Lemma members_step f s :
  members (S f) s =
  r ← strip_prefix (String Char.dquote "") (skip_ws s);
  '(k, r1) ← chars r;
  r2 ← strip_prefix ":" (skip_ws r1);
  '(v, r3) ← value f r2;
  match skip_ws r3 with
  | "" => None
  | String c r' =>
      if Ascii.eqb c "," then '(ms, r'') ← members f r'; Some ((k, v) :: ms, r'')
      else if Ascii.eqb c "}" then Some ([(k, v)], r')
      else None
  end.
Proof. reflexivity. Qed.

Lemma reads_value_step f :
  reads_elements f -> reads_members f -> reads_value (S f).
Proof.
  intros HE HM v pre indent rest Hpre Hind Hv Hsz.
  rewrite value_blank by assumption.
  destruct v as [|[]|lit|s|[|x l]|[|m ms]]; try reflexivity; try discriminate.
  - (* string *)
    simpl. rewrite sapp_assoc, chars_quote. reflexivity.
  - (* non-empty array *)
    rewrite serialize_arr.
    assert (Hind' := blank_deeper _ Hind).
    set (ind' := indent +:+ "  ") in *.
    rewrite value_open_arr, !sapp_assoc.
    replace (strip_prefix "]" _) with (@None string).
    + rewrite HE; [reflexivity | assumption.. |].
      simpl in Hsz. unfold items_size. simpl. lia.
    + symmetry.
      destruct (serialize_head ind' x) as (c & r & Hx & Hws & Hclose & _).
      { simpl in Hv. now apply andb_true_iff in Hv as [-> _]. }
      destruct (join_head (sep ind') (serialize "  " ind' x)
                  (map (serialize "  " ind') l)) as [tl Htl].
      cbn [map]. rewrite Htl, Hx, <- (sapp_assoc nl ind').
      apply not_closing; [now apply blank_nl_indent | assumption..].
  - (* non-empty object *)
    rewrite serialize_obj.
    assert (Hind' := blank_deeper _ Hind).
    set (ind' := indent +:+ "  ") in *.
    rewrite value_open_obj, !sapp_assoc.
    simpl in Hv. apply andb_true_iff in Hv as [Hkeys Hvals].
    replace (strip_prefix "}" _) with (@None string).
    + rewrite HM; [| assumption.. |].
      * simpl. now rewrite (obj_of_members_plain (m :: ms)).
      * simpl in Hsz. unfold members_size. simpl. lia.
    + symmetry.
      destruct (join_head (sep ind') (member_text ind' m)
                  (map (member_text ind') ms)) as [tl Htl].
      cbn [map]. rewrite Htl, <- (sapp_assoc nl ind').
      apply not_closing; [now apply blank_nl_indent | reflexivity..].
Qed.

Lemma reads_elements_step f :
  reads_value f -> reads_elements f -> reads_elements (S f).
Proof.
  intros HV HE x items indent stepback rest Hind Hstep Hp Hsz.
  cbn [forallb] in Hp. apply andb_true_iff in Hp as [Hx Hitems].
  unfold items_size in Hsz. cbn [fold_right] in Hsz. fold (items_size items) in Hsz.
  rewrite elements_step. destruct items as [|y items].
  - cbn [map join]. rewrite <- (sapp_assoc nl indent).
    rewrite HV; [| now apply blank_nl_indent | assumption.. | lia].
    cbn [mbind option_bind]. rewrite (skip_to_close stepback "]") by easy.
    reflexivity.
  - cbn [map]. rewrite join_cons2, !sapp_assoc, <- (sapp_assoc nl indent).
    rewrite HV; [| now apply blank_nl_indent | assumption.. | lia].
    cbn [mbind option_bind]. rewrite skip_sep.
    change (String "," ?t) with ("," +:+ t).
    cbn [String.append Ascii.eqb Bool.eqb].
    pose proof (HE y items indent stepback rest Hind Hstep Hitems) as Hrest.
    cbn [map String.append] in Hrest. rewrite Hrest; [reflexivity | lia].
Qed.

Lemma members_first f k v indent tail :
  blank indent = true ->
  members (S f) (nl +:+ indent +:+ member_text indent (k, v) +:+ tail) =
  '(v', r3) ← value f (" " +:+ serialize "  " indent v +:+ tail);
  match skip_ws r3 with
  | "" => None
  | String c r' =>
      if Ascii.eqb c "," then '(ms, r'') ← members f r'; Some ((k, v') :: ms, r'')
      else if Ascii.eqb c "}" then Some ([(k, v')], r')
      else None
  end.
Proof.
  intros Hind. rewrite members_step, <- (sapp_assoc nl indent).
  rewrite skip_ws_blank by now apply blank_nl_indent.
  unfold member_text, quote. cbn [fst snd]. simpl strip_prefix.
  cbn [mbind option_bind]. rewrite !sapp_assoc, chars_quote.
  reflexivity.
Qed.

Lemma reads_members_step f :
  reads_value f -> reads_members f -> reads_members (S f).
Proof.
  intros HV HM [k v] ms indent stepback rest Hind Hstep Hp Hsz.
  cbn [forallb snd] in Hp. apply andb_true_iff in Hp as [Hv Hms].
  unfold members_size in Hsz. cbn [fold_right snd] in Hsz.
  fold (members_size ms) in Hsz.
  destruct ms as [|m' ms].
  - cbn [map join]. rewrite members_first by assumption.
    rewrite HV; [| reflexivity | assumption.. | lia].
    cbn [mbind option_bind]. rewrite (skip_to_close stepback "}") by easy.
    reflexivity.
  - cbn [map]. rewrite join_cons2, !sapp_assoc, members_first by assumption.
    rewrite HV; [| reflexivity | assumption.. | lia].
    cbn [mbind option_bind]. rewrite skip_sep.
    cbn [Ascii.eqb Bool.eqb].
    pose proof (HM m' ms indent stepback rest Hind Hstep Hms) as Hrest.
    cbn [map String.append] in Hrest |- *. rewrite Hrest; [reflexivity | lia].
Qed.

Lemma reads_all f : reads_value f /\ reads_elements f /\ reads_members f.
Proof.
  induction f as [|f (HV & HE & HM)].
  - repeat split.
    + intros [] ? ? ? _ _ _ Hsz; simpl in Hsz; lia.
    + intros ? ? ? ? ? _ _ _ Hsz. unfold items_size in Hsz. simpl in Hsz. lia.
    + intros ? ? ? ? ? _ _ _ Hsz. unfold members_size in Hsz. simpl in Hsz. lia.
  - auto using reads_value_step, reads_elements_step, reads_members_step.
Qed.

(** *** The text is long enough to pay for its own parsing *)

Lemma length_join_items indent sp (l : list json) :
  2 <= String.length sp ->
  Forall (fun x => size x <= 1 + String.length (serialize "  " indent x)) l ->
  items_size l <= 2 + String.length (join sp (map (serialize "  " indent) l)).
Proof.
  intros Hsp. induction 1 as [|x l Hx Hl IH]; [simpl; lia|].
  destruct l as [|y l].
  - unfold items_size. simpl. lia.
  - cbn [map] in *. rewrite join_cons2, !length_sapp.
    unfold items_size in *. cbn [fold_right] in *. lia.
Qed.

Lemma length_join_members indent sp (l : list (string * json)) :
  2 <= String.length sp ->
  Forall (fun kv => size kv.2 <= 1 + String.length (serialize "  " indent kv.2)) l ->
  members_size l <= 2 + String.length (join sp (map (member_text indent) l)).
Proof.
  intros Hsp. induction 1 as [|[k v] l Hx Hl IH]; [simpl; lia|].
  assert (Hm : S (size v) <= String.length (member_text indent (k, v))).
  { unfold member_text, quote. cbn [fst snd String.length] in *.
    rewrite !length_sapp. simpl. lia. }
  destruct l as [|y l].
  - unfold members_size. cbn [map join fold_right snd]. lia.
  - cbn [map] in *. rewrite join_cons2, !length_sapp.
    unfold members_size in *. cbn [fold_right snd] in *. lia.
Qed.

Lemma length_sep indent : 2 <= String.length (sep indent).
Proof. unfold sep. rewrite !length_sapp. simpl. lia. Qed.

Lemma size_le_length v : forall indent,
  size v <= 1 + String.length (serialize "  " indent v).
Proof.
  induction v as [|b|lit|s|items IH|ms IH] using json_nested_ind; intros indent;
    try (simpl; lia).
  - destruct items as [|x l]; [simpl; lia|].
    rewrite serialize_arr.
    pose proof (length_join_items (indent +:+ "  ") (sep (indent +:+ "  ")) (x :: l)
                  (length_sep _)) as H.
    change (size (JArr (x :: l))) with (S (items_size (x :: l))).
    remember (join _ _) as J eqn:HJ. clear HJ.
    rewrite !length_sapp. simpl String.length.
    assert (items_size (x :: l) <= 2 + String.length J); [|lia].
    apply H. eapply Forall_impl; [exact IH|]. intros a Ha. apply Ha.
  - destruct ms as [|m l]; [simpl; lia|].
    rewrite serialize_obj.
    pose proof (length_join_members (indent +:+ "  ") (sep (indent +:+ "  ")) (m :: l)
                  (length_sep _)) as H.
    change (size (JObj (m :: l))) with (S (members_size (m :: l))).
    remember (join _ _) as J eqn:HJ. clear HJ.
    rewrite !length_sapp. simpl String.length.
    assert (members_size (m :: l) <= 2 + String.length J); [|lia].
    apply H. eapply Forall_impl; [exact IH|]. intros a Ha. apply Ha.
Qed.

(** [JSON.parse] undoes [JSON.stringify(_, null, 2)] on printable values. *)
Lemma parse_stringify v :
  printable v = true -> JSON_parse (JSON_stringify2 v) = Some v.
Proof.
  intros Hv. unfold JSON_parse, JSON_stringify2.
  destruct (reads_all (2 * String.length (serialize "  " "" v) + 2)) as [HV _].
  specialize (HV v "" "" "" eq_refl eq_refl Hv).
  rewrite sapp_nil_r in HV. cbn [String.append] in HV.
  rewrite HV; [reflexivity|].
  pose proof (size_le_length v ""). lia.
Qed.

(** *** The fuel of [JSON_parse] is enough for every text

    Every parser consumes at least one character, so twice the length of
    the text, and two, is fuel that never runs out: with more fuel the
    answer is the same.  A [None] of [JSON_parse] is a syntax error and
    not an exhausted budget. *)

Lemma skip_ws_length s : String.length (skip_ws s) <= String.length s.
Proof.
  induction s as [|c s IH]; simpl; [lia|]. destruct (is_ws c); simpl; lia.
Qed.

Lemma strip_prefix_length p : forall s r,
  strip_prefix p s = Some r -> String.length s = String.length p + String.length r.
Proof.
  induction p as [|a p IH]; intros [|b s] r; simpl; try discriminate.
  - now intros [= <-].
  - now intros [= <-].
  - destruct (Ascii.eqb a b); [|discriminate]. intros H. apply IH in H. lia.
Qed.

Lemma cons_char_length c o k r bound :
  cons_char c o = Some (k, r) ->
  (forall k' r', o = Some (k', r') -> String.length r' < bound) ->
  String.length r < bound.
Proof.
  destruct o as [[k' r']|]; simpl; [|discriminate].
  intros [= _ <-] H. now apply (H k').
Qed.

Lemma cons_str_length p o k r bound :
  cons_str p o = Some (k, r) ->
  (forall k' r', o = Some (k', r') -> String.length r' < bound) ->
  String.length r < bound.
Proof.
  destruct o as [[k' r']|]; simpl; [|discriminate].
  intros [= _ <-] H. now apply (H k').
Qed.

Lemma chars_length n : forall s k r,
  String.length s <= n -> chars s = Some (k, r) -> String.length r < String.length s.
Proof.
  induction n as [|n IH]; intros [|c s] k r Hn; try discriminate;
    cbn [String.length] in Hn; try lia.
  cbn [chars].
  destruct (Ascii.eqb c Char.dquote); [intros [= _ <-]; cbn [String.length]; lia|].
  destruct (Ascii.eqb c Char.backslash).
  - destruct s as [|e r1]; [discriminate|].
    destruct (simple_escape e).
    + intros H. eapply cons_char_length in H; [exact H|].
      intros k' r' H'. apply IH in H'; cbn [String.length] in *; lia.
    + destruct (Ascii.eqb e "u"); [|discriminate].
      destruct r1 as [|h1 [|h2 [|h3 [|h4 r2]]]]; try discriminate.
      destruct (hex4 h1 h2 h3 h4) as [x|]; [|discriminate].
      repeat match goal with
             | |- (if ?b then _ else _) = _ -> _ => destruct b
             | |- match ?x with _ => _ end = _ -> _ => destruct x
             end;
        (intros H; eapply cons_str_length in H; [exact H|];
         intros k' r' H'; apply IH in H'; cbn [String.length] in *; lia).
  - destruct (Char.code c <? 32)%N; [discriminate|].
    intros H. eapply cons_char_length in H; [exact H|].
    intros k' r' H'. apply IH in H'; cbn [String.length] in *; lia.
Qed.

Lemma span_digits_length s : forall ds r,
  span_digits s = (ds, r) ->
  String.length s = String.length ds + String.length r.
Proof.
  induction s as [|c s IH]; intros ds r; simpl.
  - now intros [= <- <-].
  - destruct (Char.is_digit c).
    + destruct (span_digits s) as [ds' r'] eqn:H. intros [= <- <-].
      specialize (IH _ _ eq_refl). simpl. lia.
    + now intros [= <- <-].
Qed.

Lemma digits1_length s ds r :
  digits1 s = Some (ds, r) -> String.length r < String.length s.
Proof.
  unfold digits1. destruct (span_digits s) as [ds' r'] eqn:H.
  apply span_digits_length in H. destruct ds'; simpl; [discriminate|].
  intros [= <- <-]. simpl in H. lia.
Qed.

Lemma int_part_length s i r :
  int_part s = Some (i, r) -> String.length r < String.length s.
Proof.
  destruct s as [|c s]; simpl; [discriminate|].
  destruct (Ascii.eqb c "0"); [intros [= _ <-]; lia|].
  intros H. apply digits1_length in H. exact H.
Qed.

Lemma frac_part_length s f r :
  frac_part s = Some (f, r) -> String.length r <= String.length s.
Proof.
  destruct s as [|c s]; simpl; [now intros [= _ <-]|].
  destruct (Ascii.eqb c "."); [|intros [= _ <-]; simpl; lia].
  destruct (digits1 s) as [[ds rest]|] eqn:H; [|discriminate].
  apply digits1_length in H. intros [= _ <-]. lia.
Qed.

Lemma exp_part_length s e r :
  exp_part s = Some (e, r) -> String.length r <= String.length s.
Proof.
  destruct s as [|c s]; simpl; [now intros [= _ <-]|].
  destruct (Ascii.eqb c "e" || Ascii.eqb c "E"); [|intros [= _ <-]; simpl; lia].
  destruct s as [|g s'].
  - simpl. discriminate.
  - destruct (Ascii.eqb g "+" || Ascii.eqb g "-").
    + destruct (digits1 s') as [[ds rest]|] eqn:H; [|discriminate].
      apply digits1_length in H. intros [= _ <-]. simpl. lia.
    + destruct (digits1 (String g s')) as [[ds rest]|] eqn:H; [|discriminate].
      apply digits1_length in H. intros [= _ <-]. simpl in *. lia.
Qed.

Lemma number_length s lit r :
  number s = Some (lit, r) -> String.length r < String.length s.
Proof.
  unfold number.
  set (p := match s with
            | String c r0 => if Ascii.eqb c "-" then ("-", r0) else ("", s)
            | "" => ("", s)
            end).
  assert (Hp : String.length p.2 <= String.length s).
  { unfold p. destruct s as [|c r0]; simpl; [lia|].
    destruct (Ascii.eqb c "-"); simpl; lia. }
  destruct p as [sign s1]. cbn [snd] in Hp. cbn [mbind option_bind].
  destruct (int_part s1) as [[i s2]|] eqn:Hi; [|discriminate]. cbn [mbind option_bind].
  destruct (frac_part s2) as [[f s3]|] eqn:Hf; [|discriminate]. cbn [mbind option_bind].
  destruct (exp_part s3) as [[e s4]|] eqn:He; [|discriminate]. cbn [mbind option_bind].
  intros [= _ <-].
  apply int_part_length in Hi. apply frac_part_length in Hf. apply exp_part_length in He.
  lia.
Qed.

Lemma value_step f s :
  value (S f) s =
  match skip_ws s with
  | "" => None
  | String c r =>
      if Ascii.eqb c Char.dquote then
        '(str, r') ← chars r; Some (JStr str, r')
      else if Ascii.eqb c "[" then
        match strip_prefix "]" (skip_ws r) with
        | Some r' => Some (JArr [], r')
        | None => '(vs, r') ← elements f r; Some (JArr vs, r')
        end
      else if Ascii.eqb c "{" then
        match strip_prefix "}" (skip_ws r) with
        | Some r' => Some (JObj [], r')
        | None => '(ms, r') ← members f r; Some (JObj (obj_of_members ms), r')
        end
      else if Ascii.eqb c "n" then
        r' ← strip_prefix "ull" r; Some (JNull, r')
      else if Ascii.eqb c "t" then
        r' ← strip_prefix "rue" r; Some (JBool true, r')
      else if Ascii.eqb c "f" then
        r' ← strip_prefix "alse" r; Some (JBool false, r')
      else
        '(lit, r') ← number (String c r); Some (JNum lit, r')
  end.
Proof. reflexivity. Qed.

Lemma consumes_all f : consumes f.
Proof.
  induction f as [|f (HV & HE & HM)]; [repeat split; discriminate|].
  repeat split.
  - intros s v r. rewrite value_step.
    pose proof (skip_ws_length s) as Hs.
    destruct (skip_ws s) as [|c r0]; [discriminate|]. cbn [String.length] in Hs.
    destruct (Ascii.eqb c Char.dquote).
    { intros H. bind_case H p. destruct p as [str r']. injection H as _ <-.
      match goal with Hc : chars _ = _ |- _ => apply (chars_length _ _ _ _ (le_n _)) in Hc end.
      lia. }
    destruct (Ascii.eqb c "[").
    { pose proof (skip_ws_length r0) as Hr0.
      destruct (strip_prefix "]" _) as [r'|] eqn:Hc.
      - intros [= _ <-]. apply strip_prefix_length in Hc. lia.
      - intros H. bind_case H p. destruct p as [vs r']. injection H as _ <-.
        match goal with He : elements _ _ = _ |- _ => apply HE in He end. lia. }
    destruct (Ascii.eqb c "{").
    { pose proof (skip_ws_length r0) as Hr0.
      destruct (strip_prefix "}" _) as [r'|] eqn:Hc.
      - intros [= _ <-]. apply strip_prefix_length in Hc. lia.
      - intros H. bind_case H p. destruct p as [ms r']. injection H as _ <-.
        match goal with He : members _ _ = _ |- _ => apply HM in He end. lia. }
    destruct (Ascii.eqb c "n").
    { intros H. bind_case H r'. injection H as _ <-.
      match goal with Hc : strip_prefix _ _ = _ |- _ => apply strip_prefix_length in Hc end.
      lia. }
    destruct (Ascii.eqb c "t").
    { intros H. bind_case H r'. injection H as _ <-.
      match goal with Hc : strip_prefix _ _ = _ |- _ => apply strip_prefix_length in Hc end.
      lia. }
    destruct (Ascii.eqb c "f").
    { intros H. bind_case H r'. injection H as _ <-.
      match goal with Hc : strip_prefix _ _ = _ |- _ => apply strip_prefix_length in Hc end.
      lia. }
    intros H. bind_case H p. destruct p as [lit r']. injection H as _ <-.
    match goal with Hc : number _ = _ |- _ => apply number_length in Hc end.
    cbn [String.length] in *. lia.
  - intros s vs r. rewrite elements_step. intros H.
    bind_case H p. destruct p as [v r1].
    match goal with Hv : value _ _ = _ |- _ => apply HV in Hv end.
    pose proof (skip_ws_length r1) as Hs.
    destruct (skip_ws r1) as [|c r']; [discriminate|]. cbn [String.length] in Hs.
    destruct (Ascii.eqb c ",").
    + bind_case H q. destruct q as [vs' r'']. injection H as _ <-.
      match goal with He : elements _ _ = _ |- _ => apply HE in He end. lia.
    + destruct (Ascii.eqb c "]"); [|discriminate]. injection H as _ <-. lia.
  - intros s ms r. rewrite members_step. intros H.
    pose proof (skip_ws_length s) as Hs.
    bind_case H r0.
    match goal with Hc : strip_prefix _ _ = _ |- _ => apply strip_prefix_length in Hc end.
    bind_case H p. destruct p as [k r1].
    match goal with Hc : chars _ = _ |- _ => apply (chars_length _ _ _ _ (le_n _)) in Hc end.
    pose proof (skip_ws_length r1) as Hs1.
    bind_case H r2.
    match goal with Hc : strip_prefix _ (skip_ws r1) = _ |- _ =>
      apply strip_prefix_length in Hc end.
    bind_case H q. destruct q as [v r3].
    match goal with Hv : value _ _ = _ |- _ => apply HV in Hv end.
    pose proof (skip_ws_length r3) as Hs3.
    destruct (skip_ws r3) as [|c r']; [discriminate|]. cbn [String.length] in *.
    destruct (Ascii.eqb c ",").
    + bind_case H q. destruct q as [ms' r'']. injection H as _ <-.
      match goal with He : members _ _ = _ |- _ => apply HM in He end. lia.
    + destruct (Ascii.eqb c "}"); [|discriminate]. injection H as _ <-. lia.
Qed.

Lemma fuel_enough_all f : fuel_enough f.
Proof.
  induction f as [|f (HV & HE & HM)]; [repeat split; intros s Hs; lia|].
  destruct (consumes_all (S f)) as (CV & _ & _).
  repeat split; intros s Hf.
  - rewrite !value_step.
    pose proof (skip_ws_length s) as Hs.
    destruct (skip_ws s) as [|c r0]; [reflexivity|]. cbn [String.length] in Hs.
    rewrite <- (HE r0), <- (HM r0) by lia. reflexivity.
  - rewrite !elements_step. rewrite <- (HV s) by lia.
    destruct (value (S f) s) as [[v r1]|] eqn:Hv; [|rewrite (HV s), Hv by lia; reflexivity].
    rewrite (HV s), Hv by lia. cbn [mbind option_bind].
    apply CV in Hv. pose proof (skip_ws_length r1) as Hs.
    destruct (skip_ws r1) as [|c r']; [reflexivity|]. cbn [String.length] in Hs.
    rewrite <- (HE r') by lia. reflexivity.
  - rewrite !members_step.
    pose proof (skip_ws_length s) as Hs.
    destruct (strip_prefix _ (skip_ws s)) as [r0|] eqn:H0; [|reflexivity].
    apply strip_prefix_length in H0. cbn [mbind option_bind String.length] in *.
    destruct (chars r0) as [[k r1]|] eqn:H1; [|reflexivity].
    apply (chars_length _ _ _ _ (le_n _)) in H1. cbn [mbind option_bind].
    pose proof (skip_ws_length r1) as Hs1.
    destruct (strip_prefix _ (skip_ws r1)) as [r2|] eqn:H2; [|reflexivity].
    apply strip_prefix_length in H2. cbn [mbind option_bind String.length] in *.
    rewrite <- (HV r2) by lia.
    destruct (value f r2) as [[v r3]|] eqn:Hv; [|reflexivity].
    cbn [mbind option_bind].
    rewrite (HV r2) in Hv by lia. apply CV in Hv.
    pose proof (skip_ws_length r3) as Hs3.
    destruct (skip_ws r3) as [|c r']; [reflexivity|]. cbn [String.length] in Hs3.
    rewrite <- (HM r') by lia. reflexivity.
Qed.

Lemma value_fuel_irrelevant s f :
  2 * String.length s + 2 <= f ->
  value f s = value (2 * String.length s + 2) s.
Proof.
  induction 1 as [|f Hle IH]; [reflexivity|].
  rewrite <- IH. symmetry. apply (fuel_enough_all f). exact Hle.
Qed.

(** Whatever the fuel beyond the text's own, [JSON_parse] answers the same. *)
Lemma JSON_parse_fuel txt f :
  2 * String.length txt + 2 <= f ->
  JSON_parse txt =
  match value f txt with
  | Some (v, rest) => if is_empty (skip_ws rest) then Some v else None
  | None => None
  end.
Proof. intros Hf. unfold JSON_parse. now rewrite (value_fuel_irrelevant txt f Hf). Qed.

End RoundTrip.

(** ** Reasoning about the monad *)

Lemma bind_Ok_inv {A B} (m : M A) (k : A -> M B) w b w' :
  bind m k w = (Ok b, w') ->
  exists a w1, m w = (Ok a, w1) /\ k a w1 = (Ok b, w').
Proof.
  unfold bind. destruct (m w) as [[a|e|] w1]; intros H; try discriminate.
  exists a, w1. split; [reflexivity | exact H].
Qed.

Lemma bind_Ok {A B} (m : M A) (k : A -> M B) w a w1 :
  m w = (Ok a, w1) -> bind m k w = k a w1.
Proof. unfold bind. now intros ->. Qed.

Lemma bind_Throw {A B} (m : M A) (k : A -> M B) w e w1 :
  m w = (Throw e, w1) -> bind m k w = (Throw e, w1).
Proof. unfold bind. now intros ->. Qed.

(** ** Session store *)

Lemma exists_present path w n :
  w_fs w !! path = Some n -> exists_ path w = (Ok true, w).
Proof. intros H. unfold exists_. now rewrite H. Qed.

Lemma exists_world path w : snd (exists_ path w) = w.
Proof.
  unfold exists_. destruct (w_fs w !! path); [reflexivity|].
  destruct (existsb _ _); reflexivity.
Qed.

Lemma exists_Ok_inv path w b w' : exists_ path w = (Ok b, w') -> w' = w.
Proof. intros H. pose proof (exists_world path w) as Hw. now rewrite H in Hw. Qed.

Lemma exists_history_absent w :
  w_fs w !! HISTORY_PATH = None ->
  exists_ HISTORY_PATH w =
  (if is_file (w_fs w) TESTS_DIR then Throw (IoError HISTORY_PATH) else Ok false, w).
Proof.
  intros H. unfold exists_. rewrite H.
  change (ancestors HISTORY_PATH) with [TESTS_DIR]. cbn [existsb].
  rewrite orb_false_r. now destruct (is_file (w_fs w) TESTS_DIR).
Qed.

Lemma loadHistory_absent w :
  w_fs w !! HISTORY_PATH = None -> is_file (w_fs w) TESTS_DIR = false ->
  loadHistory w = (Ok [], w).
Proof.
  intros H Ht. unfold loadHistory, bind. now rewrite (exists_history_absent _ H), Ht.
Qed.

Lemma loadHistory_below_file w :
  w_fs w !! HISTORY_PATH = None -> is_file (w_fs w) TESTS_DIR = true ->
  loadHistory w = (Throw (IoError HISTORY_PATH), w).
Proof.
  intros H Ht. unfold loadHistory, bind. now rewrite (exists_history_absent _ H), Ht.
Qed.

Lemma loadHistory_present w n :
  w_fs w !! HISTORY_PATH = Some n ->
  loadHistory w =
  try_catch
    (bind (readTextFile HISTORY_PATH) (fun txt =>
     bind (JSON_parse_m txt) (fun data =>
     ret (match data with JArr items => items | _ => [] end))))
    (fun _ => ret []) w.
Proof.
  intros H. unfold loadHistory at 1, bind at 1. now rewrite (exists_present _ _ _ H).
Qed.

Lemma loadHistory_unreadable w n :
  w_fs w !! HISTORY_PATH = Some n -> unreadable n -> loadHistory w = (Ok [], w).
Proof.
  intros H Hn. rewrite (loadHistory_present _ _ H).
  unfold try_catch, bind, readTextFile. rewrite H.
  destruct n as [[] txt|]; simpl in Hn; try discriminate; reflexivity.
Qed.

Lemma loadHistory_readable w txt :
  w_fs w !! HISTORY_PATH = Some (File true txt) ->
  loadHistory w =
  (Ok (match JSON_parse txt with Some (JArr items) => items | _ => [] end), w).
Proof.
  intros H. rewrite (loadHistory_present _ _ H).
  unfold try_catch, bind, readTextFile, JSON_parse_m. rewrite H.
  destruct (JSON_parse txt) as [[]|]; reflexivity.
Qed.

(** Loading ends in one of two ways, and changes nothing either way. *)
Lemma loadHistory_cases w :
  (exists items, loadHistory w = (Ok items, w)) \/
  (w_fs w !! HISTORY_PATH = None /\ is_file (w_fs w) TESTS_DIR = true /\
   loadHistory w = (Throw (IoError HISTORY_PATH), w)).
Proof.
  destruct (w_fs w !! HISTORY_PATH) as [[[] txt|]|] eqn:H.
  - left. eexists. apply (loadHistory_readable _ _ H).
  - left. eexists. apply (loadHistory_unreadable _ _ H). reflexivity.
  - left. eexists. apply (loadHistory_unreadable _ _ H). exact I.
  - destruct (is_file (w_fs w) TESTS_DIR) eqn:Ht.
    + right. split; [reflexivity|]. split; [reflexivity|].
      now apply loadHistory_below_file.
    + left. eexists. now apply loadHistory_absent.
Qed.

Lemma loadHistory_Ok_inv w items w' :
  loadHistory w = (Ok items, w') -> w' = w.
Proof.
  destruct (loadHistory_cases w) as [[items' H] | (_ & _ & H)]; rewrite H; congruence.
Qed.

Lemma ancestors_history : ancestors HISTORY_PATH = [TESTS_DIR].
Proof. reflexivity. Qed.

Lemma ancestors_tests : ancestors TESTS_DIR = [].
Proof. reflexivity. Qed.

Lemma tests_not_history : TESTS_DIR <> HISTORY_PATH.
Proof. discriminate. Qed.

Lemma saveHistory_usable w entries :
  store_usable (w_fs w) ->
  saveHistory entries w =
  (Ok tt, set_fs (<[HISTORY_PATH := File true (JSON_stringify2 (JArr entries))]>
                    (<[TESTS_DIR := Dir]> (w_fs w))) w).
Proof.
  intros [Htests Hhist]. unfold saveHistory, bind, ensureDir.
  rewrite ancestors_tests. cbn [app existsb foldr]. rewrite Htests. cbn [orb].
  unfold writeTextFile. rewrite ancestors_history.
  cbn [forallb w_fs set_fs]. unfold is_dir at 1.
  rewrite lookup_insert_eq. cbn [andb].
  rewrite lookup_insert_ne by exact tests_not_history.
  destruct (w_fs w !! HISTORY_PATH) as [[r txt|]|]; cbn in Hhist.
  - subst r. reflexivity.
  - contradiction.
  - reflexivity.
Qed.

Lemma printable_entries (H : list HistoryEntry) :
  Printable.printable (JArr (map entry_json H)) = true.
Proof. induction H as [|e H IH]; [reflexivity|]. simpl in *. exact IH. Qed.

Lemma entry_json_inj e1 e2 : entry_json e1 = entry_json e2 -> e1 = e2.
Proof.
  destruct e1 as [i1 u1 d1 c1 f1 s1 t1], e2 as [i2 u2 d2 c2 f2 s2 t2].
  unfold entry_json, entry_members; simpl. intros H. injection H as -> -> Hd -> -> -> ->.
  destruct d1, d2; try discriminate; reflexivity.
Qed.

Lemma entries_json_inj (H1 H2 : list HistoryEntry) :
  map entry_json H1 = map entry_json H2 -> H1 = H2.
Proof.
  revert H2. induction H1 as [|e1 H1 IH]; intros [|e2 H2] Heq; try discriminate.
  - reflexivity.
  - assert (He : entry_json e1 = entry_json e2) by exact (f_equal (hd JNull) Heq).
    assert (Hrest : map entry_json H1 = map entry_json H2) by exact (f_equal (@tl _) Heq).
    apply entry_json_inj in He. apply IH in Hrest. congruence.
Qed.

(** C1.  Saving a history of well-typed entries and loading it again gives
    the same entries, with the same field values, in the same order: on a
    usable store [saveHistory] succeeds, [loadHistory] then returns the
    saved sequence, and that sequence is the image of no other history. *)
Theorem load_save_roundtrip (H : list HistoryEntry) (w : World) :
  store_usable (w_fs w) ->
  exists w1,
    saveHistory (map entry_json H) w = (Ok tt, w1) /\
    loadHistory w1 = (Ok (map entry_json H), w1) /\
    (forall H', loadHistory w1 = (Ok (map entry_json H'), w1) -> H' = H).
Proof.
  intros Hs.
  set (txt := JSON_stringify2 (JArr (map entry_json H))).
  set (w1 := set_fs (<[HISTORY_PATH := File true txt]> (<[TESTS_DIR := Dir]> (w_fs w))) w).
  assert (Hl : loadHistory w1 = (Ok (map entry_json H), w1)).
  { rewrite (loadHistory_readable w1 txt) by apply lookup_insert_eq.
    unfold txt. rewrite RoundTrip.parse_stringify by apply printable_entries.
    reflexivity. }
  exists w1. split; [apply (saveHistory_usable _ _ Hs)|]. split; [exact Hl|].
  intros H' Hl'. rewrite Hl in Hl'. injection Hl' as Heq.
  symmetry. now apply entries_json_inj.
Qed.

Lemma load_save_roundtrip_witness :
  exists w1,
    saveHistory (map entry_json [Sample.entry1; Sample.entry2])
                (Sample.world ∅ Sample.nothing ∅ [] [] [] []) = (Ok tt, w1) /\
    loadHistory w1 = (Ok (map entry_json [Sample.entry1; Sample.entry2]), w1) /\
    (forall H', loadHistory w1 = (Ok (map entry_json H'), w1) ->
                H' = [Sample.entry1; Sample.entry2]).
Proof.
  apply (load_save_roundtrip [Sample.entry1; Sample.entry2]).
  split; [reflexivity | exact I].
Defined.

(** The three states in which loading degrades to "no history": the file
    is absent, unreadable, or holds text that is not valid JSON.  For the
    absent file this needs the look-up itself to succeed: [tests] must not
    be a file. *)
Lemma load_degrades_to_empty (w : World) :
  (w_fs w !! HISTORY_PATH = None /\ is_file (w_fs w) TESTS_DIR = false)
   \/ (exists n, w_fs w !! HISTORY_PATH = Some n /\ unreadable n)
   \/ (exists txt, w_fs w !! HISTORY_PATH = Some (File true txt)
                   /\ JSON_parse txt = None) ->
  loadHistory w = (Ok [], w).
Proof.
  intros [[H Ht] | [(n & H & Hn) | (txt & H & Hp)]].
  - apply (loadHistory_absent _ H Ht).
  - apply (loadHistory_unreadable _ _ H Hn).
  - rewrite (loadHistory_readable _ _ H), Hp. reflexivity.
Qed.

(** C2, at a failing input.  With a regular file where the [tests]
    directory should be, the history file is absent, but the existence
    check itself fails, and it runs before the [try] block: [loadHistory]
    raises that error to its caller instead of returning the empty
    sequence. *)
Lemma load_raises_below_a_file :
  let w := Sample.world ∅ Sample.nothing {[ TESTS_DIR := File true "" ]} [] [] [] [] in
  w_fs w !! HISTORY_PATH = None /\
  loadHistory w = (Throw (IoError HISTORY_PATH), w).
Proof. split; reflexivity. Qed.

(** C9.  [loadHistory] validates no element: when the file text parses to
    an array, that array is the history, whatever its elements are; when
    it parses to any other JSON value, the history is empty. *)
Theorem load_no_element_validation (w : World) (txt : string) (v : json) :
  w_fs w !! HISTORY_PATH = Some (File true txt) ->
  JSON_parse txt = Some v ->
  (forall items, v = JArr items -> loadHistory w = (Ok items, w)) /\
  (is_array v = false -> loadHistory w = (Ok [], w)).
Proof.
  intros H Hp. rewrite (loadHistory_readable _ _ H), Hp. split.
  - intros items ->. reflexivity.
  - destruct v; simpl; intros Hv; try discriminate; reflexivity.
Qed.

Lemma load_no_element_validation_witness :
  let w := Sample.world ∅ Sample.nothing
             {[ HISTORY_PATH := File true "[1, true, null, {}]" ]} [] [] [] [] in
  (forall items, JArr [JNum "1"; JBool true; JNull; JObj []] = JArr items ->
                 loadHistory w = (Ok items, w)) /\
  (is_array (JArr [JNum "1"; JBool true; JNull; JObj []]) = false ->
   loadHistory w = (Ok [], w)).
Proof.
  apply (load_no_element_validation _ "[1, true, null, {}]"); reflexivity.
Defined.

Lemma load_not_an_array :
  let w := Sample.world ∅ Sample.nothing
             {[ HISTORY_PATH := File true "{}" ]} [] [] [] [] in
  loadHistory w = (Ok [], w).
Proof.
  intros w. apply (loadHistory_readable w "{}"). reflexivity.
Qed.

(** ** The append step of the recorder *)

(** C8.  The append step never removes, reorders or modifies what was
    persisted: if the store holds the history [H], then after appending
    [e] the file is the serialization of [H] followed by [e], and loading
    it returns exactly [H] followed by [e]. *)
Theorem append_preserves_history (w : World) (H : list HistoryEntry) (e : HistoryEntry) :
  store_usable (w_fs w) ->
  loadHistory w = (Ok (map entry_json H), w) ->
  exists w',
    appendEntry e w = (Ok tt, w') /\
    w_fs w' !! HISTORY_PATH =
      Some (File true (JSON_stringify2 (JArr (map entry_json (H ++ [e]))))) /\
    loadHistory w' = (Ok (map entry_json (H ++ [e])), w').
Proof.
  intros Hs Hl. eexists. split; [|split].
  - unfold appendEntry. rewrite (bind_Ok _ _ _ _ _ Hl).
    apply (saveHistory_usable _ _ Hs).
  - cbn [w_fs set_fs]. rewrite lookup_insert_eq, map_app. reflexivity.
  - erewrite loadHistory_readable by (cbn [w_fs set_fs]; apply lookup_insert_eq).
    change [entry_json e] with (map entry_json [e]). rewrite <- map_app.
    rewrite RoundTrip.parse_stringify by apply printable_entries. reflexivity.
Qed.

Lemma append_writes_after_prior (w : World) (prior : list json) (e : HistoryEntry) :
  store_usable (w_fs w) ->
  loadHistory w = (Ok prior, w) ->
  exists w',
    appendEntry e w = (Ok tt, w') /\
    w_fs w' !! HISTORY_PATH =
      Some (File true (JSON_stringify2 (JArr (prior ++ [entry_json e])%list))).
Proof.
  intros Hs Hl. eexists. split.
  - unfold appendEntry. rewrite (bind_Ok _ _ _ _ _ Hl).
    apply (saveHistory_usable _ _ Hs).
  - cbn [w_fs set_fs]. apply lookup_insert_eq.
Qed.

Lemma append_preserves_history_witness :
  let w := Sample.world ∅ Sample.nothing
             {[ TESTS_DIR := Dir;
                HISTORY_PATH := File true (JSON_stringify2 (JArr [entry_json Sample.entry1])) ]}
             [] [] [] [] in
  exists w',
    appendEntry Sample.entry2 w = (Ok tt, w') /\
    w_fs w' !! HISTORY_PATH =
      Some (File true (JSON_stringify2
                         (JArr (map entry_json ([Sample.entry1] ++ [Sample.entry2]))))) /\
    loadHistory w' = (Ok (map entry_json ([Sample.entry1] ++ [Sample.entry2])), w').
Proof.
  apply append_preserves_history.
  - split; reflexivity.
  - reflexivity.
Defined.

(** ** Binary resolver *)

Lemma whichOk_spec w cmd : whichOk cmd w = (Ok (probe_ok w cmd), after_probe w cmd).
Proof.
  unfold whichOk, try_catch, bind, Command_spawn, Command_status, after_probe,
    probe_ok, probe_events, version_args.
  destruct (w_installed w cmd) eqn:Hi; cbn [emit bind throw ret fst snd w_fs w_run set_trace
    set_fs w_trace andb].
  - destruct (w_run w cmd ["--version"] (w_fs w)) as [code fs].
    cbn [emit bind throw ret fst snd w_fs w_run set_trace set_fs w_trace].
    rewrite <- app_assoc. reflexivity.
  - reflexivity.
Qed.

Lemma after_probe_env w cmd : w_env (after_probe w cmd) = w_env w.
Proof. unfold after_probe. destruct (w_installed w cmd); reflexivity. Qed.

Lemma after_probe_windows w cmd : w_windows (after_probe w cmd) = w_windows w.
Proof. unfold after_probe. destruct (w_installed w cmd); reflexivity. Qed.

Lemma after_probe_installed w cmd : w_installed (after_probe w cmd) = w_installed w.
Proof. unfold after_probe. destruct (w_installed w cmd); reflexivity. Qed.

Lemma after_probe_trace w cmd :
  w_trace (after_probe w cmd) = (w_trace w ++ probe_events w cmd)%list.
Proof. reflexivity. Qed.

Lemma after_probe_inputs w cmd : w_inputs (after_probe w cmd) = w_inputs w.
Proof. unfold after_probe. destruct (w_installed w cmd); reflexivity. Qed.

Lemma defaultNPX_after_probe w cmd : defaultNPX (after_probe w cmd) = defaultNPX w.
Proof.
  unfold defaultNPX, isWindows. now rewrite after_probe_env, after_probe_windows.
Qed.

Lemma tryGlobal_spec w :
  tryGlobal w =
  (Ok (if probe_ok w (defaultPlaywright w)
       then Some {| mode := mode_global; cmd := defaultPlaywright w; wrap := fun a => a |}
       else None),
   after_probe w (defaultPlaywright w)).
Proof.
  unfold tryGlobal, bind, gets. rewrite whichOk_spec.
  destruct (probe_ok w (defaultPlaywright w)); reflexivity.
Qed.

Lemma tryNpx_spec w :
  tryNpx w =
  (Ok (if probe_ok w (defaultNPX w)
       then Some {| mode := mode_npx; cmd := defaultNPX w;
                    wrap := fun a => "playwright" :: a |}
       else None),
   after_probe w (defaultNPX w)).
Proof.
  unfold tryNpx, bind, gets. rewrite whichOk_spec.
  destruct (probe_ok w (defaultNPX w)); reflexivity.
Qed.

(** C4.  With the mode override unset the resolver probes the direct
    binary first and, when that probe succeeds, nothing else; only when it
    fails is the launcher probed; and only when both fail does resolution
    fail, with the message that tells the user to install Node and npx or
    to set the environment variables. *)
Theorem resolve_auto_detect_order (w : World) :
  w_env w !! "PLAYWRIGHT_MODE" = None ->
  let direct := defaultPlaywright w in
  let launcher := defaultNPX w in
  let w1 := after_probe w direct in
  let w2 := after_probe w1 launcher in
  if probe_ok w direct then
    resolvePlaywright w =
      (Ok {| mode := mode_global; cmd := direct; wrap := fun a => a |}, w1)
    /\ w_trace w1 = (w_trace w ++ probe_events w direct)%list
  else if probe_ok w1 launcher then
    resolvePlaywright w =
      (Ok {| mode := mode_npx; cmd := launcher; wrap := fun a => "playwright" :: a |}, w2)
    /\ w_trace w2 = (w_trace w ++ probe_events w direct ++ probe_events w1 launcher)%list
  else
    resolvePlaywright w = (Throw (Error err_none_found), w2)
    /\ w_trace w2 = (w_trace w ++ probe_events w direct ++ probe_events w1 launcher)%list.
Proof.
  intros Hmode direct launcher w1 w2.
  assert (Hres : resolvePlaywright w =
                 if probe_ok w direct
                 then (Ok {| mode := mode_global; cmd := direct; wrap := fun a => a |}, w1)
                 else if probe_ok w1 launcher
                 then (Ok {| mode := mode_npx; cmd := launcher;
                             wrap := fun a => "playwright" :: a |}, w2)
                 else (Throw (Error err_none_found), w2)).
  { unfold resolvePlaywright, gets, bind at 1. rewrite Hmode.
    change (is_mode "global" None) with false. change (is_mode "npx" None) with false.
    cbv iota. unfold bind at 1. rewrite tryGlobal_spec. fold direct w1.
    destruct (probe_ok w direct); [reflexivity|].
    unfold bind. rewrite tryNpx_spec.
    assert (Hn : defaultNPX w1 = launcher) by apply defaultNPX_after_probe.
    rewrite Hn. fold w2.
    destruct (probe_ok w1 launcher); reflexivity. }
  rewrite Hres.
  destruct (probe_ok w direct); [split; reflexivity|].
  destruct (probe_ok w1 launcher); (split; [reflexivity|]);
    unfold w2, w1; rewrite !after_probe_trace, <- app_assoc; reflexivity.
Qed.

Lemma resolve_auto_detect_order_witness :
  let w := Sample.world ∅ Sample.has_npx ∅ [] [] [] [] in
  resolvePlaywright w =
    (Ok {| mode := mode_npx; cmd := "npx"; wrap := fun a => "playwright" :: a |},
     after_probe (after_probe w "playwright") "npx")
  /\ w_trace (after_probe (after_probe w "playwright") "npx") =
     [ESpawnFailed "playwright" ["--version"];
      ESpawn "npx" ["--version"]; EExit "npx" ["--version"] 0].
Proof.
  exact (resolve_auto_detect_order (Sample.world ∅ Sample.has_npx ∅ [] [] [] []) eq_refl).
Defined.

Lemma prompts_probe w cmd : prompts (probe_events w cmd) = [].
Proof. unfold probe_events. destruct (w_installed w cmd); reflexivity. Qed.

Lemma prompts_after_probe w cmd :
  prompts (w_trace (after_probe w cmd)) = prompts (w_trace w).
Proof.
  rewrite after_probe_trace. unfold prompts.
  rewrite List.filter_app. fold (prompts (probe_events w cmd)).
  rewrite prompts_probe. apply app_nil_r.
Qed.

Lemma resolve_forced_npx w :
  w_env w !! "PLAYWRIGHT_MODE" = Some "npx" ->
  resolvePlaywright w =
  (if probe_ok w (defaultNPX w)
   then Ok {| mode := mode_npx; cmd := defaultNPX w; wrap := fun a => "playwright" :: a |}
   else Throw (Error err_npx_missing),
   after_probe w (defaultNPX w)).
Proof.
  intros Hmode. unfold resolvePlaywright, gets, bind. rewrite Hmode.
  change (is_mode "global" (Some "npx")) with false.
  change (is_mode "npx" (Some "npx")) with true.
  cbv beta iota. rewrite tryNpx_spec.
  destruct (probe_ok w (defaultNPX w)); reflexivity.
Qed.

(** C5.  With the mode forced to "npx" and a failing launcher probe,
    resolution fails with the error that names npx, and the recorder and
    the replay flow fail with it at once: no prompt has been shown and no
    answer has been consumed. *)
Theorem forced_npx_fails_before_prompts (w : World) :
  w_env w !! "PLAYWRIGHT_MODE" = Some "npx" ->
  probe_ok w (defaultNPX w) = false ->
  let w1 := after_probe w (defaultNPX w) in
  resolvePlaywright w = (Throw (Error err_npx_missing), w1) /\
  recordNewTest w = (Throw (Error err_npx_missing), w1) /\
  replayTest w = (Throw (Error err_npx_missing), w1) /\
  prompts (w_trace w1) = prompts (w_trace w) /\
  w_inputs w1 = w_inputs w.
Proof.
  intros Hmode Hprobe w1.
  assert (Hres : resolvePlaywright w = (Throw (Error err_npx_missing), w1)).
  { rewrite (resolve_forced_npx _ Hmode), Hprobe. reflexivity. }
  repeat split.
  - exact Hres.
  - unfold recordNewTest. apply bind_Throw, Hres.
  - unfold replayTest. apply bind_Throw, Hres.
  - apply prompts_after_probe.
  - apply after_probe_inputs.
Qed.

Lemma forced_npx_fails_before_prompts_witness :
  let w := Sample.world {[ "PLAYWRIGHT_MODE" := "npx" ]} Sample.has_playwright ∅
             ["https://example.com"] ["pc"] [] [] in
  let w1 := after_probe w "npx" in
  resolvePlaywright w = (Throw (Error err_npx_missing), w1) /\
  recordNewTest w = (Throw (Error err_npx_missing), w1) /\
  replayTest w = (Throw (Error err_npx_missing), w1) /\
  prompts (w_trace w1) = [] /\
  w_inputs w1 = ["https://example.com"].
Proof.
  exact (forced_npx_fails_before_prompts
           (Sample.world {[ "PLAYWRIGHT_MODE" := "npx" ]} Sample.has_playwright ∅
              ["https://example.com"] ["pc"] [] [])
           eq_refl eq_refl).
Defined.

(** ** Prompts *)

Lemma Input_prompt_spec w message default a rest :
  w_inputs w = a :: rest ->
  Input_prompt message default w =
  (Ok (if Stringify.is_empty a then default else a),
   set_inputs rest (set_trace (w_trace w ++ [EPrompt PInput message])%list w)).
Proof.
  intros H. unfold Input_prompt, bind, emit, next_input, ret.
  cbn [w_inputs set_trace]. rewrite H. reflexivity.
Qed.

Lemma Select_prompt_spec w message options a rest :
  w_selects w = a :: rest ->
  Select_prompt message options w =
  (Ok a, set_selects rest (set_trace (w_trace w ++ [EPrompt PSelect message])%list w)).
Proof.
  intros H. unfold Select_prompt, bind, emit, next_select.
  cbn [w_selects set_trace]. rewrite H. reflexivity.
Qed.

Lemma NumberPrompt_spec w message default lo hi n rest :
  first_in_range default lo hi (w_numbers w) = Some (n, rest) ->
  NumberPrompt_prompt message default lo hi w =
  (Ok n, set_numbers rest (set_trace (w_trace w ++ [EPrompt PNumber message])%list w)).
Proof.
  intros H. unfold NumberPrompt_prompt, bind, emit, next_number.
  cbn [w_numbers set_trace]. rewrite H. reflexivity.
Qed.

(** ** Recorder: device selection *)

Lemma isDeviceType_spec x : isDeviceType x = true <-> x = "pc" \/ x = "mobile".
Proof.
  unfold isDeviceType. rewrite orb_true_iff, !String.eqb_eq. reflexivity.
Qed.

(** C6, as stated, fails: by the time a device value is rejected the
    resolver has already started a process to probe the binary. *)
Lemma device_rejected_after_probe :
  let w := Sample.world ∅ Sample.has_playwright ∅ [""] ["tablet"] [] [] in
  fst (recordNewTest w) = Throw (Error "Invalid device selection: tablet") /\
  spawned (w_trace (snd (recordNewTest w))) <> [].
Proof. split; [reflexivity | discriminate]. Qed.

(** C6, amended.  The device selection accepts exactly "pc" and "mobile".
    Any other value fails the flow with the invalid-selection error, and
    between the resolver's probes and that failure nothing happens but the
    two prompts: no further process is started and the file system is
    untouched. *)
Theorem device_selection_guard (w w1 : World) (pw : PwInvoker)
        (a x : string) (inputs' selects' : list string) :
  resolvePlaywright w = (Ok pw, w1) ->
  w_inputs w1 = a :: inputs' ->
  w_selects w1 = x :: selects' ->
  (isDeviceType x = true <-> x = "pc" \/ x = "mobile") /\
  (isDeviceType x = false ->
   exists w2,
     recordNewTest w = (Throw (Error ("Invalid device selection: " +:+ x)), w2) /\
     w_trace w2 = (w_trace w1 ++ [EPrompt PInput "Enter target URL";
                                  EPrompt PSelect "Select device type"])%list /\
     spawned (w_trace w2) = spawned (w_trace w1) /\
     w_fs w2 = w_fs w1).
Proof.
  intros Hres Hin Hsel. split; [apply isDeviceType_spec|].
  intros Hdev. eexists. split; [|split; [|split]].
  - unfold recordNewTest. rewrite (bind_Ok _ _ _ _ _ Hres).
    rewrite (bind_Ok _ _ _ _ _ (Input_prompt_spec _ _ _ _ _ Hin)).
    erewrite bind_Ok by (apply Select_prompt_spec; exact Hsel).
    rewrite Hdev. reflexivity.
  - cbn [w_trace set_trace set_inputs set_selects]. now rewrite <- app_assoc.
  - cbn [w_trace set_trace set_inputs set_selects]. unfold spawned.
    rewrite !List.filter_app. cbn. now rewrite !app_nil_r.
  - reflexivity.
Qed.

Lemma device_selection_guard_witness :
  let w := Sample.world ∅ Sample.has_playwright ∅ [""] ["tablet"] [] [] in
  (isDeviceType "tablet" = true <-> "tablet" = "pc" \/ "tablet" = "mobile") /\
  (isDeviceType "tablet" = false ->
   exists w2,
     recordNewTest w = (Throw (Error ("Invalid device selection: " +:+ "tablet")), w2) /\
     w_trace w2 = (w_trace (after_probe w "playwright")
                   ++ [EPrompt PInput "Enter target URL";
                       EPrompt PSelect "Select device type"])%list /\
     spawned (w_trace w2) = spawned (w_trace (after_probe w "playwright")) /\
     w_fs w2 = w_fs (after_probe w "playwright")).
Proof.
  apply (device_selection_guard _ _
           {| mode := mode_global; cmd := "playwright"; wrap := fun a => a |}
           "" "tablet" [] []); reflexivity.
Defined.

(** ** Replay: the viewers *)

Lemma set_trace_same w : set_trace (w_trace w) w = w.
Proof. destruct w; reflexivity. Qed.

Lemma run_start_installed w cmd args :
  w_installed w cmd = true ->
  run_start cmd args w =
  (Ok (Pending cmd args), set_trace (w_trace w ++ [ESpawn cmd args])%list w).
Proof.
  intros Hi. unfold run_start, try_catch, bind, Command_spawn. rewrite Hi. reflexivity.
Qed.

(** The loop starts its processes one after the other and waits for none. *)
Lemma start_jobs_installed n : forall w cmd args jobs,
  w_installed w cmd = true ->
  start_jobs n cmd args jobs w =
  (Ok (jobs ++ repeat (Pending cmd args) n)%list,
   set_trace (w_trace w ++ repeat (ESpawn cmd args) n)%list w).
Proof.
  induction n as [|n IH]; intros w cmd args jobs Hi.
  - simpl. rewrite !app_nil_r, set_trace_same. reflexivity.
  - cbn [start_jobs]. rewrite (bind_Ok _ _ _ _ _ (run_start_installed _ _ args Hi)).
    rewrite IH by exact Hi. cbn [w_trace set_trace repeat].
    rewrite <- !app_assoc. reflexivity.
Qed.

Lemma run_await_pending w cmd args :
  run_await (Pending cmd args) w =
  (if (fst (w_run w cmd args (w_fs w)) =? 0)%Z then Ok tt
   else Throw (Error ("Command failed: " +:+ cmd +:+ " " +:+ String.concat " " args)),
   set_trace (w_trace w ++ [EExit cmd args (fst (w_run w cmd args (w_fs w)))])%list
     (set_fs (snd (w_run w cmd args (w_fs w))) w)).
Proof.
  cbv [run_await bind Command_status emit ret throw].
  destruct (w_run w cmd args (w_fs w)) as [code fs]. cbn [fst snd].
  destruct (code =? 0)%Z; reflexivity.
Qed.

(** Joining adds only exit events to the trace, at most one per job. *)
Lemma Promise_all_pending n : forall w cmd args,
  exists exits,
    w_trace (snd (Promise_all (repeat (Pending cmd args) n) w))
      = (w_trace w ++ exits)%list /\
    Forall (is_exit_of cmd args) exits /\
    length exits <= n /\
    (fst (Promise_all (repeat (Pending cmd args) n) w) = Ok tt -> length exits = n).
Proof.
  induction n as [|n IH]; intros w cmd args.
  - exists []. simpl. rewrite app_nil_r. auto.
  - cbn [repeat Promise_all]. unfold bind. rewrite run_await_pending.
    set (code := fst (w_run w cmd args (w_fs w))).
    set (w' := set_trace _ _).
    destruct (code =? 0)%Z.
    + destruct (IH w' cmd args) as (exits & Ht & Hall & Hlen & Hok).
      exists (EExit cmd args code :: exits). rewrite Ht.
      unfold w'. cbn [w_trace set_trace set_fs length]. rewrite <- app_assoc.
      split; [reflexivity|].
      split; [constructor; [now exists code | assumption]|].
      split; [lia|]. intros Hfst. now rewrite Hok.
    + exists [EExit cmd args code]. cbn [fst snd length]. unfold w'.
      split; [reflexivity|].
      split; [constructor; [now exists code | constructor]|].
      split; [lia | discriminate].
Qed.

Lemma filter_spawn_repeat cmd args n :
  List.filter is_spawn (repeat (ESpawn cmd args) n) = repeat (ESpawn cmd args) n.
Proof. induction n as [|n IH]; [reflexivity|]. simpl. now rewrite IH. Qed.

Lemma filter_spawn_exits cmd args exits :
  Forall (is_exit_of cmd args) exits -> List.filter is_spawn exits = [].
Proof.
  induction 1 as [|e exits [code ->] _ IH]; [reflexivity|]. simpl. exact IH.
Qed.

Lemma first_in_range_bounds default lo hi answers n rest :
  (lo <= default <= hi)%Z ->
  first_in_range default lo hi answers = Some (n, rest) ->
  (lo <= n <= hi)%Z.
Proof.
  intros Hd. induction answers as [|[z|] answers IH]; simpl; [discriminate| |].
  - destruct (andb _ _) eqn:Hin; [|exact IH].
    intros [= <- <-]. apply andb_true_iff in Hin as [?%Z.leb_le ?%Z.leb_le]. lia.
  - intros [= <- <-]. exact Hd.
Qed.

Lemma resolve_installed w pw w1 :
  resolvePlaywright w = (Ok pw, w1) -> w_installed w1 (cmd pw) = true.
Proof.
  unfold resolvePlaywright, gets, bind at 1.
  destruct (is_mode "global" _); [|destruct (is_mode "npx" _)]; unfold bind.
  - rewrite tryGlobal_spec. destruct (probe_ok _ _) eqn:Hp; [|discriminate].
    intros [= <- <-]. rewrite after_probe_installed.
    now apply andb_true_iff in Hp as [? _].
  - rewrite tryNpx_spec. destruct (probe_ok _ _) eqn:Hp; [|discriminate].
    intros [= <- <-]. rewrite after_probe_installed.
    now apply andb_true_iff in Hp as [? _].
  - rewrite tryGlobal_spec. destruct (probe_ok _ _) eqn:Hp.
    + intros [= <- <-]. rewrite after_probe_installed.
      now apply andb_true_iff in Hp as [? _].
    + rewrite tryNpx_spec. destruct (probe_ok _ (defaultNPX _)) eqn:Hn; [|discriminate].
      intros [= <- <-]. rewrite !after_probe_installed.
      apply andb_true_iff in Hn as [Hn _]. now rewrite after_probe_installed in Hn.
Qed.

Lemma list_entry_world e w : snd (list_entry e w) = w.
Proof.
  unfold list_entry, bind, get_property, display, ret, throw.
  destruct e as [| | | | |ms]; try reflexivity.
  repeat match goal with
         | |- context [assoc_get ?k ms] => destruct (assoc_get k ms) as [?v|]
         | |- context [displayable ?v] => destruct (displayable v)
         end; reflexivity.
Qed.

Lemma list_entries_world es : forall w, snd (list_entries es w) = w.
Proof.
  induction es as [|e es IH]; intros w; [reflexivity|].
  cbn [list_entries]. unfold bind.
  pose proof (list_entry_world e w) as He.
  destruct (list_entry e w) as [[[]| |] w1]; cbn [snd] in *; subst w1;
    [apply IH | reflexivity | reflexivity].
Qed.

Lemma list_entry_ok e w : listable e = true -> list_entry e w = (Ok tt, w).
Proof.
  unfold list_entry, bind, get_property, display, ret, throw.
  destruct e as [| | | | |ms]; try reflexivity; [discriminate|].
  cbn [listable forallb]. rewrite !andb_true_iff. intros (H1 & H2 & H3 & H4 & _).
  destruct (assoc_get "id" ms); cbn [from_option] in H1; rewrite ?H1;
  destruct (assoc_get "url" ms); cbn [from_option] in H2; rewrite ?H2;
  destruct (assoc_get "device" ms); cbn [from_option] in H3; rewrite ?H3;
  destruct (assoc_get "createdAt" ms); cbn [from_option] in H4; rewrite ?H4;
  reflexivity.
Qed.

Lemma list_entries_ok es : forall w,
  forallb listable es = true -> list_entries es w = (Ok tt, w).
Proof.
  induction es as [|e es IH]; intros w H; [reflexivity|].
  cbn [forallb] in H. apply andb_true_iff in H as [He Hes].
  cbn [list_entries]. rewrite (bind_Ok _ _ _ _ _ (list_entry_ok e w He)). now apply IH.
Qed.

(** What the recorder writes can always be listed. *)
Lemma listable_entry_json e : listable (entry_json e) = true.
Proof. reflexivity. Qed.

(** C7.  When the replay flow reaches the viewers (every entry of the
    history could be listed, the chosen entry names a trace file that is
    there), the count [n] the bounded prompt returns lies in [1, 10], and
    the flow starts exactly [n] trace-viewer processes on the chosen
    entry's trace path, all of them before it waits for any: the trace
    continues with the two prompts, then [n] spawn events, then only exit
    events. *)
Theorem replay_opens_n_viewers (w w1 : World) (pw : PwInvoker) (entries : list json)
        (a : string) (inputs' : list string) (ms : list (string * json))
        (p : string) (n : Z) (numbers' : list (option Z)) :
  resolvePlaywright w = (Ok pw, w1) ->
  loadHistory w1 = (Ok entries, w1) ->
  forallb listable entries = true ->
  w_inputs w1 = a :: inputs' ->
  let count := show_nat (length entries) in
  array_get entries
    (pick_index (length entries) (if Stringify.is_empty a then count else a))
    = Some (JObj ms) ->
  assoc_get "tracePath" ms = Some (JStr p) ->
  is_Some (w_fs w1 !! p) ->
  first_in_range 1 1 10 (w_numbers w1) = Some (n, numbers') ->
  (1 <= n <= 10)%Z /\
  exists exits,
    w_trace (snd (replayTest w)) =
      (w_trace w1
       ++ [EPrompt PInput ("Pick a session (1-" +:+ count +:+ ")");
           EPrompt PNumber "How many trace viewers to open?"]
       ++ repeat (ESpawn (cmd pw) (wrap pw ["show-trace"; p])) (Z.to_nat n)
       ++ exits)%list /\
    Forall (is_exit_of (cmd pw) (wrap pw ["show-trace"; p])) exits /\
    spawned (w_trace (snd (replayTest w))) =
      (spawned (w_trace w1)
       ++ repeat (ESpawn (cmd pw) (wrap pw ["show-trace"; p])) (Z.to_nat n))%list.
Proof.
  intros Hres Hload Hlist Hin count Hget Hpath Hex Hnum.
  split; [apply (first_in_range_bounds 1 1 10 _ _ _ ltac:(lia) Hnum)|].
  assert (Hinst := resolve_installed _ _ _ Hres).
  assert (Hne : entries <> []).
  { intros ->. unfold array_get in Hget.
    destruct (Num.to_index _); simpl in Hget; discriminate. }
  set (args := wrap pw ["show-trace"; p]).
  set (w2 := set_numbers numbers'
               (set_trace (w_trace w1
                  ++ [EPrompt PInput ("Pick a session (1-" +:+ count +:+ ")");
                      EPrompt PNumber "How many trace viewers to open?"])%list
                  (set_inputs inputs' w1))).
  assert (Hflow : replayTest w =
                  bind (start_jobs (Z.to_nat n) (cmd pw) args []) Promise_all w2).
  { unfold replayTest. rewrite (bind_Ok _ _ _ _ _ Hres), (bind_Ok _ _ _ _ _ Hload).
    destruct entries as [|e0 es]; [congruence|].
    rewrite (bind_Ok _ _ _ _ _ (list_entries_ok _ _ Hlist)). fold count.
    rewrite (bind_Ok _ _ _ _ _ (Input_prompt_spec _ _ _ _ _ Hin)).
    rewrite Hget. cbn [get_property]. unfold bind at 1, ret at 1.
    rewrite Hpath. cbn [exists_value]. destruct Hex as [nd Hex].
    erewrite bind_Ok by (apply (exists_present _ _ nd); exact Hex).
    cbn [negb].
    erewrite bind_Ok by (apply NumberPrompt_spec; exact Hnum).
    cbn [path_text]. fold args. unfold w2.
    cbn [set_numbers set_trace set_inputs w_trace w_env w_windows w_fs w_installed
         w_run w_inputs w_selects w_confirms w_numbers w_clock w_ticks w_iso].
    rewrite <- app_assoc. reflexivity. }
  rewrite Hflow.
  rewrite (bind_Ok _ _ _ _ _ (start_jobs_installed (Z.to_nat n) w2 (cmd pw) args [] Hinst)).
  cbn [app].
  match goal with |- context [Promise_all _ ?w'] =>
    destruct (Promise_all_pending (Z.to_nat n) w' (cmd pw) args)
      as (exits & Ht & Hall & _ & _)
  end.
  exists exits.
  assert (Htrace : w_trace (snd (Promise_all (repeat (Pending (cmd pw) args) (Z.to_nat n))
              (set_trace (w_trace w2 ++ repeat (ESpawn (cmd pw) args) (Z.to_nat n))%list w2)))
           = (w_trace w1
              ++ [EPrompt PInput ("Pick a session (1-" +:+ count +:+ ")");
                  EPrompt PNumber "How many trace viewers to open?"]
              ++ repeat (ESpawn (cmd pw) args) (Z.to_nat n) ++ exits)%list).
  { rewrite Ht. cbn [w_trace set_trace w2 set_numbers set_inputs].
    rewrite <- !app_assoc. reflexivity. }
  split; [exact Htrace | split; [exact Hall|]].
  rewrite Htrace. unfold spawned. rewrite !List.filter_app.
  cbn [List.filter is_spawn app].
  rewrite filter_spawn_repeat, (filter_spawn_exits _ _ _ Hall), app_nil_r. reflexivity.
Qed.

Lemma replay_opens_n_viewers_witness :
  let w := Sample.world ∅ Sample.has_playwright Sample.recorded_fs
             ["1"] [] [] [Some 0%Z; Some 3%Z] in
  let viewer := ESpawn "playwright" ["show-trace"; tracePath Sample.entry1] in
  (1 <= 3 <= 10)%Z /\
  exists exits,
    w_trace (snd (replayTest w)) =
      (w_trace (after_probe w "playwright")
       ++ [EPrompt PInput ("Pick a session (1-" +:+ "1" +:+ ")");
           EPrompt PNumber "How many trace viewers to open?"]
       ++ repeat viewer (Z.to_nat 3) ++ exits)%list /\
    Forall (is_exit_of "playwright" ["show-trace"; tracePath Sample.entry1]) exits /\
    spawned (w_trace (snd (replayTest w))) =
      (spawned (w_trace (after_probe w "playwright")) ++ repeat viewer (Z.to_nat 3))%list.
Proof.
  apply (replay_opens_n_viewers
           (Sample.world ∅ Sample.has_playwright Sample.recorded_fs
              ["1"] [] [] [Some 0%Z; Some 3%Z])
           _ Sample.global_invoker [entry_json Sample.entry1] "1" []
           (entry_members Sample.entry1) (tracePath Sample.entry1) 3 []).
  - reflexivity.
  - reflexivity.
  - reflexivity.
  - reflexivity.
  - reflexivity.
  - reflexivity.
  - eexists. reflexivity.
  - reflexivity.
Defined.

(** ** Replay: the selection *)

(** C3, at a failing input.  With one recorded session, typing "abc" at
    the pick prompt makes [Number] return NaN; NaN passes through
    [Math.min] and [Math.max] unclamped, the entry read is [undefined],
    and the flow raises a TypeError on its first property read. *)
Lemma replay_pick_not_a_number :
  let w := Sample.world ∅ Sample.has_playwright Sample.recorded_fs
             ["abc"] [] [] [Some 1%Z] in
  pick_index 1 "abc" = Num.NaN /\
  array_get [entry_json Sample.entry1] (pick_index 1 "abc") = None /\
  fst (replayTest w) = Throw (TypeError "Cannot read properties of undefined").
Proof. repeat split; reflexivity. Qed.

(** The same happens for a number that is not an integer. *)
Lemma replay_pick_fraction :
  let w := Sample.world ∅ Sample.has_playwright Sample.recorded_fs
             ["1.5"] [] [] [Some 1%Z] in
  array_get [entry_json Sample.entry1; entry_json Sample.entry2] (pick_index 2 "1.5") = None.
Proof. reflexivity. Qed.

(** When the typed text denotes an integer, the selection is clamped into
    [1, count] and names an entry. *)
Lemma pick_index_integer (count : nat) (s : string) (z : Z) :
  0 < count ->
  Num.StringToNumber s = Num.of_Z z ->
  Num.to_index (pick_index count s)
  = Some (Z.to_nat (Z.max 1 (Z.min (Z.of_nat count) z) - 1)).
Proof.
  intros Hc Hs. unfold pick_index. rewrite Hs.
  unfold Num.of_Z, Num.of_nat, Num.Math_min, Num.Math_max.
  cbn [Num.lt Num.align]. rewrite !Z.min_id, !Z.sub_diag. cbn [Z.pow]. rewrite !Z.mul_1_r.
  destruct (z <? Z.of_nat count)%Z eqn:H1.
  - apply Z.ltb_lt in H1. cbn [Num.lt Num.align].
    rewrite !Z.min_id, !Z.sub_diag. cbn [Z.pow]. rewrite !Z.mul_1_r.
    destruct (1 <? z)%Z eqn:H2; cbn [Num.sub Num.align Num.to_index];
      rewrite ?Z.min_id, ?Z.sub_diag; cbn [Z.pow Z.leb Z.compare]; rewrite ?Z.mul_1_r.
    + apply Z.ltb_lt in H2.
      destruct (0 <=? z - 1)%Z eqn:H3; [|apply Z.leb_gt in H3; lia].
      f_equal. f_equal. lia.
    + apply Z.ltb_ge in H2. cbn. f_equal. lia.
  - apply Z.ltb_ge in H1. cbn [Num.lt Num.align].
    rewrite !Z.min_id, !Z.sub_diag. cbn [Z.pow]. rewrite !Z.mul_1_r.
    destruct (1 <? Z.of_nat count)%Z eqn:H2; cbn [Num.sub Num.align Num.to_index];
      rewrite ?Z.min_id, ?Z.sub_diag; cbn [Z.pow Z.leb Z.compare]; rewrite ?Z.mul_1_r.
    + apply Z.ltb_lt in H2.
      destruct (0 <=? Z.of_nat count - 1)%Z eqn:H3; [|apply Z.leb_gt in H3; lia].
      f_equal. f_equal. lia.
    + apply Z.ltb_ge in H2. cbn. f_equal. lia.
Qed.

Lemma pick_index_integer_defined (entries : list json) (s : string) (z : Z) :
  entries <> [] ->
  Num.StringToNumber s = Num.of_Z z ->
  is_Some (array_get entries (pick_index (length entries) s)).
Proof.
  intros Hne Hs. unfold array_get.
  assert (Hlen : 0 < length entries) by (destruct entries; [congruence | simpl; lia]).
  rewrite (pick_index_integer _ _ _ Hlen Hs). cbn [mbind option_bind].
  apply lookup_lt_is_Some. lia.
Qed.

(** ** Recorder: the persisted paths *)

Lemma writeTextFile_Ok path txt w w' :
  writeTextFile path txt w = (Ok tt, w') ->
  exists r, w_fs w' !! path = Some (File r txt).
Proof.
  unfold writeTextFile. destruct (forallb _ _); [|discriminate].
  destruct (w_fs w !! path) as [[r c|]|]; intros [= <-]; cbn [w_fs set_fs];
    rewrite lookup_insert_eq; eauto.
Qed.

Lemma appendEntry_Ok e w w' :
  appendEntry e w = (Ok tt, w') ->
  exists prior r,
    w_fs w' !! HISTORY_PATH =
      Some (File r (JSON_stringify2 (JArr (prior ++ [entry_json e])%list))).
Proof.
  unfold appendEntry. intros H.
  apply bind_Ok_inv in H as (prior & w1 & _ & H).
  unfold saveHistory in H. apply bind_Ok_inv in H as ([] & w2 & _ & H).
  apply writeTextFile_Ok in H as [r H]. eauto.
Qed.

(** C10.  Every session the recorder persists carries paths computed from
    its identifier alone: after a successful run the last entry of the
    history file has scriptPath [<sessions root>/<id>/script.spec.ts] and
    tracePath [<sessions root>/<id>/trace.zip]. *)
Theorem recorded_paths_from_id (w : World) :
  fst (recordNewTest w) = Ok tt ->
  exists prior e r,
    w_fs (snd (recordNewTest w)) !! HISTORY_PATH =
      Some (File r (JSON_stringify2 (JArr (prior ++ [entry_json e])%list))) /\
    scriptPath e = SESSIONS_DIR +:+ "/" +:+ id e +:+ "/script.spec.ts" /\
    tracePath e = SESSIONS_DIR +:+ "/" +:+ id e +:+ "/trace.zip".
Proof.
  destruct (recordNewTest w) as [o w'] eqn:H. cbn [fst snd]. intros ->.
  unfold recordNewTest in H.
  apply bind_Ok_inv in H as (pw & w1 & _ & H).
  apply bind_Ok_inv in H as (url0 & w2 & _ & H).
  apply bind_Ok_inv in H as (raw & w3 & _ & H).
  destruct (negb (isDeviceType raw)); [discriminate|]. cbv zeta in H.
  apply bind_Ok_inv in H as (id0 & w4 & _ & H).
  apply bind_Ok_inv in H as ([] & w5 & _ & H).
  apply bind_Ok_inv in H as ([] & w6 & _ & H).
  apply bind_Ok_inv in H as (gen & w7 & _ & H).
  apply bind_Ok_inv in H as ([] & w8 & _ & H).
  apply bind_Ok_inv in H as (fb & w9 & _ & H).
  apply bind_Ok_inv in H as (created & w10 & _ & H).
  apply bind_Ok_inv in H as ([] & w11 & Happend & H).
  apply bind_Ok_inv in H as (present & w12 & Hex & H).
  apply exists_Ok_inv in Hex as ->. injection H as <-.
  apply appendEntry_Ok in Happend as (prior & r & Hfile).
  eexists prior, _, r. split; [exact Hfile|]. split; reflexivity.
Qed.

Lemma recorded_paths_from_id_witness :
  let w := Sample.world ∅ Sample.has_playwright ∅ [""; "first run"] ["mobile"] [true] [] in
  exists prior e r,
    w_fs (snd (recordNewTest w)) !! HISTORY_PATH =
      Some (File r (JSON_stringify2 (JArr (prior ++ [entry_json e])%list))) /\
    scriptPath e = SESSIONS_DIR +:+ "/" +:+ id e +:+ "/script.spec.ts" /\
    tracePath e = SESSIONS_DIR +:+ "/" +:+ id e +:+ "/trace.zip".
Proof.
  apply (recorded_paths_from_id
           (Sample.world ∅ Sample.has_playwright ∅ [""; "first run"] ["mobile"] [true] [])).
  vm_compute. reflexivity.
Defined.

(** * Further properties *)

(** ** Relations a computation keeps *)

Section Keeps.

Context (R : World -> World -> Prop) `{!PreOrder R}.

Lemma keeps_ret {A} (a : A) : keeps R (ret a).
Proof. intros w. reflexivity. Qed.

Lemma keeps_throw {A} (e : exn) : keeps R (@throw A e).
Proof. intros w. reflexivity. Qed.

Lemma keeps_gets {A} (f : World -> A) : keeps R (gets f).
Proof. intros w. reflexivity. Qed.

Lemma keeps_same {A} (m : M A) : (forall w, snd (m w) = w) -> keeps R m.
Proof. intros H w. rewrite H. reflexivity. Qed.

Lemma keeps_bind {A B} (m : M A) (k : A -> M B) :
  keeps R m -> (forall a, keeps R (k a)) -> keeps R (bind m k).
Proof.
  intros Hm Hk w. unfold bind. specialize (Hm w).
  destruct (m w) as [[a|e|] w1]; cbn [snd] in *; try exact Hm.
  etrans; [exact Hm | apply Hk].
Qed.

Lemma keeps_try_catch {A} (m : M A) (h : exn -> M A) :
  keeps R m -> (forall e, keeps R (h e)) -> keeps R (try_catch m h).
Proof.
  intros Hm Hh w. unfold try_catch. specialize (Hm w).
  destruct (m w) as [[a|e|] w1]; cbn [snd] in *; try exact Hm.
  etrans; [exact Hm | apply Hh].
Qed.

End Keeps.

Lemma only_fs_and_trace_preorder : PreOrder only_fs_and_trace.
Proof.
  split.
  - intros [] ; reflexivity.
  - intros w1 w2 w3 H12 H23. unfold only_fs_and_trace in *.
    rewrite H23 at 1. rewrite H12. reflexivity.
Qed.

Lemma unattended_preorder : PreOrder unattended.
Proof.
  destruct only_fs_and_trace_preorder as [Hrefl Htrans]. split.
  - intros w. repeat split; [apply Hrefl | reflexivity].
  - intros w1 w2 w3 (Ha & Hb & Hc) (Ha' & Hb' & Hc'). repeat split.
    + exact (Htrans _ _ _ Ha Ha').
    + etrans; eassumption.
    + congruence.
Qed.

Lemma evolves_preorder : PreOrder evolves.
Proof.
  split.
  - intros w. split; reflexivity.
  - intros w1 w2 w3 [] []. split; try congruence; try (etrans; eassumption).
Qed.

#[local] Existing Instance only_fs_and_trace_preorder.
#[local] Existing Instance unattended_preorder.
#[local] Existing Instance evolves_preorder.

(** *** The primitives *)

Ltac evolves_field :=
  cbn [w_env w_windows w_fs w_installed w_run w_inputs w_selects w_confirms
       w_numbers w_clock w_ticks w_iso w_trace
       set_fs set_trace set_inputs set_selects set_confirms set_numbers set_ticks
       fst snd];
  first [ reflexivity
        | lia
        | apply suffix_cons_r; reflexivity
        | apply suffix_nil
        | apply prefix_app_r; reflexivity ].

Ltac evolves_prim := intros w; split; evolves_field.

Lemma emit_evolves e : keeps evolves (emit e).
Proof. evolves_prim. Qed.

Lemma exists_evolves path : keeps evolves (exists_ path).
Proof. apply keeps_same; [typeclasses eauto | apply exists_world]. Qed.

Lemma list_entries_evolves es : keeps evolves (list_entries es).
Proof. apply keeps_same; [typeclasses eauto | apply list_entries_world]. Qed.

Lemma readTextFile_evolves path : keeps evolves (readTextFile path).
Proof.
  intros w. unfold readTextFile.
  destruct (w_fs w !! path) as [[[] ?|]|]; split; evolves_field.
Qed.

Lemma writeTextFile_evolves path txt : keeps evolves (writeTextFile path txt).
Proof.
  intros w. unfold writeTextFile. destruct (forallb _ _); [|split; evolves_field].
  destruct (w_fs w !! path) as [[? ?|]|]; split; evolves_field.
Qed.

Lemma ensureDir_evolves path : keeps evolves (ensureDir path).
Proof.
  intros w. unfold ensureDir. cbv zeta. destruct (existsb _ _); split; evolves_field.
Qed.

Lemma Command_spawn_evolves cmd args : keeps evolves (Command_spawn cmd args).
Proof.
  intros w. unfold Command_spawn, bind, emit, throw.
  destruct (w_installed w cmd); split; evolves_field.
Qed.

Lemma Command_status_evolves cmd args : keeps evolves (Command_status cmd args).
Proof.
  intros w. unfold Command_status, bind, emit, ret.
  destruct (w_run w cmd args (w_fs w)) as [code fs]. split; evolves_field.
Qed.

Lemma next_input_evolves : keeps evolves next_input.
Proof.
  intros w. unfold next_input. destruct (w_inputs w) eqn:H; split; try evolves_field.
  cbn. rewrite H. apply suffix_cons_r. reflexivity.
Qed.

Lemma next_select_evolves : keeps evolves next_select.
Proof.
  intros w. unfold next_select. destruct (w_selects w) eqn:H; split; try evolves_field.
  cbn. rewrite H. apply suffix_cons_r. reflexivity.
Qed.

Lemma next_confirm_evolves : keeps evolves next_confirm.
Proof.
  intros w. unfold next_confirm. destruct (w_confirms w) eqn:H; split; try evolves_field.
  cbn. rewrite H. apply suffix_cons_r. reflexivity.
Qed.

Lemma first_in_range_suffix default lo hi answers n rest :
  first_in_range default lo hi answers = Some (n, rest) -> rest `suffix_of` answers.
Proof.
  induction answers as [|[z|] answers IH]; simpl; [discriminate| |].
  - destruct (andb _ _).
    + intros [= _ <-]. apply suffix_cons_r. reflexivity.
    + intros H. apply suffix_cons_r. auto.
  - intros [= _ <-]. apply suffix_cons_r. reflexivity.
Qed.

Lemma next_number_evolves default lo hi : keeps evolves (next_number default lo hi).
Proof.
  intros w. unfold next_number.
  destruct (first_in_range _ _ _ _) as [[n rest]|] eqn:H; split; try evolves_field.
  eapply first_in_range_suffix, H.
Qed.

Lemma Date_now_evolves : keeps evolves Date_now.
Proof. intros w. unfold Date_now. split; evolves_field. Qed.

Lemma Date_toISOString_evolves : keeps evolves Date_toISOString.
Proof. intros w. unfold Date_toISOString, bind, Date_now, ret. split; evolves_field. Qed.

Create HintDb keeps.

#[local] Hint Resolve emit_evolves exists_evolves list_entries_evolves readTextFile_evolves writeTextFile_evolves
  ensureDir_evolves Command_spawn_evolves Command_status_evolves next_input_evolves
  next_select_evolves next_confirm_evolves next_number_evolves Date_now_evolves
  Date_toISOString_evolves : keeps.

(** Decompose a goal [keeps R m] along the structure of [m]; [leaf] closes
    the goals about the primitives. *)
Ltac keeps_by leaf :=
  repeat first
    [ solve [leaf]
    | solve [apply keeps_ret; typeclasses eauto]
    | solve [apply keeps_throw; typeclasses eauto]
    | solve [apply keeps_gets; typeclasses eauto]
    | apply keeps_bind; [typeclasses eauto | | intros ?]
    | apply keeps_try_catch; [typeclasses eauto | | intros ?]
    | match goal with
      | |- keeps _ (if ?b then _ else _) => destruct b
      | |- keeps _ (match ?x with _ => _ end) => destruct x
      end
    | progress cbv zeta ].

Ltac keeps_go := keeps_by ltac:(eauto with keeps).

(** *** Every function of the program evolves the world *)

Lemma Input_prompt_evolves message default : keeps evolves (Input_prompt message default).
Proof. unfold Input_prompt. keeps_go. Qed.

Lemma Select_prompt_evolves message options : keeps evolves (Select_prompt message options).
Proof. unfold Select_prompt. keeps_go. Qed.

Lemma Confirm_prompt_evolves message : keeps evolves (Confirm_prompt message).
Proof. unfold Confirm_prompt. keeps_go. Qed.

Lemma NumberPrompt_evolves message default lo hi :
  keeps evolves (NumberPrompt_prompt message default lo hi).
Proof. unfold NumberPrompt_prompt. keeps_go. Qed.

Lemma run_start_evolves cmd args : keeps evolves (run_start cmd args).
Proof. unfold run_start. keeps_go. Qed.

Lemma run_await_evolves p : keeps evolves (run_await p).
Proof. unfold run_await. keeps_go. Qed.

#[local] Hint Resolve Input_prompt_evolves Select_prompt_evolves Confirm_prompt_evolves
  NumberPrompt_evolves run_start_evolves run_await_evolves : keeps.

Lemma run_evolves cmd args : keeps evolves (run cmd args).
Proof. unfold run. keeps_go. Qed.

Lemma whichOk_evolves cmd : keeps evolves (whichOk cmd).
Proof. unfold whichOk. keeps_go. Qed.

#[local] Hint Resolve run_evolves whichOk_evolves : keeps.

Lemma tryGlobal_evolves : keeps evolves tryGlobal.
Proof. unfold tryGlobal. keeps_go. Qed.

Lemma tryNpx_evolves : keeps evolves tryNpx.
Proof. unfold tryNpx. keeps_go. Qed.

#[local] Hint Resolve tryGlobal_evolves tryNpx_evolves : keeps.

Lemma resolvePlaywright_evolves : keeps evolves resolvePlaywright.
Proof. unfold resolvePlaywright. keeps_go. Qed.

Lemma JSON_parse_m_evolves txt : keeps evolves (JSON_parse_m txt).
Proof. unfold JSON_parse_m. keeps_go. Qed.

#[local] Hint Resolve resolvePlaywright_evolves JSON_parse_m_evolves : keeps.

Lemma loadHistory_evolves : keeps evolves loadHistory.
Proof. unfold loadHistory. keeps_go. Qed.

Lemma saveHistory_evolves entries : keeps evolves (saveHistory entries).
Proof. unfold saveHistory. keeps_go. Qed.

Lemma newId_evolves : keeps evolves newId.
Proof. unfold newId. keeps_go. Qed.

#[local] Hint Resolve loadHistory_evolves saveHistory_evolves newId_evolves : keeps.

Lemma appendEntry_evolves e : keeps evolves (appendEntry e).
Proof. unfold appendEntry. keeps_go. Qed.

Lemma get_property_evolves v key : keeps evolves (get_property v key).
Proof. unfold get_property. keeps_go. Qed.

Lemma exists_value_evolves p : keeps evolves (exists_value p).
Proof. unfold exists_value. keeps_go. Qed.

Lemma start_jobs_evolves n : forall cmd args jobs, keeps evolves (start_jobs n cmd args jobs).
Proof.
  induction n as [|n IH]; intros cmd args jobs; cbn [start_jobs]; keeps_go; try apply IH.
Qed.

Lemma Promise_all_evolves jobs : keeps evolves (Promise_all jobs).
Proof. induction jobs as [|p jobs IH]; cbn [Promise_all]; keeps_go; try exact IH. Qed.

#[local] Hint Resolve appendEntry_evolves get_property_evolves exists_value_evolves
  start_jobs_evolves Promise_all_evolves : keeps.

Lemma recordNewTest_evolves : keeps evolves recordNewTest.
Proof. unfold recordNewTest. keeps_go. Qed.

Lemma replayTest_evolves : keeps evolves replayTest.
Proof. unfold replayTest. keeps_go. Qed.

#[local] Hint Resolve recordNewTest_evolves replayTest_evolves : keeps.

Lemma contained_evolves flow : keeps evolves flow -> keeps evolves (contained flow).
Proof. intros H. unfold contained. keeps_go. Qed.

(** ** Menu loop *)

Lemma contained_never_throws flow w e : fst (contained flow w) <> Throw e.
Proof.
  unfold contained, try_catch. destruct (flow w) as [[a| |] w1]; discriminate.
Qed.

Lemma Select_prompt_cases message options w :
  (w_selects w = [] /\ fst (Select_prompt message options w) = Blocked)
  \/ exists a rest,
       w_selects w = a :: rest /\
       Select_prompt message options w =
       (Ok a, set_selects rest
                (set_trace (w_trace w ++ [EPrompt PSelect message])%list w)).
Proof.
  destruct (w_selects w) as [|a rest] eqn:H.
  - left. split; [reflexivity|].
    unfold Select_prompt, bind, emit, next_select. cbn [w_selects set_trace].
    now rewrite H.
  - right. exists a, rest. split; [reflexivity|]. now apply Select_prompt_spec.
Qed.

Lemma menu_loop_step f w :
  menu_loop (S f) w =
  match Select_prompt "GUI Test Recorder CLI (PoC)" menu_options w with
  | (Ok choice, w1) =>
      (if String.eqb choice "record"
       then bind (contained recordNewTest) (fun _ => menu_loop f)
       else if String.eqb choice "replay"
       then bind (contained replayTest) (fun _ => menu_loop f)
       else ret tt) w1
  | (Throw e, w1) => (Throw e, w1)
  | (Blocked, w1) => (Blocked, w1)
  end.
Proof. reflexivity. Qed.

(** With more turns than answers left, one turn more changes nothing: the
    loop never runs out of turns before it runs out of answers. *)
Lemma menu_loop_fuel f : forall w,
  length (w_selects w) < f -> menu_loop f w = menu_loop (S f) w.
Proof.
  induction f as [|f IH]; intros w Hf; [lia|].
  rewrite (menu_loop_step f w), (menu_loop_step (S f) w).
  destruct (Select_prompt_cases "GUI Test Recorder CLI (PoC)" menu_options w)
    as [[Hnil Hb] | (a & rest & Hsel & Hp)].
  - destruct (Select_prompt _ _ w) as [[| |] w1]; cbn [fst] in Hb; try discriminate.
    reflexivity.
  - rewrite Hp. rewrite Hsel in Hf. cbn [length] in Hf.
    assert (Hflow : forall flow, keeps evolves flow ->
              forall w1, length (w_selects w1) < f ->
              bind (contained flow) (fun _ => menu_loop f) w1
              = bind (contained flow) (fun _ => menu_loop (S f)) w1).
    { intros flow Hk w1 Hw1. unfold bind.
      pose proof (contained_evolves flow Hk w1) as Hev.
      destruct (contained flow w1) as [[[]| |] w2]; try reflexivity.
      cbn [snd] in Hev. apply IH.
      destruct Hev as [_ _ _ _ _ _ _ Hs _ _ _ _]. apply suffix_length in Hs. lia. }
    destruct (String.eqb a "record");
      [apply Hflow; [apply recordNewTest_evolves | cbn; lia]|].
    destruct (String.eqb a "replay");
      [apply Hflow; [apply replayTest_evolves | cbn; lia]|].
    reflexivity.
Qed.

Lemma menu_loop_enough f w :
  length (w_selects w) < f -> menu_loop f w = menu_loop (S (length (w_selects w))) w.
Proof.
  induction 1 as [|f Hle IH]; [reflexivity|].
  rewrite <- IH. symmetry. apply menu_loop_fuel. exact Hle.
Qed.

Lemma menu_loop_never_throws f : forall w e, fst (menu_loop f w) <> Throw e.
Proof.
  induction f as [|f IH]; intros w e; [discriminate|].
  rewrite menu_loop_step.
  destruct (Select_prompt_cases "GUI Test Recorder CLI (PoC)" menu_options w)
    as [[Hnil Hb] | (a & rest & Hsel & Hp)].
  - destruct (Select_prompt _ _ w) as [[| |] w1]; cbn [fst] in Hb; try discriminate.
  - rewrite Hp.
    assert (Hflow : forall flow w1,
              fst (bind (contained flow) (fun _ => menu_loop f) w1) <> Throw e).
    { intros flow w1. unfold bind.
      pose proof (contained_never_throws flow w1) as Hc.
      destruct (contained flow w1) as [[[]|e'|] w2]; cbn [fst] in *.
      - apply IH.
      - exfalso. now apply (Hc e').
      - discriminate. }
    destruct (String.eqb a "record"); [apply Hflow|].
    destruct (String.eqb a "replay"); [apply Hflow|].
    discriminate.
Qed.

(** X1.  Error containment.  Once the loop is entered nothing a flow throws
    escapes [mainMenu]: if [mainMenu] ends with an error, that error was
    raised by the start-up steps before the first prompt. *)
Theorem menu_contains_flow_errors (w : World) (e : exn) :
  fst (mainMenu w) = Throw e -> fst (menu_startup w) = Throw e.
Proof.
  unfold mainMenu, bind. destruct (menu_startup w) as [[[]|e'|] w1]; cbn [fst].
  - intros H. exfalso. exact (menu_loop_never_throws _ _ _ H).
  - trivial.
  - discriminate.
Qed.

Lemma menu_contains_flow_errors_witness :
  fst (menu_startup (Sample.world ∅ Sample.has_playwright {[ TESTS_DIR := File true "" ]}
                       [] ["record"] [] []))
  = Throw (IoError SESSIONS_DIR).
Proof.
  apply (menu_contains_flow_errors
           (Sample.world ∅ Sample.has_playwright {[ TESTS_DIR := File true "" ]}
              [] ["record"] [] [])).
  reflexivity.
Defined.

(** ** What runs without the user *)

Lemma only_fs_and_trace_fs w fs : only_fs_and_trace w (set_fs fs w).
Proof. destruct w; reflexivity. Qed.

Lemma only_fs_and_trace_trace w t : only_fs_and_trace w (set_trace t w).
Proof. destruct w; reflexivity. Qed.

Lemma unattended_same w : unattended w w.
Proof. reflexivity. Qed.

Lemma unattended_fs w fs : unattended w (set_fs fs w).
Proof.
  split; [apply only_fs_and_trace_fs|]. split; reflexivity.
Qed.

Lemma unattended_event w e :
  is_prompt e = false -> unattended w (set_trace (w_trace w ++ [e])%list w).
Proof.
  intros He. split; [apply only_fs_and_trace_trace|]. split.
  - apply prefix_app_r. reflexivity.
  - cbn [w_trace set_trace]. unfold prompts. rewrite List.filter_app. cbn [List.filter].
    rewrite He. apply app_nil_r.
Qed.

Lemma exists_unattended path : keeps unattended (exists_ path).
Proof. apply keeps_same; [typeclasses eauto | apply exists_world]. Qed.

Lemma readTextFile_unattended path : keeps unattended (readTextFile path).
Proof.
  intros w. unfold readTextFile.
  destruct (w_fs w !! path) as [[[] ?|]|]; apply unattended_same.
Qed.

Lemma writeTextFile_unattended path txt : keeps unattended (writeTextFile path txt).
Proof.
  intros w. unfold writeTextFile. destruct (forallb _ _); [|apply unattended_same].
  destruct (w_fs w !! path) as [[? ?|]|];
    first [apply unattended_same | apply unattended_fs].
Qed.

Lemma ensureDir_unattended path : keeps unattended (ensureDir path).
Proof.
  intros w. unfold ensureDir. cbv zeta.
  destruct (existsb _ _); [apply unattended_same | apply unattended_fs].
Qed.

Lemma Command_spawn_unattended cmd args : keeps unattended (Command_spawn cmd args).
Proof.
  intros w. unfold Command_spawn, bind, emit, throw.
  destruct (w_installed w cmd); now apply unattended_event.
Qed.

Lemma Command_status_unattended cmd args : keeps unattended (Command_status cmd args).
Proof.
  intros w. unfold Command_status, bind, emit, ret.
  destruct (w_run w cmd args (w_fs w)) as [code fs]. cbn [snd].
  etrans; [apply (unattended_fs w fs)|]. now apply unattended_event.
Qed.

Create HintDb unatt.

#[local] Hint Resolve exists_unattended readTextFile_unattended writeTextFile_unattended
  ensureDir_unattended Command_spawn_unattended Command_status_unattended : unatt.

Ltac unatt_go := keeps_by ltac:(eauto with unatt).

Lemma run_unattended cmd args : keeps unattended (run cmd args).
Proof. unfold run, run_start, run_await. unatt_go. Qed.

Lemma whichOk_unattended cmd : keeps unattended (whichOk cmd).
Proof. unfold whichOk. unatt_go. Qed.

#[local] Hint Resolve run_unattended whichOk_unattended : unatt.

Lemma loadHistory_unattended : keeps unattended loadHistory.
Proof. unfold loadHistory, JSON_parse_m. unatt_go. Qed.

Lemma saveHistory_unattended entries : keeps unattended (saveHistory entries).
Proof. unfold saveHistory. unatt_go. Qed.

Lemma resolvePlaywright_unattended : keeps unattended resolvePlaywright.
Proof. unfold resolvePlaywright, tryGlobal, tryNpx. unatt_go. Qed.

(** X2.  The resolver works without the user.  In every mode and whatever
    the probes answer, [resolvePlaywright] shows no prompt and takes no
    answer: it leaves everything but the file system and the trace as it
    was, and the trace gains no prompt event. *)
Theorem resolve_unattended (w : World) :
  unattended w (snd (resolvePlaywright w)).
Proof. apply resolvePlaywright_unattended. Qed.

(** ** Small utilities: [run] and [whichOk] *)

(** X3.  Outcome of [run].  [run] succeeds exactly when the command could be
    started and exited with status 0.  A command that cannot be started
    fails with the start error; any other exit status fails with the error
    "Command failed: <cmd> <args joined by blanks>".  The command is
    started at most once. *)
Theorem run_outcome (w : World) (cmd : string) (args : list string) :
  fst (run cmd args w) =
    (if w_installed w cmd then
       if (fst (w_run w cmd args (w_fs w)) =? 0)%Z then Ok tt
       else Throw (Error ("Command failed: " +:+ cmd +:+ " " +:+ String.concat " " args))
     else Throw (NotFound cmd))
  /\ spawned (w_trace (snd (run cmd args w))) =
     (spawned (w_trace w) ++ if w_installed w cmd then [ESpawn cmd args] else [])%list.
Proof.
  destruct (w_run w cmd args (w_fs w)) as [code fs] eqn:Hrun.
  cbv [run run_start run_await try_catch bind Command_spawn Command_status emit throw
       ret spawned].
  destruct (w_installed w cmd); cbn [fst snd w_run w_fs w_trace set_trace set_fs].
  - rewrite Hrun. cbn [fst snd w_trace set_trace set_fs].
    destruct (code =? 0)%Z; cbn [fst snd w_trace set_trace set_fs];
      (split; [reflexivity|]);
      rewrite !List.filter_app; cbn [List.filter is_spawn]; now rewrite app_nil_r.
  - split; [reflexivity|].
    rewrite List.filter_app. reflexivity.
Qed.

(** X4.  A probe never fails.  [whichOk] returns a boolean whatever the
    command does: it is [true] exactly when the command could be started
    with [--version] and exited with status 0, and a command that cannot be
    started is a plain [false].  The probe shows no prompt. *)
Theorem whichOk_never_throws (w : World) (cmd : string) :
  exists b : bool,
    fst (whichOk cmd w) = Ok b /\
    (b = true <->
     w_installed w cmd = true /\ fst (w_run w cmd ["--version"] (w_fs w)) = 0%Z) /\
    unattended w (snd (whichOk cmd w)).
Proof.
  exists (probe_ok w cmd). split; [now rewrite whichOk_spec|]. split.
  - unfold probe_ok, version_args. rewrite andb_true_iff, Z.eqb_eq. reflexivity.
  - apply whichOk_unattended.
Qed.

(** ** Binary resolver: the modes *)

Lemma resolve_forced_global w :
  w_env w !! "PLAYWRIGHT_MODE" = Some "global" ->
  resolvePlaywright w =
  (if probe_ok w (defaultPlaywright w)
   then Ok {| mode := mode_global; cmd := defaultPlaywright w; wrap := fun a => a |}
   else Throw (Error err_global_missing),
   after_probe w (defaultPlaywright w)).
Proof.
  intros Hmode. unfold resolvePlaywright, gets, bind. rewrite Hmode.
  change (is_mode "global" (Some "global")) with true.
  cbv beta iota. rewrite tryGlobal_spec.
  destruct (probe_ok w (defaultPlaywright w)); reflexivity.
Qed.

Lemma resolve_auto w :
  is_mode "global" (w_env w !! "PLAYWRIGHT_MODE") = false ->
  is_mode "npx" (w_env w !! "PLAYWRIGHT_MODE") = false ->
  resolvePlaywright w =
  if probe_ok w (defaultPlaywright w)
  then (Ok {| mode := mode_global; cmd := defaultPlaywright w; wrap := fun a => a |},
        after_probe w (defaultPlaywright w))
  else if probe_ok (after_probe w (defaultPlaywright w)) (defaultNPX w)
  then (Ok {| mode := mode_npx; cmd := defaultNPX w; wrap := fun a => "playwright" :: a |},
        after_probe (after_probe w (defaultPlaywright w)) (defaultNPX w))
  else (Throw (Error err_none_found),
        after_probe (after_probe w (defaultPlaywright w)) (defaultNPX w)).
Proof.
  intros Hg Hn. unfold resolvePlaywright, gets, bind at 1. rewrite Hg, Hn.
  cbv iota. unfold bind at 1. rewrite tryGlobal_spec.
  destruct (probe_ok w (defaultPlaywright w)); [reflexivity|].
  unfold bind. rewrite tryNpx_spec, defaultNPX_after_probe.
  destruct (probe_ok _ (defaultNPX w)); reflexivity.
Qed.

(** X5.  A forced mode never falls back.  With the mode forced to "global"
    only the direct binary is probed: the trace gains that one probe and
    nothing else, also when the probe fails and the launcher would have
    been there.  A failed probe ends resolution with the error that names
    the global mode. *)
Theorem forced_global_never_falls_back (w : World) :
  w_env w !! "PLAYWRIGHT_MODE" = Some "global" ->
  let direct := defaultPlaywright w in
  w_trace (snd (resolvePlaywright w)) = (w_trace w ++ probe_events w direct)%list /\
  fst (resolvePlaywright w) =
    if probe_ok w direct
    then Ok {| mode := mode_global; cmd := direct; wrap := fun a => a |}
    else Throw (Error err_global_missing).
Proof.
  intros Hmode direct. rewrite (resolve_forced_global _ Hmode). cbn [fst snd].
  split; [apply after_probe_trace | reflexivity].
Qed.

Lemma forced_global_never_falls_back_witness :
  let w := Sample.world {[ "PLAYWRIGHT_MODE" := "global" ]} Sample.has_npx ∅ [] [] [] [] in
  w_trace (snd (resolvePlaywright w)) = [ESpawnFailed "playwright" ["--version"]] /\
  fst (resolvePlaywright w) = Throw (Error err_global_missing).
Proof.
  exact (forced_global_never_falls_back
           (Sample.world {[ "PLAYWRIGHT_MODE" := "global" ]} Sample.has_npx ∅ [] [] [] [])
           eq_refl).
Defined.

(** X6.  An unrecognised mode is auto-detect.  Any value of the mode
    override other than the exact strings "global" and "npx" is ignored:
    the resolver then prefers the direct binary and falls back to the
    launcher, as with the override unset. *)
Theorem unknown_mode_is_auto_detect (w : World) (v : string) :
  w_env w !! "PLAYWRIGHT_MODE" = Some v ->
  v <> "global" -> v <> "npx" ->
  let direct := defaultPlaywright w in
  let launcher := defaultNPX w in
  let w1 := after_probe w direct in
  let w2 := after_probe w1 launcher in
  resolvePlaywright w =
    if probe_ok w direct
    then (Ok {| mode := mode_global; cmd := direct; wrap := fun a => a |}, w1)
    else if probe_ok w1 launcher
    then (Ok {| mode := mode_npx; cmd := launcher; wrap := fun a => "playwright" :: a |}, w2)
    else (Throw (Error err_none_found), w2).
Proof.
  intros Hmode Hg Hn direct launcher w1 w2.
  apply resolve_auto; rewrite Hmode; cbn [is_mode]; now apply String.eqb_neq.
Qed.

Lemma unknown_mode_is_auto_detect_witness :
  let w := Sample.world {[ "PLAYWRIGHT_MODE" := "NPX" ]} Sample.has_playwright ∅ [] [] [] [] in
  resolvePlaywright w = (Ok Sample.global_invoker, after_probe w "playwright").
Proof.
  refine (unknown_mode_is_auto_detect
            (Sample.world {[ "PLAYWRIGHT_MODE" := "NPX" ]} Sample.has_playwright ∅ [] [] [] [])
            "NPX" eq_refl _ _); discriminate.
Defined.

(** X7.  What a resolved invoker runs.  Whenever the resolver succeeds, the
    command line it stands for is either the direct binary followed by the
    arguments, or the launcher followed by "playwright" and the arguments;
    and that command is one that can be started. *)
Theorem resolved_invoker_shape (w w1 : World) (pw : PwInvoker) :
  resolvePlaywright w = (Ok pw, w1) ->
  w_installed w (cmd pw) = true /\
  ((mode pw = mode_global /\ cmd pw = defaultPlaywright w /\ forall a, wrap pw a = a) \/
   (mode pw = mode_npx /\ cmd pw = defaultNPX w /\ forall a, wrap pw a = "playwright" :: a)).
Proof.
  unfold resolvePlaywright, gets, bind at 1.
  destruct (is_mode "global" _); [|destruct (is_mode "npx" _)]; unfold bind.
  - rewrite tryGlobal_spec. destruct (probe_ok _ _) eqn:Hp; [|discriminate].
    intros [= <- <-]. apply andb_true_iff in Hp as [Hp _]. split; [exact Hp|].
    left. repeat split.
  - rewrite tryNpx_spec. destruct (probe_ok _ _) eqn:Hp; [|discriminate].
    intros [= <- <-]. apply andb_true_iff in Hp as [Hp _]. split; [exact Hp|].
    right. repeat split.
  - rewrite tryGlobal_spec. destruct (probe_ok _ _) eqn:Hp.
    + intros [= <- <-]. apply andb_true_iff in Hp as [Hp _]. split; [exact Hp|].
      left. repeat split.
    + rewrite tryNpx_spec, defaultNPX_after_probe.
      destruct (probe_ok _ (defaultNPX _)) eqn:Hn; [|discriminate].
      intros [= <- <-]. apply andb_true_iff in Hn as [Hn _].
      rewrite after_probe_installed in Hn. split; [exact Hn|].
      right. repeat split.
Qed.

Lemma resolved_invoker_shape_witness :
  let w := Sample.world ∅ Sample.has_npx ∅ [] [] [] [] in
  let pw := {| mode := mode_npx; cmd := "npx"; wrap := fun a => "playwright" :: a |} in
  w_installed w (cmd pw) = true /\
  ((mode pw = mode_global /\ cmd pw = defaultPlaywright w /\ forall a, wrap pw a = a) \/
   (mode pw = mode_npx /\ cmd pw = defaultNPX w /\ forall a, wrap pw a = "playwright" :: a)).
Proof.
  exact (resolved_invoker_shape
           (Sample.world ∅ Sample.has_npx ∅ [] [] [] [])
           (after_probe (after_probe (Sample.world ∅ Sample.has_npx ∅ [] [] [] []) "playwright") "npx")
           {| mode := mode_npx; cmd := "npx"; wrap := fun a => "playwright" :: a |}
           eq_refl).
Defined.

(** ** Menu: start-up *)

Lemma sessions_not_history : SESSIONS_DIR <> HISTORY_PATH.
Proof. discriminate. Qed.

Lemma tests_not_sessions : TESTS_DIR <> SESSIONS_DIR.
Proof. discriminate. Qed.

Lemma ensure_sessions w :
  is_file (w_fs w) TESTS_DIR = false ->
  is_file (w_fs w) SESSIONS_DIR = false ->
  ensureDir SESSIONS_DIR w =
  (Ok tt, set_fs (<[TESTS_DIR := Dir]> (<[SESSIONS_DIR := Dir]> (w_fs w))) w).
Proof.
  intros Ht Hs. unfold ensureDir.
  change (ancestors SESSIONS_DIR) with [TESTS_DIR].
  cbn [app existsb foldr]. now rewrite Ht, Hs.
Qed.

Lemma history_after_sessions (fs : gmap string node) :
  <[TESTS_DIR := Dir]> (<[SESSIONS_DIR := Dir]> fs) !! HISTORY_PATH = fs !! HISTORY_PATH.
Proof.
  rewrite lookup_insert_ne by exact tests_not_history.
  now rewrite lookup_insert_ne by exact sessions_not_history.
Qed.

(** X8.  First start.  When neither [tests] nor [tests/sessions] is a file
    and there is no history file yet, the start-up steps of [mainMenu]
    succeed, the sessions directory exists afterwards, and the history
    file holds the text of the empty array, which [loadHistory] reads back
    as the empty history. *)
Theorem menu_startup_creates_history (w : World) :
  is_file (w_fs w) TESTS_DIR = false ->
  is_file (w_fs w) SESSIONS_DIR = false ->
  w_fs w !! HISTORY_PATH = None ->
  exists w',
    menu_startup w = (Ok tt, w') /\
    is_dir (w_fs w') SESSIONS_DIR = true /\
    w_fs w' !! HISTORY_PATH = Some (File true "[]") /\
    loadHistory w' = (Ok [], w').
Proof.
  intros Ht Hs Hh. unfold menu_startup.
  pose proof (ensure_sessions w Ht Hs) as He.
  set (w1 := set_fs (<[TESTS_DIR := Dir]> (<[SESSIONS_DIR := Dir]> (w_fs w))) w) in *.
  assert (Hh1 : w_fs w1 !! HISTORY_PATH = None).
  { unfold w1. cbn [w_fs set_fs]. now rewrite history_after_sessions. }
  assert (Hu : store_usable (w_fs w1)).
  { split; [|now rewrite Hh1].
    unfold w1, is_file. cbn [w_fs set_fs]. now rewrite lookup_insert_eq. }
  eexists. split; [|split; [|split]].
  - rewrite (bind_Ok _ _ _ _ _ He). unfold bind at 1.
    rewrite (exists_history_absent _ Hh1), (proj1 Hu).
    cbn [negb]. apply (saveHistory_usable w1 [] Hu).
  - unfold is_dir. cbn [w_fs set_fs].
    rewrite lookup_insert_ne by (symmetry; exact sessions_not_history).
    rewrite lookup_insert_ne by exact tests_not_sessions.
    unfold w1. cbn [w_fs set_fs].
    rewrite lookup_insert_ne by exact tests_not_sessions.
    now rewrite lookup_insert_eq.
  - cbn [w_fs set_fs]. now rewrite lookup_insert_eq.
  - apply (loadHistory_readable _ "[]").
    cbn [w_fs set_fs]. now rewrite lookup_insert_eq.
Qed.

Lemma menu_startup_creates_history_witness :
  exists w',
    menu_startup (Sample.world ∅ Sample.has_playwright ∅ [] [] [] []) = (Ok tt, w') /\
    is_dir (w_fs w') SESSIONS_DIR = true /\
    w_fs w' !! HISTORY_PATH = Some (File true "[]") /\
    loadHistory w' = (Ok [], w').
Proof.
  exact (menu_startup_creates_history (Sample.world ∅ Sample.has_playwright ∅ [] [] [] [])
           eq_refl eq_refl eq_refl).
Defined.

(** X9.  Later starts.  A node already at the history path is never
    rewritten by the start-up steps, whether or not it can be read or
    parsed: the history survives a restart. *)
Theorem menu_startup_keeps_history (w : World) (n : node) :
  is_file (w_fs w) TESTS_DIR = false ->
  is_file (w_fs w) SESSIONS_DIR = false ->
  w_fs w !! HISTORY_PATH = Some n ->
  fst (menu_startup w) = Ok tt /\
  w_fs (snd (menu_startup w)) !! HISTORY_PATH = Some n.
Proof.
  intros Ht Hs Hh. unfold menu_startup.
  rewrite (bind_Ok _ _ _ _ _ (ensure_sessions w Ht Hs)).
  unfold bind, exists_. cbn [w_fs set_fs]. rewrite history_after_sessions, Hh.
  cbn [negb ret fst snd w_fs set_fs]. split; [reflexivity|].
  now rewrite history_after_sessions.
Qed.

Lemma menu_startup_keeps_history_witness :
  let w := Sample.world ∅ Sample.has_playwright
             {[ HISTORY_PATH := File false "not json" ]} [] [] [] [] in
  fst (menu_startup w) = Ok tt /\
  w_fs (snd (menu_startup w)) !! HISTORY_PATH = Some (File false "not json").
Proof.
  exact (menu_startup_keeps_history
           (Sample.world ∅ Sample.has_playwright
              {[ HISTORY_PATH := File false "not json" ]} [] [] [] [])
           (File false "not json") eq_refl eq_refl eq_refl).
Defined.

(** X10.  A start-up failure is fatal.  The start-up steps run outside the
    loop's error handling: when [tests] or [tests/sessions] is a file,
    [mainMenu] ends with the error of [ensureDir] at once, with no prompt
    shown and nothing written. *)
Theorem menu_startup_failure_is_fatal (w : World) :
  is_file (w_fs w) TESTS_DIR = true \/ is_file (w_fs w) SESSIONS_DIR = true ->
  mainMenu w = (Throw (IoError SESSIONS_DIR), w).
Proof.
  intros H. unfold mainMenu, menu_startup.
  apply bind_Throw, bind_Throw. unfold ensureDir.
  change (ancestors SESSIONS_DIR) with [TESTS_DIR].
  cbn [app existsb]. destruct H as [-> | ->]; [reflexivity|].
  now rewrite orb_true_r.
Qed.

Lemma menu_startup_failure_is_fatal_witness :
  let w := Sample.world ∅ Sample.has_playwright {[ SESSIONS_DIR := File true "" ]}
             [] ["exit"] [] [] in
  mainMenu w = (Throw (IoError SESSIONS_DIR), w).
Proof.
  refine (menu_startup_failure_is_fatal
            (Sample.world ∅ Sample.has_playwright {[ SESSIONS_DIR := File true "" ]}
               [] ["exit"] [] []) _).
  right. reflexivity.
Defined.

(** ** What the flows leave alone in the file system *)

Lemma kept_at_preorder p : PreOrder (kept_at p).
Proof.
  split.
  - intros w _. split; reflexivity.
  - intros w1 w2 w3 H12 H23 Hs. destruct (H12 Hs) as [Hr Hf].
    assert (Hs2 : spares p w2) by (unfold spares; rewrite Hr; exact Hs).
    destruct (H23 Hs2) as [Hr' Hf']. split; congruence.
Qed.

#[local] Existing Instance kept_at_preorder.

Lemma kept_at_same p w w' :
  w_run w' = w_run w -> w_fs w' = w_fs w -> kept_at p w w'.
Proof. intros Hr Hf _. now rewrite Hr, Hf. Qed.

Ltac kept_prim := intros w; apply kept_at_same; reflexivity.

Lemma emit_kept p e : keeps (kept_at p) (emit e).
Proof. kept_prim. Qed.

Lemma exists_kept p path : keeps (kept_at p) (exists_ path).
Proof. apply keeps_same; [typeclasses eauto | apply exists_world]. Qed.

Lemma list_entries_kept p es : keeps (kept_at p) (list_entries es).
Proof. apply keeps_same; [typeclasses eauto | apply list_entries_world]. Qed.

Lemma readTextFile_kept p path : keeps (kept_at p) (readTextFile path).
Proof.
  intros w. unfold readTextFile.
  destruct (w_fs w !! path) as [[[] ?|]|]; apply kept_at_same; reflexivity.
Qed.

Lemma writeTextFile_kept p path txt :
  path <> p -> keeps (kept_at p) (writeTextFile path txt).
Proof.
  intros Hne w. unfold writeTextFile. destruct (forallb _ _); [|reflexivity].
  destruct (w_fs w !! path) as [[? ?|]|]; try reflexivity;
    intros _; cbn [snd w_run w_fs set_fs]; (split; [reflexivity|]);
    now rewrite lookup_insert_ne.
Qed.

Lemma lookup_mkdirs (fs : gmap string node) p chain :
  p ∉ chain -> foldr (fun d fs => <[d := Dir]> fs) fs chain !! p = fs !! p.
Proof.
  induction chain as [|d chain IH]; [reflexivity|].
  intros Hp. apply not_elem_of_cons in Hp as [Hne Hp]. cbn [foldr].
  rewrite lookup_insert_ne by congruence. now apply IH.
Qed.

Lemma ensureDir_kept p path :
  p ∉ (ancestors path ++ [path])%list -> keeps (kept_at p) (ensureDir path).
Proof.
  intros Hp w. unfold ensureDir. cbv zeta. destruct (existsb _ _); [reflexivity|].
  intros _. cbn [snd w_run w_fs set_fs]. split; [reflexivity|]. now apply lookup_mkdirs.
Qed.

Lemma Command_spawn_kept p cmd args : keeps (kept_at p) (Command_spawn cmd args).
Proof.
  intros w. unfold Command_spawn, bind, emit, throw.
  destruct (w_installed w cmd); apply kept_at_same; reflexivity.
Qed.

Lemma Command_status_kept p cmd args : keeps (kept_at p) (Command_status cmd args).
Proof.
  intros w Hs. unfold Command_status, bind, emit, ret.
  specialize (Hs cmd args (w_fs w)).
  destruct (w_run w cmd args (w_fs w)) as [code fs]. cbn [snd] in *.
  split; [reflexivity | exact Hs].
Qed.

Lemma next_input_kept p : keeps (kept_at p) next_input.
Proof. intros w. unfold next_input. destruct (w_inputs w); apply kept_at_same; reflexivity. Qed.

Lemma next_select_kept p : keeps (kept_at p) next_select.
Proof. intros w. unfold next_select. destruct (w_selects w); apply kept_at_same; reflexivity. Qed.

Lemma next_confirm_kept p : keeps (kept_at p) next_confirm.
Proof.
  intros w. unfold next_confirm. destruct (w_confirms w); apply kept_at_same; reflexivity.
Qed.

Lemma next_number_kept p default lo hi : keeps (kept_at p) (next_number default lo hi).
Proof.
  intros w. unfold next_number.
  destruct (first_in_range _ _ _ _) as [[? ?]|]; apply kept_at_same; reflexivity.
Qed.

Lemma Date_now_kept p : keeps (kept_at p) Date_now.
Proof. kept_prim. Qed.

Lemma Date_toISOString_kept p : keeps (kept_at p) Date_toISOString.
Proof. kept_prim. Qed.

Create HintDb kept.

#[local] Hint Resolve emit_kept exists_kept list_entries_kept readTextFile_kept Command_spawn_kept
  Command_status_kept next_input_kept next_select_kept next_confirm_kept next_number_kept
  Date_now_kept Date_toISOString_kept : kept.

Ltac kept_go := keeps_by ltac:(eauto with kept).

Lemma run_start_kept p cmd args : keeps (kept_at p) (run_start cmd args).
Proof. unfold run_start. kept_go. Qed.

Lemma run_await_kept p j : keeps (kept_at p) (run_await j).
Proof. unfold run_await. kept_go. Qed.

#[local] Hint Resolve run_start_kept run_await_kept : kept.

Lemma run_kept p cmd args : keeps (kept_at p) (run cmd args).
Proof. unfold run. kept_go. Qed.

Lemma resolvePlaywright_kept p : keeps (kept_at p) resolvePlaywright.
Proof. unfold resolvePlaywright, tryGlobal, tryNpx, whichOk. kept_go. Qed.

Lemma loadHistory_kept p : keeps (kept_at p) loadHistory.
Proof. unfold loadHistory, JSON_parse_m. kept_go. Qed.

Lemma Input_prompt_kept p message default : keeps (kept_at p) (Input_prompt message default).
Proof. unfold Input_prompt. kept_go. Qed.

Lemma Select_prompt_kept p message options :
  keeps (kept_at p) (Select_prompt message options).
Proof. unfold Select_prompt. kept_go. Qed.

Lemma Confirm_prompt_kept p message : keeps (kept_at p) (Confirm_prompt message).
Proof. unfold Confirm_prompt. kept_go. Qed.

Lemma NumberPrompt_kept p message default lo hi :
  keeps (kept_at p) (NumberPrompt_prompt message default lo hi).
Proof. unfold NumberPrompt_prompt. kept_go. Qed.

Lemma start_jobs_kept p n : forall cmd args jobs,
  keeps (kept_at p) (start_jobs n cmd args jobs).
Proof. induction n as [|n IH]; intros; cbn [start_jobs]; kept_go. Qed.

Lemma Promise_all_kept p jobs : keeps (kept_at p) (Promise_all jobs).
Proof. induction jobs as [|j jobs IH]; cbn [Promise_all]; kept_go. Qed.

#[local] Hint Resolve run_kept resolvePlaywright_kept loadHistory_kept Input_prompt_kept
  Select_prompt_kept Confirm_prompt_kept NumberPrompt_kept start_jobs_kept
  Promise_all_kept : kept.

(** X11.  Replay is read-only.  The replay flow itself writes nothing: every
    path that the child processes it starts leave alone holds after the
    flow what it held before, however the flow ends. *)
Theorem replay_never_writes (w : World) (p : string) :
  spares p w ->
  w_fs (snd (replayTest w)) !! p = w_fs w !! p.
Proof.
  intros Hs. revert w Hs.
  assert (H : keeps (kept_at p) replayTest).
  { unfold replayTest, get_property, exists_value. kept_go. }
  intros w Hs. exact (proj2 (H w Hs)).
Qed.

Lemma replay_never_writes_witness :
  let w := Sample.world ∅ Sample.has_playwright Sample.recorded_fs [""] [] [] [Some 2%Z] in
  w_fs (snd (replayTest w)) !! HISTORY_PATH = w_fs w !! HISTORY_PATH.
Proof.
  refine (replay_never_writes
            (Sample.world ∅ Sample.has_playwright Sample.recorded_fs [""] [] [] [Some 2%Z])
            HISTORY_PATH _).
  intros c a fs. reflexivity.
Defined.

(** *** The recorder writes the history last *)

Section KeepsOr.

Context (R : World -> World -> Prop) `{!PreOrder R}.

Lemma keeps_or_of_keeps {A} (E : outcome A -> World -> Prop) (m : M A) :
  keeps R m -> keeps_or R E m.
Proof. intros Hm w. left. apply Hm. Qed.

Lemma keeps_or_bind {A B} (E : outcome B -> World -> Prop) (m : M A) (k : A -> M B) :
  keeps R m -> (forall a, keeps_or R E (k a)) -> keeps_or R E (bind m k).
Proof.
  intros Hm Hk w. unfold bind. specialize (Hm w).
  destruct (m w) as [[a|e|] w1]; cbn [fst snd] in *; try (left; exact Hm).
  destruct (Hk a w1) as [H|H]; [left; etrans; eassumption | right; exact H].
Qed.

End KeepsOr.

Lemma ancestors_from_prefix rest : forall seen d,
  d ∈ ancestors_from seen rest -> exists q, d = seen +:+ q.
Proof.
  induction rest as [|c r IH]; intros seen d; cbn [ancestors_from].
  - intros H. now apply elem_of_nil in H.
  - destruct (Ascii.eqb c "/").
    + intros H. apply elem_of_app in H as [H|H].
      * destruct (Stringify.is_empty seen); [now apply elem_of_nil in H|].
        apply elem_of_cons in H as [->|H]; [|now apply elem_of_nil in H].
        exists "". now rewrite sapp_nil_r.
      * apply IH in H as [q ->]. exists ("/" +:+ q). now rewrite sapp_assoc.
    + intros H. apply IH in H as [q ->]. exists (String c q). now rewrite sapp_assoc.
Qed.

Lemma session_chain_not_history id0 :
  HISTORY_PATH ∉ (ancestors (SESSIONS_DIR +:+ "/" +:+ id0)
                    ++ [SESSIONS_DIR +:+ "/" +:+ id0])%list.
Proof.
  intros H. apply elem_of_app in H as [H|H].
  - change (ancestors (SESSIONS_DIR +:+ "/" +:+ id0))
      with ("tests" :: "tests/sessions" :: ancestors_from "tests/sessions/" id0) in H.
    apply elem_of_cons in H as [H|H]; [discriminate H|].
    apply elem_of_cons in H as [H|H]; [discriminate H|].
    apply ancestors_from_prefix in H as [q H]. discriminate H.
  - apply elem_of_cons in H as [H|H]; [discriminate H | now apply elem_of_nil in H].
Qed.

Lemma ensure_session_kept id0 :
  keeps (kept_at HISTORY_PATH) (ensureDir (SESSIONS_DIR +:+ "/" +:+ id0)).
Proof. apply ensureDir_kept, session_chain_not_history. Qed.

Lemma write_tracegen_kept id0 txt :
  keeps (kept_at HISTORY_PATH)
        (writeTextFile ((SESSIONS_DIR +:+ "/" +:+ id0) +:+ "/tracegen.js") txt).
Proof. apply writeTextFile_kept. discriminate. Qed.

Lemma newId_kept p : keeps (kept_at p) newId.
Proof. unfold newId. kept_go. Qed.

#[local] Hint Resolve ensure_session_kept write_tracegen_kept newId_kept : kept.

Lemma append_tail_keeps_or entry session :
  keeps_or (kept_at HISTORY_PATH) (fun o w' => o = Ok tt \/ saved_unreported o w')
    (bind (appendEntry entry)
          (fun _ => bind (exists_ (session +:+ "/trace.zip")) (fun _ => ret tt))).
Proof.
  intros w. destruct (appendEntry entry w) as [[[]|e|] w1] eqn:Ha.
  - rewrite (bind_Ok _ _ _ _ _ Ha). right.
    apply appendEntry_Ok in Ha as (prior & r & Hfile).
    pose proof (exists_world (session +:+ "/trace.zip") w1) as Hw.
    destruct (exists_ (session +:+ "/trace.zip") w1) as [[b|e|] w2] eqn:He;
      cbn [snd] in Hw; subst w2.
    + rewrite (bind_Ok _ _ _ _ _ He). now left.
    + rewrite (bind_Throw _ _ _ _ _ He). right. cbn [fst snd].
      split; [|now exists prior, entry, r].
      exists session. f_equal.
      unfold exists_ in He.
      destruct (w_fs w1 !! (session +:+ "/trace.zip")); [discriminate|].
      destruct (existsb _ _); congruence.
    + unfold exists_ in He.
      destruct (w_fs w1 !! (session +:+ "/trace.zip")); [discriminate|].
      destruct (existsb _ _); discriminate.
  - rewrite (bind_Throw _ _ _ _ _ Ha). left. cbn [snd]. intros Hs.
    assert (K : keeps (kept_at HISTORY_PATH) (ensureDir TESTS_DIR)).
    { apply ensureDir_kept. rewrite ancestors_tests. cbn [app].
      intros H. apply elem_of_cons in H as [H|H];
        [discriminate H | now apply elem_of_nil in H]. }
    revert Ha. unfold appendEntry, bind at 1.
    destruct (loadHistory_cases w) as [[items Hl] | (_ & _ & Hl)]; rewrite Hl;
      [|intros [= _ <-]; split; reflexivity].
    unfold saveHistory, bind. specialize (K w Hs).
    destruct (ensureDir TESTS_DIR w) as [[[]|e'|] w2]; cbn [snd] in K;
      [|intros [= _ <-]; exact K | discriminate].
    destruct K as [Kr Kf]. unfold writeTextFile.
    destruct (forallb _ _); [|intros [= _ <-]; split; [exact Kr | exact Kf]].
    destruct (w_fs w2 !! HISTORY_PATH) as [[? ?|]|] eqn:E; try discriminate.
    intros [= _ <-]. split; [exact Kr | now rewrite E].
  - exfalso. revert Ha. unfold appendEntry, bind at 1.
    destruct (loadHistory_cases w) as [[items Hl] | (_ & _ & Hl)]; rewrite Hl;
      [|discriminate].
    unfold saveHistory, bind.
    destruct (ensureDir TESTS_DIR w) as [[[]|e'|] w2] eqn:He; try discriminate.
    + unfold writeTextFile. destruct (forallb _ _); [|discriminate].
      destruct (w_fs w2 !! HISTORY_PATH) as [[? ?|]|]; discriminate.
    + unfold ensureDir in He. cbv zeta in He. destruct (existsb _ _); discriminate.
Qed.

Lemma recordNewTest_keeps_or :
  keeps_or (kept_at HISTORY_PATH) (fun o w' => o = Ok tt \/ saved_unreported o w')
           recordNewTest.
Proof.
  unfold recordNewTest.
  do 3 (apply keeps_or_bind; [typeclasses eauto | solve [eauto with kept] | intros ?]).
  destruct (negb _); [apply keeps_or_of_keeps, keeps_throw; typeclasses eauto|].
  cbv zeta.
  do 4 (apply keeps_or_bind; [typeclasses eauto | solve [eauto with kept] | intros ?]).
  apply keeps_or_bind; [typeclasses eauto | kept_go | intros ?].
  do 2 (apply keeps_or_bind; [typeclasses eauto | solve [eauto with kept] | intros ?]).
  apply append_tail_keeps_or.
Qed.

(** The closing look-up can fail after the entry was saved: here the
    recording process turns the session directory into a file, the
    recording ends with the error of the look-up, and the history file has
    been written all the same. *)
Lemma recording_saved_then_failed :
  let w := Sample.meddled [""; ""] ["pc"] [false] in
  spares HISTORY_PATH w /\
  fst (recordNewTest w) = Throw (IoError "tests/sessions/1753927438951/trace.zip") /\
  w_fs w !! HISTORY_PATH = None /\
  is_Some (w_fs (snd (recordNewTest w)) !! HISTORY_PATH).
Proof.
  split; [|split; [|split]].
  - intros c a fs. cbn [w_run Sample.meddled]. unfold Sample.meddling_run.
    destruct (existsb _ _); cbn [snd]; [|reflexivity].
    now rewrite lookup_insert_ne by discriminate.
  - vm_compute. reflexivity.
  - reflexivity.
  - vm_compute. eexists. reflexivity.
Qed.

(** X12.  The history is written last.  A recording that does not complete
    (an error, or the user never answering) leaves the history file as it
    was, provided the child processes do not touch it: the flow writes the
    history as its last change, after every step that can fail but one.
    The exception is the closing look-up of the trace file, which runs
    after the entry was saved: when that is what failed, the history file
    holds the appended entry. *)
Theorem failed_recording_leaves_history (w : World) :
  spares HISTORY_PATH w ->
  fst (recordNewTest w) <> Ok tt ->
  w_fs (snd (recordNewTest w)) !! HISTORY_PATH = w_fs w !! HISTORY_PATH \/
  saved_unreported (fst (recordNewTest w)) (snd (recordNewTest w)).
Proof.
  intros Hs Hf. destruct (recordNewTest_keeps_or w) as [H | [H | H]].
  - left. exact (proj2 (H Hs)).
  - contradiction.
  - right. exact H.
Qed.

Lemma failed_recording_leaves_history_witness :
  let w := Sample.world ∅ Sample.has_playwright Sample.recorded_fs
             ["https://example.org"] ["pc"] [] [] in
  w_fs (snd (recordNewTest w)) !! HISTORY_PATH = w_fs w !! HISTORY_PATH \/
  saved_unreported (fst (recordNewTest w)) (snd (recordNewTest w)).
Proof.
  refine (failed_recording_leaves_history
            (Sample.world ∅ Sample.has_playwright Sample.recorded_fs
               ["https://example.org"] ["pc"] [] []) _ _).
  - intros c a fs. reflexivity.
  - vm_compute. discriminate.
Defined.


(** ** Replay: decimal answers *)

Lemma rev_app_rev_app a : forall b c,
  String.rev_app (String.rev_app a b) c = String.rev_app b (a +:+ c).
Proof.
  induction a as [|x a IH]; intros b c; cbn [String.rev_app String.append]; [reflexivity|].
  now rewrite IH.
Qed.

Lemma rev_involutive s : String.rev (String.rev s) = s.
Proof. unfold String.rev. rewrite rev_app_rev_app. cbn [String.rev_app]. apply sapp_nil_r. Qed.

Lemma all_digits_rev_app a : forall b,
  all_digits a = true -> all_digits b = true -> all_digits (String.rev_app a b) = true.
Proof.
  induction a as [|x a IH]; intros b Ha Hb; cbn [String.rev_app all_digits] in *; [exact Hb|].
  apply andb_true_iff in Ha as [Hx Ha]. apply IH; [exact Ha|].
  cbn [all_digits]. now rewrite Hx, Hb.
Qed.

Lemma digit_is_plain c :
  Char.is_digit c = true ->
  (Num.is_ws1 c = false /\
   (forall a b, Num.is_ws2 c a = false /\ Num.is_ws2 a c = false /\
                Num.is_ws3 c a b = false /\ Num.is_ws3 a b c = false)) /\
  forall x, x ∈ ["x"; "X"; "o"; "O"; "b"; "B"; "-"; "+"; "I"]%char -> Ascii.eqb c x = false.
Proof.
  intros Hc. split; [split|].
  - destruct c as [[] [] [] [] [] [] [] []]; try discriminate Hc; reflexivity.
  - intros a b. unfold Num.is_ws2, Num.is_ws3. cbv zeta.
    destruct c as [[] [] [] [] [] [] [] []]; try discriminate Hc;
      cbn; rewrite ?andb_false_r; repeat split; reflexivity.
  - intros x Hx. repeat (apply elem_of_cons in Hx as [->|Hx]);
      [..|now apply elem_of_nil in Hx];
      destruct c as [[] [] [] [] [] [] [] []]; try discriminate Hc; reflexivity.
Qed.

Lemma trim_with_digits two three s :
  (forall c a b, Char.is_digit c = true -> two c a = false /\ three c a b = false) ->
  all_digits s = true -> Num.trim_with two three s = s.
Proof.
  intros Hno. destruct s as [|c r]; [reflexivity|]. cbn [all_digits Num.trim_with].
  intros H. apply andb_true_iff in H as [Hc _].
  rewrite (proj1 (proj1 (digit_is_plain c Hc))).
  destruct r as [|a r2]; [reflexivity|]. rewrite (proj1 (Hno c a a Hc)).
  destruct r2 as [|b r3]; [reflexivity|]. now rewrite (proj2 (Hno c a b Hc)).
Qed.

Lemma trim_start_digits s : all_digits s = true -> Num.trim_start s = s.
Proof.
  apply trim_with_digits. intros c a b Hc.
  destruct (proj2 (proj1 (digit_is_plain c Hc)) a b) as (? & _ & ? & _). now split.
Qed.

Lemma trim_digits s : all_digits s = true -> Num.trim s = s.
Proof.
  intros H. unfold Num.trim. rewrite (trim_start_digits s H).
  rewrite trim_with_digits; [apply rev_involutive| |].
  - intros c a b Hc.
    destruct (proj2 (proj1 (digit_is_plain c Hc)) b a) as (_ & _ & _ & ?).
    destruct (proj2 (proj1 (digit_is_plain c Hc)) a a) as (_ & ? & _ & _). now split.
  - unfold String.rev. now apply all_digits_rev_app.
Qed.

Lemma span_digits_all s : all_digits s = true -> Parse.span_digits s = (s, "").
Proof.
  induction s as [|c r IH]; [reflexivity|]. cbn [all_digits Parse.span_digits].
  intros H. apply andb_true_iff in H as [Hc Hr]. now rewrite Hc, (IH Hr).
Qed.

Lemma unsigned_decimal_digits c r :
  all_digits (String c r) = true ->
  Num.unsigned_decimal (String c r) = Some (Num.Fin (Z.of_N (digits_value 0 (String c r))) 0).
Proof.
  intros H. unfold Num.unsigned_decimal.
  assert (Hc : Char.is_digit c = true).
  { cbn [all_digits] in H. now apply andb_true_iff in H as [? _]. }
  assert (HI : String.eqb (String c r) "Infinity" = false).
  { cbn [String.eqb]. rewrite (proj2 (digit_is_plain c Hc) "I"%char); [reflexivity|].
    repeat constructor. }
  rewrite HI, (span_digits_all _ H). cbn [Stringify.is_empty andb Num.exponent].
  rewrite sapp_nil_r. reflexivity.
Qed.

Lemma StringToNumber_digits s :
  s <> "" -> all_digits s = true ->
  Num.StringToNumber s = Num.of_Z (Z.of_N (digits_value 0 s)).
Proof.
  intros Hne H. unfold Num.StringToNumber. rewrite (trim_digits s H).
  destruct s as [|c r]; [congruence|].
  rewrite (unsigned_decimal_digits c r H).
  assert (Hc : Char.is_digit c = true).
  { cbn [all_digits] in H. now apply andb_true_iff in H as [? _]. }
  destruct r as [|x digits]; [reflexivity|].
  assert (Hx : Char.is_digit x = true).
  { cbn [all_digits] in H. apply andb_true_iff in H as [_ H].
    now apply andb_true_iff in H as [? _]. }
  pose proof (proj2 (digit_is_plain x Hx)) as Px.
  pose proof (proj2 (digit_is_plain c Hc)) as Pc.
  rewrite (Px "x"%char), (Px "X"%char), (Px "o"%char), (Px "O"%char),
    (Px "b"%char), (Px "B"%char), (Pc "-"%char), (Pc "+"%char)
    by (repeat constructor).
  rewrite !andb_false_r. reflexivity.
Qed.

Lemma all_digits_uint d : all_digits (NilEmpty.string_of_uint d) = true.
Proof. induction d; cbn [NilEmpty.string_of_uint all_digits]; try exact IHd; reflexivity. Qed.

Lemma digits_value_uint d : forall a : nat,
  digits_value (N.of_nat a) (NilEmpty.string_of_uint d) = N.of_nat (Nat.of_uint_acc d a).
Proof.
  induction d; intros a; cbn [NilEmpty.string_of_uint digits_value Nat.of_uint_acc];
    [reflexivity|..];
    rewrite <- IHd, Nat.tail_mul_spec; f_equal;
    match goal with |- (_ + Char.digit_val ?c = _)%N =>
      let v := eval vm_compute in (Char.digit_val c) in
      change (Char.digit_val c) with v end;
    lia.
Qed.

Lemma show_nat_digits n :
  show_nat n <> "" /\ all_digits (show_nat n) = true /\
  digits_value 0 (show_nat n) = N.of_nat n.
Proof.
  unfold show_nat, NilZero.string_of_uint.
  pose proof (Unsigned.of_to n) as Hn. unfold Nat.of_uint in Hn.
  pose proof (digits_value_uint (Nat.to_uint n) 0) as Hv. rewrite Hn in Hv.
  destruct (Nat.to_uint n); cbv iota.
  1: { cbn in Hn. subst n. split; [discriminate | split; reflexivity]. }
  all: split; [cbn [NilEmpty.string_of_uint]; discriminate
              | split; [apply all_digits_uint | exact Hv]].
Qed.

Lemma StringToNumber_show_nat n : Num.StringToNumber (show_nat n) = Num.of_Z (Z.of_nat n).
Proof.
  destruct (show_nat_digits n) as (Hne & Hd & Hv).
  rewrite (StringToNumber_digits _ Hne Hd), Hv. now rewrite nat_N_Z.
Qed.

(** X13.  Decimal answers are clamped, and the default is the latest session.
    When the answer at the pick prompt is the decimal text of a natural
    number [k], the flow reads the entry at position [k] clamped into
    [1, count] (counting from 1), which exists.  The prompt's default
    answer is the count itself, so an empty line picks the last entry. *)
Theorem replay_pick_decimal (entries : list json) (k : nat) :
  entries <> [] ->
  array_get entries (pick_index (length entries) (show_nat k))
    = entries !! (Nat.max 1 (Nat.min (length entries) k) - 1) /\
  is_Some (array_get entries (pick_index (length entries) (show_nat k))) /\
  array_get entries (pick_index (length entries) (show_nat (length entries)))
    = last entries.
Proof.
  intros Hne.
  assert (Hlen : 0 < length entries) by (destruct entries; [congruence | simpl; lia]).
  assert (Hget : forall j,
    array_get entries (pick_index (length entries) (show_nat j))
    = entries !! (Nat.max 1 (Nat.min (length entries) j) - 1)).
  { intros j. unfold array_get.
    rewrite (pick_index_integer _ _ _ Hlen (StringToNumber_show_nat j)).
    cbn [mbind option_bind]. f_equal. lia. }
  split; [apply Hget|]. split.
  - rewrite Hget. apply lookup_lt_is_Some. lia.
  - rewrite Hget, last_lookup. f_equal. lia.
Qed.

Lemma replay_pick_decimal_witness :
  let entries := [entry_json Sample.entry1; entry_json Sample.entry2] in
  array_get entries (pick_index 2 "7") = entries !! 1 /\
  is_Some (array_get entries (pick_index 2 "7")) /\
  array_get entries (pick_index 2 "2") = last entries.
Proof.
  refine (replay_pick_decimal [entry_json Sample.entry1; entry_json Sample.entry2] 7 _).
  discriminate.
Defined.

(** ** Session store: what it touches *)

(** X14.  Loading fails only at the look-up.  [loadHistory] never changes
    the world, and every failure of reading or parsing is absorbed: it
    returns a list, except in the one state in which the existence check
    itself fails, the history file missing below a [tests] that is a file;
    there it raises the error of the check. *)
Theorem load_fails_only_at_the_lookup (w : World) :
  snd (loadHistory w) = w /\
  ((exists items, fst (loadHistory w) = Ok items) /\
   ~ (w_fs w !! HISTORY_PATH = None /\ is_file (w_fs w) TESTS_DIR = true)
   \/
   fst (loadHistory w) = Throw (IoError HISTORY_PATH) /\
   w_fs w !! HISTORY_PATH = None /\ is_file (w_fs w) TESTS_DIR = true).
Proof.
  destruct (loadHistory_cases w) as [[items H] | (Hn & Ht & H)].
  - rewrite H. split; [reflexivity|]. left. split; [now exists items|].
    intros [Hn Ht]. rewrite (loadHistory_below_file _ Hn Ht) in H. discriminate.
  - rewrite H. split; [reflexivity|]. right. now repeat split.
Qed.

(** X15.  Saving touches the store only.  Whether it succeeds or fails,
    [saveHistory] changes nothing but the file system, and there nothing
    but the history file and the directory that holds it. *)
Theorem save_touches_only_store (w : World) (entries : list json) :
  exists fs',
    snd (saveHistory entries w) = set_fs fs' w /\
    forall p, p <> HISTORY_PATH -> p <> TESTS_DIR -> fs' !! p = w_fs w !! p.
Proof.
  unfold saveHistory, bind, ensureDir. cbv zeta.
  rewrite ancestors_tests. cbn [app foldr].
  destruct (existsb _ _).
  { exists (w_fs w). split; [destruct w; reflexivity | reflexivity]. }
  unfold writeTextFile. cbn [w_fs set_fs].
  destruct (forallb _ _).
  - destruct (_ !! HISTORY_PATH) as [[? ?|]|]; eexists; (split; [reflexivity|]);
      intros p Hh Ht; rewrite ?lookup_insert_ne by congruence; reflexivity.
  - eexists. split; [reflexivity|].
    intros p Hh Ht. now rewrite lookup_insert_ne by congruence.
Qed.

(** ** Replay: nothing to show *)

(** X16.  Empty history.  When the resolver succeeds and the history loads as
    empty, the replay flow returns at once: no prompt, no viewer, and the
    world is the one the resolver left. *)
Theorem replay_empty_history (w w1 : World) (pw : PwInvoker) :
  resolvePlaywright w = (Ok pw, w1) ->
  fst (loadHistory w1) = Ok [] ->
  replayTest w = (Ok tt, w1) /\ unattended w w1.
Proof.
  intros Hres Hload.
  destruct (loadHistory_cases w1) as [[items Hl] | (_ & _ & Hl)];
    rewrite Hl in Hload; [|discriminate].
  injection Hload as ->. split.
  - unfold replayTest. now rewrite (bind_Ok _ _ _ _ _ Hres), (bind_Ok _ _ _ _ _ Hl).
  - pose proof (resolvePlaywright_unattended w) as U. now rewrite Hres in U.
Qed.

Lemma replay_empty_history_witness :
  let w := Sample.world ∅ Sample.has_playwright {[ HISTORY_PATH := File true "{}" ]}
             ["1"] [] [] [Some 1%Z] in
  replayTest w = (Ok tt, after_probe w "playwright") /\
  unattended w (after_probe w "playwright").
Proof.
  exact (replay_empty_history
           (Sample.world ∅ Sample.has_playwright {[ HISTORY_PATH := File true "{}" ]}
              ["1"] [] [] [Some 1%Z])
           _ Sample.global_invoker eq_refl eq_refl).
Defined.

(** X17.  Missing trace.  When every entry of the history can be listed
    and the existence check answers that the trace file of the chosen
    entry is not there, the replay flow returns normally right after the
    pick prompt: the count is never asked for, no answer to it is taken,
    and no viewer is started. *)
Theorem replay_missing_trace (w w1 : World) (pw : PwInvoker) (entries : list json)
        (a : string) (inputs' : list string) (ms : list (string * json)) (p : string) :
  resolvePlaywright w = (Ok pw, w1) ->
  loadHistory w1 = (Ok entries, w1) ->
  forallb listable entries = true ->
  w_inputs w1 = a :: inputs' ->
  let count := show_nat (length entries) in
  array_get entries
    (pick_index (length entries) (if Stringify.is_empty a then count else a))
    = Some (JObj ms) ->
  assoc_get "tracePath" ms = Some (JStr p) ->
  fst (exists_ p w1) = Ok false ->
  replayTest w =
    (Ok tt,
     set_inputs inputs'
       (set_trace (w_trace w1 ++ [EPrompt PInput ("Pick a session (1-" +:+ count +:+ ")")])%list
          w1)).
Proof.
  intros Hres Hload Hlist Hin count Hget Hpath Hnone.
  assert (Hne : entries <> []).
  { intros ->. unfold array_get in Hget.
    destruct (Num.to_index _); simpl in Hget; discriminate. }
  unfold replayTest. rewrite (bind_Ok _ _ _ _ _ Hres), (bind_Ok _ _ _ _ _ Hload).
  destruct entries as [|e0 es]; [congruence|].
  rewrite (bind_Ok _ _ _ _ _ (list_entries_ok _ _ Hlist)). fold count.
  rewrite (bind_Ok _ _ _ _ _ (Input_prompt_spec _ _ _ _ _ Hin)).
  rewrite Hget. cbn [get_property]. unfold bind at 1, ret at 1.
  rewrite Hpath. cbn [exists_value]. unfold bind at 1.
  revert Hnone. unfold exists_. cbn [w_fs set_trace set_inputs].
  destruct (w_fs w1 !! p); [discriminate|].
  destruct (existsb _ _); [discriminate|]. reflexivity.
Qed.

Lemma replay_missing_trace_witness :
  let w := Sample.world ∅ Sample.has_playwright
             {[ HISTORY_PATH := File true (JSON_stringify2 (JArr [entry_json Sample.entry1])) ]}
             [""] [] [] [Some 2%Z] in
  replayTest w =
    (Ok tt,
     set_inputs []
       (set_trace (w_trace (after_probe w "playwright")
                   ++ [EPrompt PInput ("Pick a session (1-" +:+ "1" +:+ ")")])%list
          (after_probe w "playwright"))).
Proof.
  exact (replay_missing_trace
           (Sample.world ∅ Sample.has_playwright
              {[ HISTORY_PATH :=
                   File true (JSON_stringify2 (JArr [entry_json Sample.entry1])) ]}
              [""] [] [] [Some 2%Z])
           _ Sample.global_invoker [entry_json Sample.entry1] "" []
           (entry_members Sample.entry1) (tracePath Sample.entry1)
           eq_refl eq_refl eq_refl eq_refl eq_refl eq_refl eq_refl).
Defined.

(** ** Recorder: the entry holds the answers *)

Lemma steady_refl w : steady w w.
Proof. repeat split. Qed.

Lemma steady_trans w1 w2 w3 : steady w1 w2 -> steady w2 w3 -> steady w1 w3.
Proof. unfold steady. intros (?&?&?&?&?) (?&?&?&?&?). repeat split; congruence. Qed.

Lemma steady_step {A} (m : M A) w a w' :
  keeps unattended m -> m w = (Ok a, w') -> steady w w'.
Proof.
  intros Hk Hm. pose proof (Hk w) as [U _]. rewrite Hm in U. cbn [snd] in U.
  unfold only_fs_and_trace in U. rewrite U. repeat split.
Qed.

Lemma Input_prompt_inv message d w v w' :
  Input_prompt message d w = (Ok v, w') ->
  exists a, w_inputs w = a :: w_inputs w' /\
            v = (if Stringify.is_empty a then d else a) /\
            w_selects w' = w_selects w /\ w_ticks w' = w_ticks w /\
            w_clock w' = w_clock w /\ w_iso w' = w_iso w.
Proof.
  unfold Input_prompt, bind, emit, next_input, ret. cbn [w_inputs set_trace].
  destruct (w_inputs w) as [|a rest]; [discriminate|].
  intros [= <- <-]. exists a. repeat split.
Qed.

Lemma Select_prompt_inv message options w v w' :
  Select_prompt message options w = (Ok v, w') ->
  w_selects w = v :: w_selects w' /\
  w_inputs w' = w_inputs w /\ w_ticks w' = w_ticks w /\
  w_clock w' = w_clock w /\ w_iso w' = w_iso w.
Proof.
  unfold Select_prompt, bind, emit, next_select. cbn [w_selects set_trace].
  destruct (w_selects w) as [|a rest]; [discriminate|].
  intros [= <- <-]. repeat split.
Qed.

Lemma Confirm_prompt_steady message w v w' :
  Confirm_prompt message w = (Ok v, w') -> steady w w'.
Proof.
  unfold Confirm_prompt, bind, emit, next_confirm. cbn [w_confirms set_trace].
  destruct (w_confirms w) as [|a rest]; [discriminate|].
  intros [= <- <-]. repeat split.
Qed.

Lemma Date_now_inv w t w' :
  Date_now w = (Ok t, w') ->
  t = w_clock w (w_ticks w) /\ w_ticks w' = S (w_ticks w) /\
  w_inputs w' = w_inputs w /\ w_selects w' = w_selects w /\
  w_clock w' = w_clock w /\ w_iso w' = w_iso w.
Proof. unfold Date_now. intros [= <- <-]. repeat split. Qed.

Lemma appendEntry_unattended e : keeps unattended (appendEntry e).
Proof.
  unfold appendEntry. apply keeps_bind; [typeclasses eauto | apply loadHistory_unattended|].
  intros ?. apply saveHistory_unattended.
Qed.

(** X18.  The entry holds the answers.  Whenever a recording completes, the
    user had given a URL line, a device choice and a feedback line, and the
    entry appended to the history file carries them: the URL typed (or the
    default on an empty line), the device chosen, the feedback verbatim,
    the identifier read from the clock when the device was accepted, and
    the timestamp of the next clock reading.  Exactly those two lines of
    free text were taken. *)
Theorem recorded_entry_holds_answers (w : World) :
  fst (recordNewTest w) = Ok tt ->
  exists prior e r a b x srest,
    w_inputs w = a :: b :: w_inputs (snd (recordNewTest w)) /\
    w_selects w = x :: srest /\
    w_fs (snd (recordNewTest w)) !! HISTORY_PATH =
      Some (File r (JSON_stringify2 (JArr (prior ++ [entry_json e])%list))) /\
    url e = (if Stringify.is_empty a then "https://example.com" else a) /\
    device_name (device e) = x /\
    feedback e = b /\
    id e = show_N (w_clock w (w_ticks w)) /\
    createdAt e = w_iso w (w_clock w (S (w_ticks w))).
Proof.
  destruct (recordNewTest w) as [o w'] eqn:H. cbn [fst snd]. intros ->.
  unfold recordNewTest in H.
  apply bind_Ok_inv in H as (pw & w1 & H1 & H).
  apply bind_Ok_inv in H as (url0 & w2 & H2 & H).
  apply bind_Ok_inv in H as (raw & w3 & H3 & H).
  destruct (negb (isDeviceType raw)) eqn:Hdev; [discriminate|]. cbv zeta in H.
  apply bind_Ok_inv in H as (id0 & w4 & H4 & H).
  apply bind_Ok_inv in H as ([] & w5 & H5 & H).
  apply bind_Ok_inv in H as ([] & w6 & H6 & H).
  apply bind_Ok_inv in H as (gen & w7 & H7 & H).
  apply bind_Ok_inv in H as ([] & w8 & H8 & H).
  apply bind_Ok_inv in H as (fb & w9 & H9 & H).
  apply bind_Ok_inv in H as (created & w10 & H10 & H).
  apply bind_Ok_inv in H as ([] & w11 & Happend & H).
  apply bind_Ok_inv in H as (present & w12 & Hex & H).
  apply exists_Ok_inv in Hex as ->. injection H as <-.
  apply (steady_step _ _ _ _ resolvePlaywright_unattended) in H1 as (I1 & S1 & T1 & C1 & O1).
  apply Input_prompt_inv in H2 as (a & I2 & -> & S2 & T2 & C2 & O2).
  apply Select_prompt_inv in H3 as (S3 & I3 & T3 & C3 & O3).
  unfold newId in H4. apply bind_Ok_inv in H4 as (t & w4' & H4 & Hid).
  injection Hid as <- <-.
  apply Date_now_inv in H4 as (-> & T4 & I4 & S4 & C4 & O4).
  apply (steady_step _ _ _ _ (ensureDir_unattended _)) in H5 as (I5 & S5 & T5 & C5 & O5).
  apply (steady_step _ _ _ _ (run_unattended _ _)) in H6 as (I6 & S6 & T6 & C6 & O6).
  apply Confirm_prompt_steady in H7 as (I7 & S7 & T7 & C7 & O7).
  apply steady_step in H8 as (I8 & S8 & T8 & C8 & O8); [|destruct gen; unatt_go].
  apply Input_prompt_inv in H9 as (b & I9 & -> & S9 & T9 & C9 & O9).
  unfold Date_toISOString in H10. apply bind_Ok_inv in H10 as (t & w10' & H10 & Hc).
  injection Hc as <- <-.
  apply Date_now_inv in H10 as (-> & T10 & I10 & S10 & C10 & O10).
  pose proof (steady_step _ _ _ _ (appendEntry_unattended _) Happend)
    as (I11 & S11 & T11 & C11 & O11).
  apply appendEntry_Ok in Happend as (prior & r & Hfile).
  apply negb_false_iff, isDeviceType_spec in Hdev.
  eexists prior, _, r, a, b, raw, (w_selects w3).
  split; [congruence|]. split; [congruence|]. split; [exact Hfile|].
  cbn [url device feedback id createdAt].
  split; [reflexivity|]. split; [destruct Hdev as [-> | ->]; reflexivity|].
  split; [now destruct b|]. split; congruence.
Qed.

Lemma recorded_entry_holds_answers_witness :
  let w := Sample.world ∅ Sample.has_playwright ∅
             [""; "first run"; "left over"] ["mobile"] [false] [] in
  exists prior e r a b x srest,
    w_inputs w = a :: b :: w_inputs (snd (recordNewTest w)) /\
    w_selects w = x :: srest /\
    w_fs (snd (recordNewTest w)) !! HISTORY_PATH =
      Some (File r (JSON_stringify2 (JArr (prior ++ [entry_json e])%list))) /\
    url e = (if Stringify.is_empty a then "https://example.com" else a) /\
    device_name (device e) = x /\
    feedback e = b /\
    id e = show_N (w_clock w (w_ticks w)) /\
    createdAt e = w_iso w (w_clock w (S (w_ticks w))).
Proof.
  apply (recorded_entry_holds_answers
           (Sample.world ∅ Sample.has_playwright ∅
              [""; "first run"; "left over"] ["mobile"] [false] [])).
  vm_compute. reflexivity.
Defined.

(** ** Recorder: the recording process *)

Lemma bind_assoc {A B C} (m : M A) (f : A -> M B) (k : B -> M C) w :
  bind (bind m f) k w = bind m (fun a => bind (f a) k) w.
Proof. unfold bind. destruct (m w) as [[a|e|] w1]; reflexivity. Qed.

Lemma newId_spec w :
  newId w = (Ok (show_N (w_clock w (w_ticks w))), set_ticks (S (w_ticks w)) w).
Proof. reflexivity. Qed.

Lemma ensureDir_spec path w :
  existsb (is_file (w_fs w)) (ancestors path ++ [path])%list = false ->
  ensureDir path w =
  (Ok tt, set_fs (foldr (fun d fs => <[d := Dir]> fs) (w_fs w)
                    (ancestors path ++ [path])%list) w).
Proof. intros H. unfold ensureDir. cbv zeta. now rewrite H. Qed.

(** X19.  What the recorder launches.  Once the resolver has succeeded, the
    user has typed a URL and chosen a valid device, and the session
    directory can be created, the flow starts the resolved command on
    [codegen <url> --output <session>/script.spec.ts --device <preset>]
    (behind "playwright" when the launcher is used), right after the two
    prompts and before anything else it shows or starts. *)
Theorem record_launches_codegen (w w1 : World) (pw : PwInvoker) (a x : string)
        (rest srest : list string) :
  resolvePlaywright w = (Ok pw, w1) ->
  w_inputs w1 = a :: rest ->
  w_selects w1 = x :: srest ->
  isDeviceType x = true ->
  let url0 := if Stringify.is_empty a then "https://example.com" else a in
  let sessionDir := SESSIONS_DIR +:+ "/" +:+ show_N (w_clock w1 (w_ticks w1)) in
  existsb (is_file (w_fs w1)) (ancestors sessionDir ++ [sessionDir])%list = false ->
  exists later,
    w_trace (snd (recordNewTest w)) =
      (w_trace w1
       ++ [EPrompt PInput "Enter target URL"; EPrompt PSelect "Select device type";
           ESpawn (cmd pw)
             (wrap pw ["codegen"; url0; "--output"; sessionDir +:+ "/script.spec.ts";
                       "--device"; devicePreset (as_device x)])]
       ++ later)%list.
Proof.
  intros Hres Hin Hsel Hdev url0 sessionDir Hdir.
  assert (Hinst := resolve_installed _ _ _ Hres).
  unfold recordNewTest. rewrite (bind_Ok _ _ _ _ _ Hres).
  rewrite (bind_Ok _ _ _ _ _ (Input_prompt_spec _ _ _ _ _ Hin)).
  erewrite bind_Ok by (apply Select_prompt_spec; exact Hsel).
  rewrite Hdev. cbn [negb]. cbv zeta.
  rewrite (bind_Ok _ _ _ _ _ (newId_spec _)).
  erewrite bind_Ok by (apply ensureDir_spec; exact Hdir).
  unfold run. rewrite bind_assoc.
  erewrite bind_Ok by (apply run_start_installed; exact Hinst).
  match goal with
  | |- context [snd (?m ?w5)] =>
      assert (Hk : keeps evolves m) by keeps_go;
      destruct (ev_trace _ _ (Hk w5)) as [later Hl]
  end.
  exists later. rewrite Hl.
  cbn [w_trace w_clock w_ticks set_trace set_fs set_inputs set_selects set_ticks].
  rewrite <- !app_assoc. reflexivity.
Qed.

Lemma record_launches_codegen_witness :
  let w := Sample.world ∅ Sample.has_npx ∅ ["http://localhost:3000"; ""] ["mobile"]
             [false] [] in
  exists later,
    w_trace (snd (recordNewTest w)) =
      (w_trace (after_probe (after_probe w "playwright") "npx")
       ++ [EPrompt PInput "Enter target URL"; EPrompt PSelect "Select device type";
           ESpawn "npx"
             ["playwright"; "codegen"; "http://localhost:3000"; "--output";
              "tests/sessions/1753927438951/script.spec.ts"; "--device"; "iPhone 13"]]
       ++ later)%list.
Proof.
  exact (record_launches_codegen
           (Sample.world ∅ Sample.has_npx ∅ ["http://localhost:3000"; ""] ["mobile"]
              [false] [])
           _ {| mode := mode_npx; cmd := "npx"; wrap := fun a => "playwright" :: a |}
           "http://localhost:3000" "mobile" [""] []
           eq_refl eq_refl eq_refl eq_refl eq_refl).
Defined.

(** ** Recorder: the processes it starts *)

Lemma calm_preorder : PreOrder calm.
Proof.
  split.
  - intros w. repeat split.
  - intros w1 w2 w3 (?&?&?&?) (?&?&?&?). repeat split; congruence.
Qed.

#[local] Existing Instance calm_preorder.

Lemma calm_same_trace w w' :
  w_trace w' = w_trace w -> w_confirms w' = w_confirms w ->
  w_env w' = w_env w -> w_windows w' = w_windows w -> calm w w'.
Proof. intros Ht ? ? ?. repeat split; try assumption. now rewrite Ht. Qed.

Ltac calm_prim := apply calm_same_trace; reflexivity.

Lemma prompt_calm kind message : keeps calm (emit (EPrompt kind message)).
Proof.
  intros w. unfold emit. cbn [snd]. repeat split.
  cbn [w_trace set_trace]. unfold spawned. rewrite List.filter_app. apply app_nil_r.
Qed.

Lemma exists_calm path : keeps calm (exists_ path).
Proof. apply keeps_same; [typeclasses eauto | apply exists_world]. Qed.

Lemma readTextFile_calm path : keeps calm (readTextFile path).
Proof.
  intros w. unfold readTextFile. destruct (w_fs w !! path) as [[[] ?|]|]; calm_prim.
Qed.

Lemma writeTextFile_calm path txt : keeps calm (writeTextFile path txt).
Proof.
  intros w. unfold writeTextFile. destruct (forallb _ _); [|calm_prim].
  destruct (w_fs w !! path) as [[? ?|]|]; calm_prim.
Qed.

Lemma ensureDir_calm path : keeps calm (ensureDir path).
Proof. intros w. unfold ensureDir. cbv zeta. destruct (existsb _ _); calm_prim. Qed.

Lemma next_input_calm : keeps calm next_input.
Proof. intros w. unfold next_input. destruct (w_inputs w); calm_prim. Qed.

Lemma next_select_calm : keeps calm next_select.
Proof. intros w. unfold next_select. destruct (w_selects w); calm_prim. Qed.

Lemma Date_now_calm : keeps calm Date_now.
Proof. intros w. calm_prim. Qed.

Lemma Date_toISOString_calm : keeps calm Date_toISOString.
Proof. intros w. calm_prim. Qed.

Create HintDb calm.

#[local] Hint Resolve prompt_calm exists_calm readTextFile_calm writeTextFile_calm
  ensureDir_calm next_input_calm next_select_calm Date_now_calm Date_toISOString_calm : calm.

Ltac calm_go := keeps_by ltac:(eauto with calm).

Lemma Input_prompt_calm message d : keeps calm (Input_prompt message d).
Proof. unfold Input_prompt. calm_go. Qed.

Lemma Select_prompt_calm message options : keeps calm (Select_prompt message options).
Proof. unfold Select_prompt. calm_go. Qed.

Lemma newId_calm : keeps calm newId.
Proof. unfold newId. calm_go. Qed.

Lemma appendEntry_calm e : keeps calm (appendEntry e).
Proof. unfold appendEntry, loadHistory, saveHistory, JSON_parse_m. calm_go. Qed.

Lemma calm_step {A} (m : M A) w a w' : keeps calm m -> m w = (Ok a, w') -> calm w w'.
Proof. intros Hk Hm. pose proof (Hk w) as H. now rewrite Hm in H. Qed.

Lemma run_spawned cmd args w :
  spawned (w_trace (snd (run cmd args w))) =
  (spawned (w_trace w) ++ if w_installed w cmd then [ESpawn cmd args] else [])%list.
Proof.
  destruct (w_run w cmd args (w_fs w)) as [code fs] eqn:Hrun.
  cbv [run run_start run_await try_catch bind Command_spawn Command_status emit throw
       ret spawned].
  destruct (w_installed w cmd); cbn [fst snd w_run w_fs w_trace set_trace set_fs].
  - rewrite Hrun. cbn [fst snd w_trace set_trace set_fs].
    destruct (code =? 0)%Z; cbn [fst snd w_trace set_trace set_fs];
      rewrite !List.filter_app; cbn [List.filter is_spawn]; now rewrite app_nil_r.
  - rewrite List.filter_app. reflexivity.
Qed.

Lemma run_Ok_inv cmd args w w' :
  run cmd args w = (Ok tt, w') ->
  spawned (w_trace w') = (spawned (w_trace w) ++ [ESpawn cmd args])%list /\
  w_confirms w' = w_confirms w /\ w_env w' = w_env w /\ w_windows w' = w_windows w.
Proof.
  intros H. pose proof (run_spawned cmd args w) as Hs.
  pose proof (run_unattended cmd args w) as [U _]. rewrite H in Hs, U. cbn [snd] in Hs, U.
  assert (Hi : w_installed w cmd = true).
  { revert H. cbv [run run_start run_await try_catch bind Command_spawn emit throw ret].
    destruct (w_installed w cmd); [reflexivity | discriminate]. }
  rewrite Hi in Hs. split; [exact Hs|].
  unfold only_fs_and_trace in U. rewrite U. repeat split.
Qed.

Lemma Confirm_prompt_inv message w g w' :
  Confirm_prompt message w = (Ok g, w') ->
  exists crest, w_confirms w = g :: crest /\
    spawned (w_trace w') = spawned (w_trace w) /\
    w_env w' = w_env w /\ w_windows w' = w_windows w.
Proof.
  unfold Confirm_prompt, bind, emit, next_confirm. cbn [w_confirms set_trace].
  destruct (w_confirms w) as [|a crest]; [discriminate|].
  intros [= <- <-]. exists crest. repeat split.
  cbn [w_trace set_trace set_confirms]. unfold spawned.
  rewrite List.filter_app. apply app_nil_r.
Qed.

(** X20.  The processes of a recording.  Whenever a recording completes,
    beyond the resolver's probes the flow has started exactly one codegen
    process, the resolved command on
    [codegen <url> --output <session>/script.spec.ts --device <preset>]
    for the URL typed and the device chosen, and, only when the user
    answered yes to the trace question, one more: the node binary on the
    helper script [tracegen.js] in the session's own directory. *)
Theorem record_starts_codegen_then_helper (w : World) :
  fst (recordNewTest w) = Ok tt ->
  exists pw w1 a irest x srest g crest,
    resolvePlaywright w = (Ok pw, w1) /\
    w_inputs w = a :: irest /\
    w_selects w = x :: srest /\
    w_confirms w = g :: crest /\
    let session := SESSIONS_DIR +:+ "/" +:+ show_N (w_clock w (w_ticks w)) in
    spawned (w_trace (snd (recordNewTest w))) =
      (spawned (w_trace w1)
       ++ ESpawn (cmd pw)
            (wrap pw ["codegen";
                      if Stringify.is_empty a then "https://example.com" else a;
                      "--output"; session +:+ "/script.spec.ts";
                      "--device"; devicePreset (as_device x)])
       :: (if g then [ESpawn (defaultNode w) [session +:+ "/tracegen.js"]] else []))%list.
Proof.
  destruct (recordNewTest w) as [o w'] eqn:H. cbn [fst snd]. intros ->.
  unfold recordNewTest in H.
  apply bind_Ok_inv in H as (pw & w1 & H1 & H).
  apply bind_Ok_inv in H as (url0 & w2 & H2 & H).
  apply bind_Ok_inv in H as (raw & w3 & H3 & H).
  destruct (negb (isDeviceType raw)); [discriminate|]. cbv zeta in H.
  apply bind_Ok_inv in H as (id0 & w4 & H4 & H).
  apply bind_Ok_inv in H as ([] & w5 & H5 & H).
  apply bind_Ok_inv in H as ([] & w6 & H6 & H).
  apply bind_Ok_inv in H as (gen & w7 & H7 & H).
  apply bind_Ok_inv in H as ([] & w8 & H8 & H).
  apply bind_Ok_inv in H as (fb & w9 & H9 & H).
  apply bind_Ok_inv in H as (created & w10 & H10 & H).
  apply bind_Ok_inv in H as ([] & w11 & Happend & H).
  apply bind_Ok_inv in H as (present & w12 & Hex & H).
  apply exists_Ok_inv in Hex as ->. injection H as <-.
  pose proof (steady_step _ _ _ _ resolvePlaywright_unattended H1) as (I1 & S1 & T1 & C1 & _).
  pose proof (proj1 (resolvePlaywright_unattended w)) as U1. rewrite H1 in U1. cbn [snd] in U1.
  assert (F1 : w_confirms w1 = w_confirms w /\ w_env w1 = w_env w /\
               w_windows w1 = w_windows w).
  { unfold only_fs_and_trace in U1. rewrite U1. repeat split. }
  destruct F1 as (K1 & E1 & D1).
  pose proof (calm_step _ _ _ _ (Input_prompt_calm _ _) H2) as (P2 & K2 & E2 & D2).
  apply Input_prompt_inv in H2 as (a & I2 & -> & S2 & T2 & C2 & _).
  pose proof (calm_step _ _ _ _ (Select_prompt_calm _ _) H3) as (P3 & K3 & E3 & D3).
  apply Select_prompt_inv in H3 as (S3 & _ & T3 & C3 & _).
  pose proof (calm_step _ _ _ _ newId_calm H4) as (P4 & K4 & E4 & D4).
  unfold newId in H4. apply bind_Ok_inv in H4 as (t & w4' & H4 & Hid).
  injection Hid as <- <-.
  apply Date_now_inv in H4 as (-> & _).
  pose proof (calm_step _ _ _ _ (ensureDir_calm _) H5) as (P5 & K5 & E5 & D5).
  apply run_Ok_inv in H6 as (P6 & K6 & E6 & D6).
  apply Confirm_prompt_inv in H7 as (crest & K7 & P7 & E7 & D7).
  pose proof (calm_step _ _ _ _ (Input_prompt_calm _ _) H9) as (P9 & _).
  pose proof (calm_step _ _ _ _ Date_toISOString_calm H10) as (P10 & _).
  pose proof (calm_step _ _ _ _ (appendEntry_calm _) Happend) as (P11 & _).
  assert (Hnode : defaultNode w7 = defaultNode w).
  { unfold defaultNode, isWindows.
    replace (w_windows w7) with (w_windows w) by congruence.
    replace (w_env w7) with (w_env w) by congruence. reflexivity. }
  assert (Hid : w_clock w3 (w_ticks w3) = w_clock w (w_ticks w)) by congruence.
  rewrite Hid in P6, H8.
  exists pw, w1, a, (w_inputs w2), raw, (w_selects w3), gen, crest.
  split; [exact H1|]. split; [congruence|]. split; [congruence|]. split; [congruence|].
  cbv zeta. rewrite P11, P10, P9.
  destruct gen.
  - apply bind_Ok_inv in H8 as ([] & w8a & Hw & H8).
    apply bind_Ok_inv in H8 as (node & w8b & Hg & H8).
    injection Hg as <- <-.
    pose proof (calm_step _ _ _ _ (writeTextFile_calm _ _) Hw) as (Pw & _ & Ew & Dw).
    apply run_Ok_inv in H8 as (P8 & _).
    assert (Hnode' : defaultNode w8a = defaultNode w).
    { rewrite <- Hnode. unfold defaultNode, isWindows. now rewrite Ew, Dw. }
    rewrite P8, Pw, P7, P6, P5, P4, P3, P2, Hnode', <- app_assoc. reflexivity.
  - injection H8 as <-.
    rewrite P7, P6, P5, P4, P3, P2. reflexivity.
Qed.

Lemma record_starts_codegen_then_helper_witness :
  let w := Sample.world ∅ Sample.has_playwright ∅ [""; "first run"] ["mobile"] [true] [] in
  exists pw w1 a irest x srest g crest,
    resolvePlaywright w = (Ok pw, w1) /\
    w_inputs w = a :: irest /\
    w_selects w = x :: srest /\
    w_confirms w = g :: crest /\
    let session := SESSIONS_DIR +:+ "/" +:+ show_N (w_clock w (w_ticks w)) in
    spawned (w_trace (snd (recordNewTest w))) =
      (spawned (w_trace w1)
       ++ ESpawn (cmd pw)
            (wrap pw ["codegen";
                      if Stringify.is_empty a then "https://example.com" else a;
                      "--output"; session +:+ "/script.spec.ts";
                      "--device"; devicePreset (as_device x)])
       :: (if g then [ESpawn (defaultNode w) [session +:+ "/tracegen.js"]] else []))%list.
Proof.
  apply (record_starts_codegen_then_helper
           (Sample.world ∅ Sample.has_playwright ∅ [""; "first run"] ["mobile"] [true] [])).
  vm_compute. reflexivity.
Defined.
